(** * Transformers.ipynb: self-attention, transformer block, text classifier

    A shallow embedding of the three [nn.Module] classes of the notebook
    ([SelfAttention], [TransformerBlock], [TextClassificationTransformer])
    and of the PyTorch primitives their [forward] methods call.

    Modelling conventions.
    - A tensor is a nested list, outermost axis first: [[b, t, k]] is a
      [list (list (list R))].  Nested lists do not record the extent of an
      axis below an empty one, so wherever the source reads [x.size()] the
      extents are passed next to the data, and theorems relate the two by a
      shape predicate.
    - Floating-point numbers are idealised as real numbers: [+], [*], [/],
      [exp] and [sqrt] are the exact operations of [R].  Rounding, overflow
      and NaN are outside the model.
    - PyTorch raises on ill-shaped arguments.  The primitives below are total
      on lists and agree with the library on well-shaped arguments; theorems
      carry the shape hypotheses.  The one run-time error the notebook's code
      can meet on well-shaped input, the index error of [nn.Embedding], is
      modelled with an explicit result type. *)

From Stdlib Require Import Reals Lra Lia ZArith String List Permutation.
Import ListNotations.
Open Scope R_scope.

(** ** Tensors as nested lists *)

Abbreviation vec := (list R) (only parsing).
Abbreviation mat := (list (list R)) (only parsing).
Abbreviation tensor3 := (list (list (list R))) (only parsing).
Abbreviation tensor4 := (list (list (list (list R)))) (only parsing).

Definition shape2 {A} (n m : nat) (x : list (list A)) : Prop :=
  length x = n /\ Forall (fun r => length r = m) x.
Definition shape3 (b t k : nat) (x : tensor3) : Prop :=
  length x = b /\ Forall (shape2 t k) x.

Section ListOps.
Context {A B C : Type}.

Fixpoint zip_with (f : A -> B -> C) (l1 : list A) (l2 : list B) : list C :=
  match l1, l2 with
  | a :: l1', b :: l2' => f a b :: zip_with f l1' l2'
  | _, _ => []
  end.
End ListOps.

(** Cut a list into [n] consecutive pieces of [k] elements: the effect of a
    [view] that splits one axis of extent [n*k] into two of extents [n], [k]. *)
Fixpoint chunks {A} (n k : nat) (l : list A) : list (list A) :=
  match n with
  | O => []
  | S n' => firstn k l :: chunks n' k (skipn k l)
  end.

(** Swap the two outer axes of a nested list whose second axis has extent
    [n]: entry [j][i] of the result is entry [i][j] of the argument. *)
Definition transpose {A} (d : A) (n : nat) (m : list (list A)) : list (list A) :=
  map (fun j => map (fun row => nth j row d) m) (seq 0 n).

(** [x.transpose(1, 2)] on a tensor with a leading batch axis. *)
Definition transpose_1_2 {A} (d : A) (n : nat) (x : list (list (list A)))
  : list (list (list A)) :=
  map (transpose d n) x.

Definition rsum (l : list R) : R := fold_right Rplus 0 l.

Definition dot (a b : vec) : R := rsum (zip_with Rmult a b).

Definition column (j : nat) (m : mat) : vec := map (fun r => nth j r 0) m.

(** Matrix product of [a : [n, m]] with [b : [m, p]]. *)
Definition matmul (p : nat) (a b : mat) : mat :=
  map (fun row => map (fun j => dot row (column j b)) (seq 0 p)) a.

(** [torch.bmm(a, b)] where the matrices of [b] have [p] columns. *)
Definition bmm (p : nat) (a b : tensor3) : tensor3 := zip_with (matmul p) a b.

(** [x / c] for a tensor [x] and a scalar [c]. *)
Definition tensor_div (x : tensor3) (c : R) : tensor3 :=
  map (map (map (fun s => s / c))) x.

(** [x + y] for tensors of equal shape. *)
Definition vadd (a b : vec) : vec := zip_with Rplus a b.
Definition tensor_add (x y : tensor3) : tensor3 := zip_with (zip_with vadd) x y.

(** ** torch.nn.functional.softmax along the last axis

    The library's documented function: [softmax(x)_i = exp(x_i) / sum_j exp(x_j)]. *)
Definition softmax (v : vec) : vec :=
  let z := rsum (map exp v) in
  map (fun s => exp s / z) v.

Definition F_softmax_last (x : tensor3) : tensor3 := map (map softmax) x.

(** The softmax in the words of the specification: subtract the row maximum
    before exponentiating. *)
Definition row_max (v : vec) : R :=
  match v with
  | [] => 0
  | s :: v' => fold_right Rmax s v'
  end.

Definition stable_softmax (v : vec) : vec :=
  let m := row_max v in
  let z := rsum (map (fun s => exp (s - m)) v) in
  map (fun s => exp (s - m) / z) v.

(** ** nn.Linear

    [weight] has shape [[out_features, in_features]];
    [forward(x) = x . weight^T + bias], applied to the last axis. *)
Record Linear := mkLinear {
  weight : mat;
  bias : option vec
}.

Definition Linear_apply (l : Linear) (v : vec) : vec :=
  let y := map (fun w => dot v w) (weight l) in
  match bias l with
  | Some bv => vadd y bv
  | None => y
  end.

Definition Linear_forward (l : Linear) (x : tensor3) : tensor3 :=
  map (map (Linear_apply l)) x.

(** [nn.Linear(i, o, bias=b)]: the shapes the constructor allocates (the
    initial values are random and play no role). *)
Definition Linear_init (i o : nat) (b : bool) (l : Linear) : Prop :=
  shape2 o i (weight l) /\
  match bias l with
  | Some bv => b = true /\ length bv = o
  | None => b = false
  end.

(** ** class SelfAttention *)

Record SelfAttention := mkSelfAttention {
  sa_k : nat;
  sa_h : nat;
  Wq : Linear;
  Wk : Linear;
  Wv : Linear;
  unifyheads : Linear
}.

(** [SelfAttention.__init__(self, k, heads=8)]. *)
Definition SelfAttention_init (k heads : nat) (sa : SelfAttention) : Prop :=
  sa_k sa = k /\ sa_h sa = heads /\
  Linear_init k (k * heads) false (Wq sa) /\
  Linear_init k (k * heads) false (Wk sa) /\
  Linear_init k (k * heads) false (Wv sa) /\
  Linear_init (heads * k) k true (unifyheads sa).

(** [W(x).view(b, t, h, k)] followed by
    [.transpose(1, 2).contiguous().view(b * h, t, k)]. *)
Definition view_heads (h k : nat) (x : tensor3) : tensor4 :=
  map (map (chunks h k)) x.

Definition fold_heads (h : nat) (x : tensor4) : tensor3 :=
  concat (transpose_1_2 [] h x).

Definition SelfAttention_queries (sa : SelfAttention) (k : nat) (x : tensor3) : tensor3 :=
  fold_heads (sa_h sa) (view_heads (sa_h sa) k (Linear_forward (Wq sa) x)).

Definition SelfAttention_keys (sa : SelfAttention) (k : nat) (x : tensor3) : tensor3 :=
  fold_heads (sa_h sa) (view_heads (sa_h sa) k (Linear_forward (Wk sa) x)).

Definition SelfAttention_values (sa : SelfAttention) (k : nat) (x : tensor3) : tensor3 :=
  fold_heads (sa_h sa) (view_heads (sa_h sa) k (Linear_forward (Wv sa) x)).

(** [w_prime = torch.bmm(queries, keys.transpose(1, 2)) / np.sqrt(k)]. *)
Definition SelfAttention_w_prime (sa : SelfAttention) (t k : nat) (x : tensor3) : tensor3 :=
  tensor_div
    (bmm t (SelfAttention_queries sa k x)
           (transpose_1_2 0 k (SelfAttention_keys sa k x)))
    (sqrt (INR k)).

(** [w = F.softmax(w_prime, dim=-1)]. *)
Definition SelfAttention_w (sa : SelfAttention) (t k : nat) (x : tensor3) : tensor3 :=
  F_softmax_last (SelfAttention_w_prime sa t k x).

(** [SelfAttention.forward(self, x)] with [b, t, k = x.size()]. *)
Definition SelfAttention_forward (sa : SelfAttention) (b t k : nat) (x : tensor3)
  : tensor3 :=
  let h := sa_h sa in
  let queries := view_heads h k (Linear_forward (Wq sa) x) in
  let keys := view_heads h k (Linear_forward (Wk sa) x) in
  let values := view_heads h k (Linear_forward (Wv sa) x) in
  let keys := fold_heads h keys in
  let queries := fold_heads h queries in
  let values := fold_heads h values in
  let w_prime := tensor_div (bmm t queries (transpose_1_2 0 k keys)) (sqrt (INR k)) in
  let w := F_softmax_last w_prime in
  let out := chunks b h (bmm k w values) in
  let out := map (map (@concat R)) (transpose_1_2 [] t out) in
  Linear_forward (unifyheads sa) out.

(** ** nn.LayerNorm over the last axis

    [y = (x - E[x]) / sqrt(Var[x] + eps) * weight + bias], with the biased
    variance and the default [eps = 1e-05]. *)
Record LayerNorm := mkLayerNorm {
  normalized_shape : nat;
  ln_eps : R;
  ln_weight : vec;
  ln_bias : vec
}.

Definition LayerNorm_default_eps : R := 1 / 100000.

Definition mean (v : vec) : R := rsum v / INR (length v).

Definition variance (v : vec) : R :=
  mean (map (fun s => (s - mean v) * (s - mean v)) v).

Definition LayerNorm_denominator (ln : LayerNorm) (v : vec) : R :=
  sqrt (variance v + ln_eps ln).

Definition LayerNorm_apply (ln : LayerNorm) (v : vec) : vec :=
  let mu := mean v in
  let sd := LayerNorm_denominator ln v in
  vadd (zip_with Rmult (map (fun s => (s - mu) / sd) v) (ln_weight ln)) (ln_bias ln).

Definition LayerNorm_forward (ln : LayerNorm) (x : tensor3) : tensor3 :=
  map (map (LayerNorm_apply ln)) x.

(** [nn.LayerNorm(k)]. *)
Definition LayerNorm_init (k : nat) (ln : LayerNorm) : Prop :=
  normalized_shape ln = k /\ ln_eps ln = LayerNorm_default_eps /\
  length (ln_weight ln) = k /\ length (ln_bias ln) = k.

(** ** nn.ReLU and nn.Sequential *)

Definition relu (s : R) : R := Rmax 0 s.

Inductive Layer :=
| Layer_Linear (l : Linear)
| Layer_ReLU.

Definition Layer_forward (ly : Layer) (x : tensor3) : tensor3 :=
  match ly with
  | Layer_Linear l => Linear_forward l x
  | Layer_ReLU => map (map (map relu)) x
  end.

Definition Sequential_forward (layers : list Layer) (x : tensor3) : tensor3 :=
  fold_left (fun acc ly => Layer_forward ly acc) layers x.

(** ** class TransformerBlock *)

Record TransformerBlock := mkTransformerBlock {
  attention : SelfAttention;
  norm1 : LayerNorm;
  norm2 : LayerNorm;
  ff : list Layer
}.

(** [TransformerBlock.__init__(self, k, heads=8, n_mlp=4)]. *)
Definition TransformerBlock_init (k heads n_mlp : nat) (blk : TransformerBlock) : Prop :=
  SelfAttention_init k heads (attention blk) /\
  LayerNorm_init k (norm1 blk) /\
  LayerNorm_init k (norm2 blk) /\
  exists l1 l2,
    ff blk = [Layer_Linear l1; Layer_ReLU; Layer_Linear l2] /\
    Linear_init k (n_mlp * k) true l1 /\
    Linear_init (n_mlp * k) k true l2.

(** [TransformerBlock.forward(self, x)]; [b], [t], [k] are the extents that
    [self.attention] reads from [x.size()]. *)
Definition TransformerBlock_forward (blk : TransformerBlock) (b t k : nat) (x : tensor3)
  : tensor3 :=
  let x_prime := SelfAttention_forward (attention blk) b t k x in
  let x := LayerNorm_forward (norm1 blk) (tensor_add x_prime x) in
  let x_prime := Sequential_forward (ff blk) x in
  LayerNorm_forward (norm2 blk) (tensor_add x_prime x).

(** [nn.Sequential] over the blocks: the blocks in order; the empty container is
    the identity.  Every block returns a tensor of the extents it was given
    (proved below for constructed blocks), so the same [b], [t], [k] are what
    each block reads from the size of its input. *)
Definition TransformerBlocks_forward (blocks : list TransformerBlock) (b t k : nat)
  (x : tensor3) : tensor3 :=
  fold_left (fun acc blk => TransformerBlock_forward blk b t k acc) blocks x.

(** ** Errors *)

Inductive error :=
| IndexError   (* "index out of range in self", raised by nn.Embedding *)
| TypeError.   (* unexpected or missing argument in a call *)

Inductive result (A : Type) :=
| Ok (a : A)
| Err (e : error).
Arguments Ok {A} a.
Arguments Err {A} e.

Definition bind {A B} (r : result A) (f : A -> result B) : result B :=
  match r with
  | Ok a => f a
  | Err e => Err e
  end.

Notation "x <- r ;; k" := (bind r (fun x => k))
  (at level 61, r at next level, right associativity).

Fixpoint mapM {A B} (f : A -> result B) (l : list A) : result (list B) :=
  match l with
  | [] => Ok []
  | a :: l' => y <- f a ;; ys <- mapM f l' ;; Ok (y :: ys)
  end.

(** ** nn.Embedding

    A table of [num_embeddings] rows of width [embedding_dim]; looking up an
    index outside [0, num_embeddings) raises [IndexError]. *)
Record Embedding := mkEmbedding {
  embedding_dim : nat;
  emb_weight : mat
}.

Definition num_embeddings (e : Embedding) : nat := length (emb_weight e).

Definition Embedding_lookup (e : Embedding) (i : Z) : result vec :=
  if andb (0 <=? i)%Z (i <? Z.of_nat (num_embeddings e))%Z
  then Ok (nth (Z.to_nat i) (emb_weight e) [])
  else Err IndexError.

(** Index tensors of shape [[t]] and [[b, t]]. *)
Definition Embedding_forward1 (e : Embedding) (idx : list Z) : result mat :=
  mapM (Embedding_lookup e) idx.

Definition Embedding_forward2 (e : Embedding) (idx : list (list Z)) : result tensor3 :=
  mapM (Embedding_forward1 e) idx.

(** [nn.Embedding(n, k)]. *)
Definition Embedding_init (n k : nat) (e : Embedding) : Prop :=
  embedding_dim e = k /\ shape2 n k (emb_weight e).

(** [torch.arange(t)]. *)
Definition arange (t : nat) : list Z := map Z.of_nat (seq 0 t).

(** [p.unsqueeze(0).expand(b, t, k)]: the one matrix [p] repeated along a
    new leading axis of extent [b]. *)
Definition unsqueeze_expand (b : nat) (p : mat) : tensor3 := repeat p b.

(** [x.mean(dim=1)] on a tensor of shape [[b, t, k]]. *)
Definition mean_dim1 (t k : nat) (x : tensor3) : mat :=
  map (fun m => map (fun d => rsum (column d m) / INR t) (seq 0 k)) x.

(** ** class TextClassificationTransformer *)

Record TextClassificationTransformer := mkTextClassificationTransformer {
  num_tokens : nat;
  token_emb : Embedding;
  pos_emb : Embedding;
  transformer_blocks : list TransformerBlock;
  classification : Linear
}.

(** [TextClassificationTransformer.__init__(self, k, heads=8, depth=4,
    max_seq_len=100, num_tokens=50000, num_classes=2)].  The blocks are built
    as [TransformerBlock(k=k, heads=heads)], hence with that constructor's
    default [n_mlp = 4]. *)
Definition TransformerBlock_default_n_mlp : nat := 4.

Definition TextClassificationTransformer_init
  (k heads depth max_seq_len n_tokens num_classes : nat)
  (m : TextClassificationTransformer) : Prop :=
  num_tokens m = n_tokens /\
  Embedding_init n_tokens k (token_emb m) /\
  Embedding_init max_seq_len k (pos_emb m) /\
  length (transformer_blocks m) = depth /\
  Forall (TransformerBlock_init k heads TransformerBlock_default_n_mlp)
         (transformer_blocks m) /\
  Linear_init k num_classes true (classification m).

(** [TextClassificationTransformer.forward(self, x)] for [x] of shape [[b, t]]. *)
Definition TextClassificationTransformer_forward
  (m : TextClassificationTransformer) (b t : nat) (x : list (list Z)) : result mat :=
  tokens <- Embedding_forward2 (token_emb m) x ;;
  let k := embedding_dim (token_emb m) in
  pe <- Embedding_forward1 (pos_emb m) (arange t) ;;
  let positions := unsqueeze_expand b pe in
  let embedding := tensor_add tokens positions in
  let x := TransformerBlocks_forward (transformer_blocks m) b t k embedding in
  let x := mean_dim1 t k x in
  Ok (map (Linear_apply (classification m)) x).

(** ** Keyword arguments of the constructors

    A Python call binds each keyword to a parameter of the signature; a
    keyword the signature does not have, or a parameter left without value
    and without default, raises [TypeError]. *)
Definition signature := list (string * option Z).

Definition lookup {V} (name : string) (l : list (string * V)) : option V :=
  match find (fun kv => String.eqb name (fst kv)) l with
  | Some kv => Some (snd kv)
  | None => None
  end.

Definition bind_parameter (kwargs : list (string * Z)) (p : string * option Z)
  : result (string * Z) :=
  match lookup (fst p) kwargs, snd p with
  | Some v, _ => Ok (fst p, v)
  | None, Some dflt => Ok (fst p, dflt)
  | None, None => Err TypeError
  end.

Definition bind_kwargs (sig : signature) (kwargs : list (string * Z))
  : result (list (string * Z)) :=
  if forallb (fun kv => match lookup (fst kv) sig with Some _ => true | None => false end)
             kwargs
  then mapM (bind_parameter kwargs) sig
  else Err TypeError.

Definition TransformerBlock_signature : signature :=
  [("k"%string, None); ("heads"%string, Some 8%Z); ("n_mlp"%string, Some 4%Z)].

Definition TextClassificationTransformer_signature : signature :=
  [("k"%string, None); ("heads"%string, Some 8%Z); ("depth"%string, Some 4%Z);
   ("max_seq_len"%string, Some 100%Z); ("num_tokens"%string, Some 50000%Z);
   ("num_classes"%string, Some 2%Z)].

Definition arg (env : list (string * Z)) (name : string) : nat :=
  match lookup name env with
  | Some v => Z.to_nat v
  | None => O
  end.

(** Calling the constructors with keyword arguments [kwargs]. *)
Definition TransformerBlock_new (kwargs : list (string * Z)) (blk : TransformerBlock)
  : Prop :=
  exists env,
    bind_kwargs TransformerBlock_signature kwargs = Ok env /\
    TransformerBlock_init (arg env "k") (arg env "heads") (arg env "n_mlp") blk.

Definition TextClassificationTransformer_new (kwargs : list (string * Z))
  (m : TextClassificationTransformer) : Prop :=
  exists env,
    bind_kwargs TextClassificationTransformer_signature kwargs = Ok env /\
    TextClassificationTransformer_init
      (arg env "k") (arg env "heads") (arg env "depth") (arg env "max_seq_len")
      (arg env "num_tokens") (arg env "num_classes") m.

(** ** Per-example reading of the head folding

    Folding the heads into the batch axis keeps the examples apart: the
    [h] folded matrices of example [i] are computed from example [i] alone. *)

(** The [h] per-head matrices [[t, k]] of one example under projection [W]. *)
Definition heads_of (W : Linear) (h k : nat) (xi : mat) : tensor3 :=
  transpose [] h (map (fun p => chunks h k (Linear_apply W p)) xi).

(** The [h] attention matrices [[t, t]] of one example. *)
Definition SelfAttention_w_example (sa : SelfAttention) (t k : nat) (xi : mat) : tensor3 :=
  F_softmax_last
    (tensor_div
       (bmm t (heads_of (Wq sa) (sa_h sa) k xi)
              (transpose_1_2 0 k (heads_of (Wk sa) (sa_h sa) k xi)))
       (sqrt (INR k))).

(** The output rows [[t, k]] of one example. *)
Definition SelfAttention_example (sa : SelfAttention) (t k : nat) (xi : mat) : mat :=
  map (Linear_apply (unifyheads sa))
    (map (@concat R)
       (transpose [] t
          (bmm k (SelfAttention_w_example sa t k xi)
                 (heads_of (Wv sa) (sa_h sa) k xi)))).

(** Reordering of the positions of a sequence: position [i] of the result
    is position [nth i sigma] of the argument. *)
Definition permute {A} (d : A) (sigma : list nat) (l : list A) : list A :=
  map (fun i => nth i l d) sigma.

(** The raw scores in the words of the specification: entry [i][j] is the
    inner product of query [i] and key [j], divided by [sqrt k]. *)
Definition scaled_dot_product_scores (k : nat) (q kk : mat) : mat :=
  map (fun qi => map (fun kj => dot qi kj / sqrt (INR k)) kk) q.

(** ** Concrete instances

    A two-head attention layer of embedding dimension 1 and a batch of one
    two-position sequence, on which the hypotheses of the theorems below are
    checked by evaluation. *)
Definition sample_attention : SelfAttention :=
  mkSelfAttention 1 2
    (mkLinear [[1]; [2]] None)
    (mkLinear [[1]; [0]] None)
    (mkLinear [[1]; [1]] None)
    (mkLinear [[1; 1]] (Some [0])).

Definition sample_input : tensor3 := [[[1]; [2]]].

Definition sample_single_input : tensor3 := [[[1]]].

Definition sample_sigma : list nat := [1; 0]%nat.

Definition sample_norm : LayerNorm :=
  mkLayerNorm 1 LayerNorm_default_eps [1] [0].

Definition sample_block : TransformerBlock :=
  mkTransformerBlock sample_attention sample_norm sample_norm
    [Layer_Linear (mkLinear [[1]; [1]; [1]; [1]] (Some [0; 0; 0; 0]));
     Layer_ReLU;
     Layer_Linear (mkLinear [[1; 1; 1; 1]] (Some [0]))].

(** ** The classifier in the words of the specification *)

(** A valid token-id input of shape [[b, t]]: [b >= 1], [1 <= t <= max_seq_len]
    and every id in [[0, num_tokens)]. *)
Definition valid_token_ids (n_tokens max_seq_len b t : nat) (x : list (list Z)) : Prop :=
  shape2 b t x /\ (1 <= b)%nat /\ (1 <= t <= max_seq_len)%nat /\
  Forall (Forall (fun id => (0 <= id < Z.of_nat n_tokens)%Z)) x.

(** Steps 1-3: the embedding of token [ids[j]] plus the embedding of
    position [j], for every position [j] of every example. *)
Definition spec_embed (m : TextClassificationTransformer) (x : list (list Z)) : tensor3 :=
  map (fun ids =>
         zip_with vadd
           (map (fun id => nth (Z.to_nat id) (emb_weight (token_emb m)) []) ids)
           (map (fun j => nth j (emb_weight (pos_emb m)) []) (seq 0 (length ids))))
      x.

(** Step 4: the blocks one after the other; no block, no change. *)
Fixpoint spec_blocks (blocks : list TransformerBlock) (b t k : nat) (x : tensor3)
  : tensor3 :=
  match blocks with
  | [] => x
  | blk :: rest => spec_blocks rest b t k (TransformerBlock_forward blk b t k x)
  end.

(** Step 5: the average of the [t] vectors of one example. *)
Definition spec_mean_pool (k : nat) (xi : mat) : vec :=
  map (fun s => s / INR (length xi)) (fold_right vadd (repeat 0 k) xi).

(** Steps 1-6. *)
Definition spec_classifier (m : TextClassificationTransformer) (b t : nat)
  (x : list (list Z)) : mat :=
  let k := embedding_dim (token_emb m) in
  map (fun xi => Linear_apply (classification m) (spec_mean_pool k xi))
      (spec_blocks (transformer_blocks m) b t k (spec_embed m x)).

(** ** Per-example reading of the block and of the classifier *)

Definition Layer_example (ly : Layer) (xi : mat) : mat :=
  match ly with
  | Layer_Linear l => map (Linear_apply l) xi
  | Layer_ReLU => map (map relu) xi
  end.

Definition Sequential_example (layers : list Layer) (xi : mat) : mat :=
  fold_left (fun acc ly => Layer_example ly acc) layers xi.

Definition TransformerBlock_example (blk : TransformerBlock) (t k : nat) (xi : mat) : mat :=
  let a := SelfAttention_example (attention blk) t k xi in
  let x1 := map (LayerNorm_apply (norm1 blk)) (zip_with vadd a xi) in
  let f := Sequential_example (ff blk) x1 in
  map (LayerNorm_apply (norm2 blk)) (zip_with vadd f x1).

Definition classifier_example (m : TextClassificationTransformer) (t : nat)
  (ids : list Z) : vec :=
  let k := embedding_dim (token_emb m) in
  let e := zip_with vadd
             (map (fun id => nth (Z.to_nat id) (emb_weight (token_emb m)) []) ids)
             (map (fun j => nth j (emb_weight (pos_emb m)) []) (seq 0 t)) in
  let y := fold_left (fun acc blk => TransformerBlock_example blk t k acc)
             (transformer_blocks m) e in
  Linear_apply (classification m) (map (fun d => rsum (column d y) / INR t) (seq 0 k)).

(** A classifier of embedding dimension 1 with two tokens, two positions,
    one block and two classes, and a batch of two valid sequences. *)
Definition sample_classifier : TextClassificationTransformer :=
  mkTextClassificationTransformer 2
    (mkEmbedding 1 [[1]; [2]])
    (mkEmbedding 1 [[0]; [1]])
    [sample_block]
    (mkLinear [[1]; [2]] (Some [0; 0])).

Definition sample_token_ids : list (list Z) := [[0; 1]; [1; 1]]%Z.
Definition sample_other_token_ids : list (list Z) := [[0; 1]; [0; 0]; [1; 0]]%Z.

Definition sample_bad_token_ids : list (list Z) := [[0; 2]]%Z.

(** ** Further parts of the notebook *)

(** [out.view(b, h, t, k).transpose(1, 2).contiguous().view(b, t, h * k)]:
    the un-folding of the heads at the end of [SelfAttention.forward]. *)
Definition unfold_heads (b h t : nat) (x : tensor3) : tensor3 :=
  map (map (@concat R)) (transpose_1_2 [] t (chunks b h x)).

(** The first code cell: self-attention without projections.
    [w_prime = torch.bmm(x, x.transpose(1, 2))],
    [w = F.softmax(w_prime, dim=-1)], [y = torch.bmm(w, x)],
    for [x] of shape [[b, t, l]]. *)
Definition basic_w_prime (t l : nat) (x : tensor3) : tensor3 :=
  bmm t x (transpose_1_2 0 l x).

Definition basic_w (t l : nat) (x : tensor3) : tensor3 :=
  F_softmax_last (basic_w_prime t l x).

Definition basic_y (t l : nat) (x : tensor3) : tensor3 :=
  bmm l (basic_w t l x) x.

Definition sample_projected : tensor3 := [[[1; 2]; [3; 4]]].

Definition sample_constant_input : tensor3 := [[[3]; [3]]; [[5]; [5]]].

Definition sample_negative_token_ids : list (list Z) := [[0; -1]]%Z.

(** A classifier whose position table has equal rows. *)
Definition sample_flat_classifier : TextClassificationTransformer :=
  mkTextClassificationTransformer 2
    (mkEmbedding 1 [[1]; [2]])
    (mkEmbedding 1 [[7]; [7]])
    [sample_block]
    (mkLinear [[1]; [2]] (Some [0; 0])).


(** ** Number of learned parameters

    What [sum(p.numel() for p in module.parameters())] counts, and the
    model summary of the training run prints per submodule. *)
Definition Linear_numel (l : Linear) : nat :=
  length (concat (weight l)) +
  match bias l with
  | Some bv => length bv
  | None => 0
  end.

Definition LayerNorm_numel (ln : LayerNorm) : nat :=
  length (ln_weight ln) + length (ln_bias ln).

Definition SelfAttention_numel (sa : SelfAttention) : nat :=
  Linear_numel (Wq sa) + Linear_numel (Wk sa) + Linear_numel (Wv sa) +
  Linear_numel (unifyheads sa).

Definition Layer_numel (ly : Layer) : nat :=
  match ly with
  | Layer_Linear l => Linear_numel l
  | Layer_ReLU => 0
  end.

Definition TransformerBlock_numel (blk : TransformerBlock) : nat :=
  SelfAttention_numel (attention blk) +
  LayerNorm_numel (norm1 blk) + LayerNorm_numel (norm2 blk) +
  list_sum (map Layer_numel (ff blk)).

Definition Embedding_numel (e : Embedding) : nat := length (concat (emb_weight e)).

Definition TextClassificationTransformer_numel (m : TextClassificationTransformer) : nat :=
  Embedding_numel (token_emb m) + Embedding_numel (pos_emb m) +
  list_sum (map TransformerBlock_numel (transformer_blocks m)) +
  Linear_numel (classification m).

(** ** class IMDBDataModule

    A Python [dict] is an association list in insertion order with one
    entry per key.  The data that [setup] downloads (the reviews and the
    word index of the IMDB set) are arguments of the model. *)
Section Dict.
Context {K V : Type}.
Variable eqb : K -> K -> bool.

Fixpoint dict_get (k : K) (d : list (K * V)) : option V :=
  match d with
  | [] => None
  | (k', v) :: d' => if eqb k k' then Some v else dict_get k d'
  end.

(** [d[k] = v]: overwrite in place, or append a new entry. *)
Fixpoint dict_set (k : K) (v : V) (d : list (K * V)) : list (K * V) :=
  match d with
  | [] => [(k, v)]
  | (k', v') :: d' => if eqb k k' then (k, v) :: d' else (k', v') :: dict_set k v d'
  end.

(** A dict comprehension over [items], the later entry winning. *)
Definition dict_of_items (items : list (K * V)) : list (K * V) :=
  fold_left (fun d kv => dict_set (fst kv) (snd kv) d) items [].
End Dict.

(** [dict( **a, **b )]: a key of [b] that [a] already has is a [TypeError]. *)
Definition dict_kwargs (a b : list (string * Z)) : result (list (string * Z)) :=
  if existsb (fun kv => match dict_get String.eqb (fst kv) a with
                        | Some _ => true
                        | None => false
                        end) b
  then Err TypeError
  else Ok (a ++ b).

Definition special_tokens : list (string * Z) :=
  [("<PAD>"%string, 0%Z); ("<START>"%string, 1%Z); ("<UNK>"%string, 2%Z);
   ("<UNUSED>"%string, 3%Z)].

(** [pad_sequences(xs, maxlen=maxlen, value=0.0)] of Keras with its defaults
    (pad and truncate at the front, integer output), for [maxlen >= 1]. *)
Definition pad_sequence (maxlen : nat) (s : list Z) : list Z :=
  let trunc := skipn (length s - maxlen) s in
  repeat 0%Z (maxlen - length trunc) ++ trunc.

Definition pad_sequences (maxlen : nat) (xs : list (list Z)) : list (list Z) :=
  map (pad_sequence maxlen) xs.

Record IMDBDataModule := mkIMDBDataModule {
  batch_size : nat;
  x_train : list (list Z);
  y_train : list Z;
  x_test : list (list Z);
  y_test : list Z;
  word2idx : list (string * Z);
  idx2word : list (Z * string)
}.

(** [IMDBDataModule(batch_size).setup(num_words, max_seq_len)], where
    [imdb.load_data] returned [((xtr, ytr), (xte, yte))] and
    [imdb.get_word_index()] returned [word_index]. *)
Definition IMDBDataModule_setup (bs : nat)
  (xtr : list (list Z)) (ytr : list Z) (xte : list (list Z)) (yte : list Z)
  (word_index : list (string * Z)) (max_seq_len : nat) : result IMDBDataModule :=
  w2i <- dict_kwargs
           (dict_of_items String.eqb (map (fun kv => (fst kv, (snd kv + 3)%Z)) word_index))
           special_tokens ;;
  let i2w := dict_of_items Z.eqb (map (fun kv => (snd kv, fst kv)) w2i) in
  Ok (mkIMDBDataModule bs
        (pad_sequences max_seq_len xtr) ytr
        (pad_sequences max_seq_len xte) yte
        w2i i2w).

Inductive example_error :=
| ValueError           (* np.random.randint(0, 0) *)
| KeyError (key : Z).  (* idx2word[token_id] for a missing id *)

Definition newline : string := String (Ascii.ascii_of_nat 10) EmptyString.

(** [' '.join(self.idx2word[token_id] for token_id in x if token_id > 1)]. *)
Fixpoint review_words (i2w : list (Z * string)) (x : list Z)
  : example_error + list string :=
  match x with
  | [] => inr []
  | token_id :: x' =>
      if (1 <? token_id)%Z then
        match dict_get Z.eqb token_id i2w with
        | None => inl (KeyError token_id)
        | Some w =>
            match review_words i2w x' with
            | inl e => inl e
            | inr ws => inr (w :: ws)
            end
        end
      else review_words i2w x'
  end.

(** [IMDBDataModule.example], with [idx] the index that
    [np.random.randint(0, len(self.x_train))] draws. *)
Definition IMDBDataModule_example (dm : IMDBDataModule) (idx : nat)
  : example_error + string :=
  if (length (x_train dm) =? 0)%nat then inl ValueError
  else
    let x := nth idx (x_train dm) [] in
    let y := nth idx (y_train dm) 0%Z in
    match review_words (idx2word dm) x with
    | inl e => inl e
    | inr ws =>
        let review := String.concat " " ws in
        let sentiment := if (y =? 0)%Z then "NEGATIVE"%string else "POSITIVE"%string in
        inr (review ++ newline ++ "Sentiment: " ++ sentiment)%string
    end.

(** [DataLoader(TensorDataset(xs, ys), batch_size)] with the defaults (no
    shuffling, last batch kept): consecutive groups of [batch_size] examples,
    each as the pair of its inputs and its labels; for [batch_size >= 1]. *)
Fixpoint batches_of {A} (fuel n : nat) (l : list A) : list (list A) :=
  match fuel with
  | O => []
  | S fuel' =>
      match l with
      | [] => []
      | _ => firstn n l :: batches_of fuel' n (skipn n l)
      end
  end.

Definition DataLoader (xs : list (list Z)) (ys : list Z) (n : nat)
  : list (list (list Z) * list Z) :=
  map (fun batch => (map fst batch, map snd batch))
      (batches_of (length (combine xs ys)) n (combine xs ys)).

Definition train_dataloader (dm : IMDBDataModule) :=
  DataLoader (x_train dm) (y_train dm) (batch_size dm).

Definition test_dataloader (dm : IMDBDataModule) :=
  DataLoader (x_test dm) (y_test dm) (batch_size dm).

Definition val_dataloader (dm : IMDBDataModule) :=
  DataLoader (x_test dm) (y_test dm) (batch_size dm).

(** A small word index and two reviews. *)
Definition sample_word_index : list (string * Z) :=
  [("the"%string, 1%Z); ("film"%string, 2%Z)].

Definition sample_reviews : list (list Z) := [[1; 4; 5]; [1; 5]]%Z.
Definition sample_labels : list Z := [1; 0]%Z.

Definition sample_dm : IMDBDataModule :=
  mkIMDBDataModule 2 [[1; 4; 5]; [0; 1; 5]]%Z [1; 0]%Z [] []
    [("the"%string, 4%Z); ("film"%string, 5%Z); ("<PAD>"%string, 0%Z);
     ("<START>"%string, 1%Z); ("<UNK>"%string, 2%Z); ("<UNUSED>"%string, 3%Z)]
    [(4%Z, "the"%string); (5%Z, "film"%string); (0%Z, "<PAD>"%string);
     (1%Z, "<START>"%string); (2%Z, "<UNK>"%string); (3%Z, "<UNUSED>"%string)].

(** A classifier for six token ids and sequences of three positions. *)
Definition sample_imdb_classifier : TextClassificationTransformer :=
  mkTextClassificationTransformer 6
    (mkEmbedding 1 [[0]; [1]; [2]; [3]; [4]; [5]])
    (mkEmbedding 1 [[0]; [1]; [2]])
    [sample_block]
    (mkLinear [[1]; [2]] (Some [0; 0])).

(** What it means for a data loader over the padded inputs [xs] and labels
    [ys] to feed classifier [m]: the batches partition [xs] and [ys] in
    order, each has between 1 and [bs] examples with one label each, and
    [forward] returns logits of shape [[len(batch), num_classes]] on it. *)
Definition batches_accepted (m : TextClassificationTransformer)
  (bs max_seq_len num_classes : nat)
  (loader : list (list (list Z) * list Z)) (xs : list (list Z)) (ys : list Z) : Prop :=
  concat (map fst loader) = xs /\
  concat (map snd loader) = ys /\
  forall xb yb, In (xb, yb) loader ->
    (1 <= length xb <= bs)%nat /\ length yb = length xb /\
    exists logits,
      TextClassificationTransformer_forward m (length xb) max_seq_len xb = Ok logits /\
      shape2 (length xb) num_classes logits.

(** ** Training and test steps

    [nn.CrossEntropyLoss()] on logits of shape [[N, C]] and integer targets
    of shape [[N]]: the mean over the batch of
    [-log(softmax(logits[n])[target[n]])]; a target outside [[0, C)] raises
    the index error.  The values handed to [self.log] (the loss and the
    accuracy metric) do not enter what the steps return and are left out. *)
Definition nll_of (l : vec) (target : Z) : result R :=
  if andb (0 <=? target)%Z (target <? Z.of_nat (length l))%Z
  then Ok (- ln (nth (Z.to_nat target) (softmax l) 0))
  else Err IndexError.

Definition CrossEntropyLoss (logits : mat) (y : list Z) : result R :=
  losses <- mapM (fun lt => nll_of (fst lt) (snd lt)) (combine logits y) ;;
  Ok (mean losses).

(** [training_step(self, batch, batch_idx)]: returns the loss. *)
Definition training_step (m : TextClassificationTransformer) (b t : nat)
  (batch : list (list Z) * list Z) : result R :=
  logits <- TextClassificationTransformer_forward m b t (fst batch) ;;
  CrossEntropyLoss logits (snd batch).

(** [test_step(self, batch, batch_idx)]: computes the same loss, returns
    [None]; [val_step] delegates to it. *)
Definition test_step (m : TextClassificationTransformer) (b t : nat)
  (batch : list (list Z) * list Z) : result unit :=
  logits <- TextClassificationTransformer_forward m b t (fst batch) ;;
  loss <- CrossEntropyLoss logits (snd batch) ;;
  Ok tt.

Definition val_step (m : TextClassificationTransformer) (b t : nat)
  (batch : list (list Z) * list Z) : result unit :=
  test_step m b t batch.

(** * Properties *)

(** ** Lists *)

Section ListLemmas.
Context {A B C : Type}.

Lemma zip_with_length (f : A -> B -> C) l1 l2 :
  length (zip_with f l1 l2) = Nat.min (length l1) (length l2).
Proof.
  revert l2; induction l1 as [|a l1 IH]; intros [|b l2]; simpl; auto.
Qed.

Lemma zip_with_app (f : A -> B -> C) l1 l1' l2 l2' :
  length l1 = length l2 ->
  zip_with f (l1 ++ l1') (l2 ++ l2') = zip_with f l1 l2 ++ zip_with f l1' l2'.
Proof.
  revert l2; induction l1 as [|a l1 IH]; intros [|b l2] H; simpl in *;
    try discriminate; auto.
  f_equal. apply IH. lia.
Qed.

Lemma zip_with_map_same {X} (f : A -> B -> C) (g : X -> A) (g' : X -> B) l :
  zip_with f (map g l) (map g' l) = map (fun x => f (g x) (g' x)) l.
Proof. induction l; simpl; congruence. Qed.

Lemma zip_with_concat_map {X} (f : A -> B -> C) (F : X -> list A) (G : X -> list B) l :
  (forall x, length (F x) = length (G x)) ->
  zip_with f (concat (map F l)) (concat (map G l))
  = concat (map (fun x => zip_with f (F x) (G x)) l).
Proof.
  intros H. induction l as [|x l IH]; simpl; auto.
  rewrite zip_with_app by apply H. now rewrite IH.
Qed.

Lemma chunks_concat (h : nat) (ls : list (list A)) :
  Forall (fun l => length l = h) ls ->
  chunks (length ls) h (concat ls) = ls.
Proof.
  induction 1 as [|l ls Hl _ IH]; simpl; auto.
  rewrite firstn_app, skipn_app, Hl, Nat.sub_diag. simpl.
  rewrite <- Hl at 1. rewrite firstn_all, app_nil_r.
  subst h. rewrite skipn_all. simpl. now rewrite IH.
Qed.

Lemma transpose_length (d : A) n m : length (transpose d n m) = n.
Proof. unfold transpose. now rewrite length_map, length_seq. Qed.

Lemma map_nth_seq_id (d : A) l :
  map (fun i => nth i l d) (seq 0 (length l)) = l.
Proof.
  induction l as [|a l IH]; simpl; auto.
  f_equal. rewrite <- seq_shift, map_map. exact IH.
Qed.
End ListLemmas.

(** ** Self-attention, one example at a time *)

Lemma heads_of_length W h k xi : length (heads_of W h k xi) = h.
Proof. apply transpose_length. Qed.

Lemma fold_heads_view W h k x :
  fold_heads h (view_heads h k (Linear_forward W x)) = concat (map (heads_of W h k) x).
Proof.
  unfold fold_heads, view_heads, Linear_forward, transpose_1_2.
  rewrite !map_map. f_equal. apply map_ext. intros xi.
  unfold heads_of. now rewrite map_map.
Qed.

Lemma SelfAttention_w_example_length sa t k xi :
  length (SelfAttention_w_example sa t k xi) = sa_h sa.
Proof.
  unfold SelfAttention_w_example, F_softmax_last, tensor_div, bmm, transpose_1_2.
  rewrite !length_map, zip_with_length, length_map, !heads_of_length. lia.
Qed.

Lemma SelfAttention_w_concat sa t k x :
  SelfAttention_w sa t k x = concat (map (SelfAttention_w_example sa t k) x).
Proof.
  unfold SelfAttention_w, SelfAttention_w_prime, SelfAttention_queries,
    SelfAttention_keys.
  rewrite !fold_heads_view.
  unfold F_softmax_last, tensor_div, bmm, transpose_1_2.
  rewrite (concat_map (transpose 0 k)), (map_map _ (map (transpose 0 k))).
  rewrite (zip_with_concat_map (matmul t) (heads_of (Wq sa) (sa_h sa) k)
             (fun xi => map (transpose 0 k) (heads_of (Wk sa) (sa_h sa) k xi)))
    by (intros; now rewrite length_map, !heads_of_length).
  rewrite !concat_map, !map_map. reflexivity.
Qed.

Lemma SelfAttention_forward_map sa b t k x :
  length x = b ->
  SelfAttention_forward sa b t k x = map (SelfAttention_example sa t k) x.
Proof.
  intros Hb. unfold SelfAttention_forward. cbv zeta.
  change (F_softmax_last
            (tensor_div
               (bmm t (fold_heads (sa_h sa) (view_heads (sa_h sa) k (Linear_forward (Wq sa) x)))
                  (transpose_1_2 0 k
                     (fold_heads (sa_h sa) (view_heads (sa_h sa) k (Linear_forward (Wk sa) x)))))
               (sqrt (INR k))))
    with (SelfAttention_w sa t k x).
  rewrite SelfAttention_w_concat, fold_heads_view.
  unfold bmm at 1.
  rewrite (zip_with_concat_map (matmul k) (SelfAttention_w_example sa t k)
             (heads_of (Wv sa) (sa_h sa) k))
    by (intros; now rewrite SelfAttention_w_example_length, heads_of_length).
  rewrite <- Hb, <- (length_map (fun xi => zip_with (matmul k)
      (SelfAttention_w_example sa t k xi) (heads_of (Wv sa) (sa_h sa) k xi)) x).
  rewrite chunks_concat.
  - unfold Linear_forward, transpose_1_2. rewrite !map_map. reflexivity.
  - apply Forall_forall. intros l Hl. apply in_map_iff in Hl as (xi & <- & _).
    rewrite zip_with_length, SelfAttention_w_example_length, heads_of_length. lia.
Qed.

(** ** Shapes of the primitives *)

Lemma Linear_apply_length i o b l v :
  Linear_init i o b l -> length (Linear_apply l v) = o.
Proof.
  intros [[Hw _] Hb]. unfold Linear_apply, vadd.
  destruct (bias l) as [bv|].
  - destruct Hb as [_ Hb]. rewrite zip_with_length, length_map. lia.
  - now rewrite length_map.
Qed.

Lemma chunks_length {A} n k (l : list A) : length (chunks n k l) = n.
Proof. revert l; induction n; intros l; simpl; auto. Qed.

Lemma chunks_nth_length {A} n k (l : list A) j :
  length l = (n * k)%nat -> (j < n)%nat -> length (nth j (chunks n k l) []) = k.
Proof.
  revert l j; induction n as [|n IH]; intros l j Hl Hj; [lia|].
  simpl. destruct j as [|j].
  - rewrite length_firstn. simpl in Hl. lia.
  - apply IH; [|lia]. rewrite length_skipn. simpl in Hl. lia.
Qed.

Lemma nth_map_default {A B} (f : A -> B) l j d d' :
  (j < length l)%nat -> nth j (map f l) d' = f (nth j l d).
Proof.
  intros Hj. rewrite (nth_indep _ d' (f d)) by now rewrite length_map.
  apply map_nth.
Qed.

Lemma heads_of_shape W h k t xi :
  Linear_init k (k * h) false W -> length xi = t ->
  shape3 h t k (heads_of W h k xi).
Proof.
  intros HW Ht. split; [apply heads_of_length|].
  unfold heads_of, transpose. apply Forall_forall. intros m Hm.
  apply in_map_iff in Hm as (j & <- & Hj). apply in_seq in Hj.
  split; [now rewrite !length_map|].
  apply Forall_forall. intros r Hr. rewrite map_map in Hr.
  apply in_map_iff in Hr as (p & <- & _).
  apply chunks_nth_length; [|lia].
  rewrite (Linear_apply_length _ _ _ _ _ HW). lia.
Qed.

Lemma nth_column (m : mat) j d :
  nth j (column d m) 0 = nth d (nth j m []) 0.
Proof.
  unfold column.
  rewrite <- (map_nth (fun row : list R => nth d row 0) m [] j).
  f_equal. now destruct d.
Qed.

Lemma column_transpose (k : nat) (m : mat) j :
  length (nth j m []) = k -> column j (transpose 0 k m) = nth j m [].
Proof.
  intros Hk. unfold column at 1. unfold transpose. rewrite map_map.
  transitivity (map (fun d => nth d (nth j m []) 0) (seq 0 k)).
  - apply map_ext. intros d. apply nth_column.
  - rewrite <- Hk. apply map_nth_seq_id.
Qed.

Section ZipLemmas.
Context {A B C : Type}.

Lemma zip_with_map_r {B'} (f : A -> B -> C) (g : B' -> B) l l' :
  zip_with f l (map g l') = zip_with (fun a b => f a (g b)) l l'.
Proof. revert l'; induction l; intros [|b l']; simpl; auto. f_equal; auto. Qed.

Lemma map_zip_with {D} (h : C -> D) (f : A -> B -> C) l l' :
  map h (zip_with f l l') = zip_with (fun a b => h (f a b)) l l'.
Proof. revert l'; induction l; intros [|b l']; simpl; auto. f_equal; auto. Qed.

Lemma zip_with_ext_in (f g : A -> B -> C) l l' :
  (forall a b, In a l -> In b l' -> f a b = g a b) ->
  zip_with f l l' = zip_with g l l'.
Proof.
  revert l'; induction l as [|a l IH]; intros [|b l'] H; simpl; auto.
  f_equal; [apply H; now left | apply IH].
  intros; apply H; now right.
Qed.

Lemma Forall_zip_with (P : C -> Prop) (f : A -> B -> C) l l' :
  (forall a b, In a l -> In b l' -> P (f a b)) -> Forall P (zip_with f l l').
Proof.
  revert l'; induction l as [|a l IH]; intros [|b l'] H; simpl; auto.
  constructor; [apply H; now left | apply IH].
  intros; apply H; now right.
Qed.
End ZipLemmas.

Lemma length_concat_const {A} (h : nat) (ls : list (list A)) :
  Forall (fun l => length l = h) ls -> length (concat ls) = (length ls * h)%nat.
Proof.
  induction 1 as [|l ls Hl _ IH]; simpl; auto.
  rewrite length_app, IH. lia.
Qed.

Lemma shape3_concat_map {X} (F : X -> list (list (list R))) h t k (l : list X) b :
  length l = b -> (forall x, In x l -> shape3 h t k (F x)) ->
  shape3 (b * h) t k (concat (map F l)).
Proof.
  intros Hb HF. split.
  - rewrite (length_concat_const h), length_map; [now rewrite Hb|].
    apply Forall_forall. intros m Hm. apply in_map_iff in Hm as (x & <- & Hx).
    apply HF, Hx.
  - apply Forall_concat, Forall_forall. intros m Hm.
    apply in_map_iff in Hm as (x & <- & Hx). apply HF, Hx.
Qed.

Lemma shape3_in b t k (x : tensor3) xi : shape3 b t k x -> In xi x -> shape2 t k xi.
Proof. intros [_ H] Hin. rewrite Forall_forall in H. now apply H. Qed.

Lemma shape2_in {A} t k (m : list (list A)) r : shape2 t k m -> In r m -> length r = k.
Proof. intros [_ H] Hin. rewrite Forall_forall in H. now apply H. Qed.

Lemma SelfAttention_projection_shape W sa b t k h x :
  sa_h sa = h -> Linear_init k (k * h) false W -> shape3 b t k x ->
  shape3 (b * h) t k (fold_heads (sa_h sa) (view_heads (sa_h sa) k (Linear_forward W x))).
Proof.
  intros Hh HW Hx. rewrite fold_heads_view, Hh.
  apply shape3_concat_map; [apply Hx|].
  intros xi Hxi. apply heads_of_shape; [exact HW|].
  apply (shape3_in _ _ _ _ _ Hx Hxi).
Qed.

(** ** Raw scores and softmax *)

Lemma matmul_transpose t k (q kk : mat) :
  shape2 t k kk ->
  matmul t q (transpose 0 k kk) = map (fun qi => map (fun kj => dot qi kj) kk) q.
Proof.
  intros [Ht Hk]. unfold matmul. apply map_ext. intros qi.
  transitivity (map (fun kj => dot qi kj) (map (fun j => nth j kk []) (seq 0 t))).
  - rewrite map_map. apply map_ext_in. intros j Hj. apply in_seq in Hj.
    rewrite column_transpose; [reflexivity|].
    rewrite Forall_forall in Hk. apply Hk, nth_In. lia.
  - now rewrite <- Ht, map_nth_seq_id.
Qed.

Lemma scores_as_scaled_dot_products t k (q kk : tensor3) :
  Forall (shape2 t k) kk ->
  tensor_div (bmm t q (transpose_1_2 0 k kk)) (sqrt (INR k))
  = zip_with (scaled_dot_product_scores k) q kk.
Proof.
  intros Hk. unfold tensor_div, bmm, transpose_1_2.
  rewrite zip_with_map_r, map_zip_with.
  apply zip_with_ext_in. intros qm km _ Hkm.
  rewrite Forall_forall in Hk.
  rewrite (matmul_transpose t k) by now apply Hk.
  unfold scaled_dot_product_scores. rewrite map_map.
  apply map_ext. intros qi. now rewrite map_map.
Qed.

Lemma rsum_exp_pos (v : vec) : v <> [] -> 0 < rsum (map exp v).
Proof.
  destruct v as [|s v]; [congruence|]. intros _. simpl.
  assert (H : 0 <= rsum (map exp v)).
  { induction v as [|a v IH]; simpl; [lra|]. pose proof (exp_pos a). lra. }
  pose proof (exp_pos s). lra.
Qed.

Lemma rsum_map_scale (c : R) (f : R -> R) (v : vec) :
  rsum (map (fun s => f s * c) v) = rsum (map f v) * c.
Proof. induction v as [|a v IH]; simpl; [lra|]. rewrite IH. lra. Qed.

Lemma softmax_shift (m : R) (v : vec) :
  softmax v = map (fun s => exp (s - m) / rsum (map (fun s => exp (s - m)) v)) v.
Proof.
  unfold softmax. apply map_ext_in. intros s Hs.
  assert (Hne : v <> []) by (intros ->; inversion Hs).
  pose proof (rsum_exp_pos v Hne) as Hz.
  assert (Hexp : forall a, exp (a - m) = exp a * exp (- m)).
  { intros a. unfold Rminus. apply exp_plus. }
  rewrite (map_ext _ (fun a => exp a * exp (- m)) Hexp), rsum_map_scale, Hexp.
  pose proof (exp_pos (- m)). field. split; lra.
Qed.

Lemma softmax_is_stable (v : vec) : softmax v = stable_softmax v.
Proof. apply softmax_shift. Qed.

Lemma SelfAttention_w_prime_scaled sa b t k h x :
  SelfAttention_init k h sa ->
  shape3 b t k x ->
  SelfAttention_w_prime sa t k x
  = zip_with (scaled_dot_product_scores k)
      (SelfAttention_queries sa k x) (SelfAttention_keys sa k x).
Proof.
  intros (_ & Hh & _ & HWk & _ & _) Hx.
  apply scores_as_scaled_dot_products.
  now apply (SelfAttention_projection_shape (Wk sa) sa b t k h x Hh HWk).
Qed.

Lemma SelfAttention_w_prime_shape sa b t k h x :
  SelfAttention_init k h sa ->
  shape3 b t k x ->
  shape3 (b * h) t t (SelfAttention_w_prime sa t k x).
Proof.
  intros Hsa Hx. rewrite (SelfAttention_w_prime_scaled sa b t k h x Hsa Hx).
  destruct Hsa as (_ & Hh & HWq & HWk & _ & _).
  pose proof (SelfAttention_projection_shape (Wq sa) sa b t k h x Hh HWq Hx) as Hq.
  pose proof (SelfAttention_projection_shape (Wk sa) sa b t k h x Hh HWk Hx) as Hk.
  fold (SelfAttention_queries sa k x) in Hq. fold (SelfAttention_keys sa k x) in Hk.
  split.
  - rewrite zip_with_length. destruct Hq as [-> _], Hk as [-> _]. lia.
  - apply Forall_zip_with. intros q kk Hq' Hk'.
    unfold scaled_dot_product_scores. split.
    + rewrite length_map. apply (shape3_in _ _ _ _ _ Hq Hq').
    + apply Forall_forall. intros r Hr. apply in_map_iff in Hr as (qi & <- & _).
      rewrite length_map. apply (shape3_in _ _ _ _ _ Hk Hk').
Qed.

Lemma sample_attention_init : SelfAttention_init 1 2 sample_attention.
Proof.
  unfold SelfAttention_init, Linear_init, shape2. simpl.
  repeat split; repeat constructor.
Qed.

Lemma sample_input_shape : shape3 1 2 1 sample_input.
Proof. unfold shape3, shape2. simpl. repeat split; repeat constructor. Qed.

(** C1.  In [SelfAttention.forward], on an input of shape [[b, t, k]], the
    raw scores are, per folded head-batch element, the inner products of the
    queries with the keys divided by [sqrt k], of shape [[b*h, t, t]]; the
    attention weights are the max-subtracted (numerically stable) softmax of
    every row of the scores; and these weights are the ones the output is
    computed from. *)
Theorem SelfAttention_scores_and_stable_softmax sa b t k h x :
  SelfAttention_init k h sa ->
  shape3 b t k x ->
  let queries := SelfAttention_queries sa k x in
  let keys := SelfAttention_keys sa k x in
  let scores := SelfAttention_w_prime sa t k x in
  let w := SelfAttention_w sa t k x in
  shape3 (b * h) t k queries /\
  shape3 (b * h) t k keys /\
  scores = zip_with (scaled_dot_product_scores k) queries keys /\
  shape3 (b * h) t t scores /\
  w = map (map stable_softmax) scores /\
  SelfAttention_forward sa b t k x
  = Linear_forward (unifyheads sa)
      (map (map (@concat R))
         (transpose_1_2 [] t
            (chunks b (sa_h sa) (bmm k w (SelfAttention_values sa k x))))).
Proof.
  intros Hsa Hx. cbv zeta.
  pose proof (SelfAttention_w_prime_scaled sa b t k h x Hsa Hx) as Hs.
  pose proof (SelfAttention_w_prime_shape sa b t k h x Hsa Hx) as Hshape.
  destruct Hsa as (_ & Hh & HWq & HWk & _ & _).
  split; [now apply SelfAttention_projection_shape|].
  split; [now apply SelfAttention_projection_shape|].
  split; [exact Hs|]. split; [exact Hshape|]. split; [|reflexivity].
  unfold SelfAttention_w, F_softmax_last.
  apply map_ext. intros m. apply map_ext. intros r. apply softmax_is_stable.
Qed.

Lemma SelfAttention_scores_and_stable_softmax_witness :
  SelfAttention_init 1 2 sample_attention /\
  shape3 1 2 1 sample_input /\
  SelfAttention_w sample_attention 2 1 sample_input
  = map (map stable_softmax) (SelfAttention_w_prime sample_attention 2 1 sample_input).
Proof.
  split; [exact sample_attention_init|]. split; [exact sample_input_shape|].
  exact (proj1 (proj2 (proj2 (proj2 (proj2
    (SelfAttention_scores_and_stable_softmax sample_attention 1 2 1 2 sample_input
       sample_attention_init sample_input_shape)))))).
Defined.

(** ** Row-stochastic attention weights *)

Lemma exp_le_rsum_exp (v : vec) s : In s v -> exp s <= rsum (map exp v).
Proof.
  induction v as [|a v IH]; simpl; [tauto|].
  assert (Hnn : 0 <= rsum (map exp v)).
  { clear. induction v as [|c v IH]; simpl; [lra|]. pose proof (exp_pos c). lra. }
  intros [->|Hin].
  - lra.
  - pose proof (exp_pos a). specialize (IH Hin). lra.
Qed.

Lemma softmax_entries (v : vec) : Forall (fun p => 0 <= p <= 1) (softmax v).
Proof.
  unfold softmax. apply Forall_forall. intros p Hp.
  apply in_map_iff in Hp as (s & <- & Hs).
  assert (Hne : v <> []) by (intros ->; inversion Hs).
  pose proof (rsum_exp_pos v Hne) as Hz.
  pose proof (exp_pos s) as Hs0. pose proof (exp_le_rsum_exp v s Hs) as Hle.
  split.
  - apply Rlt_le, Rdiv_lt_0_compat; assumption.
  - apply (Rmult_le_reg_r (rsum (map exp v))); [assumption|].
    unfold Rdiv. rewrite Rmult_assoc, Rinv_l by lra. lra.
Qed.

Lemma softmax_sum (v : vec) : v <> [] -> rsum (softmax v) = 1.
Proof.
  intros Hne. unfold softmax, Rdiv.
  rewrite (rsum_map_scale (/ rsum (map exp v)) exp v).
  pose proof (rsum_exp_pos v Hne). apply Rinv_r. lra.
Qed.

(** C4.  On an input of shape [[b, t, k]] the attention weight tensor has
    shape [[b*h, t, t]] and every one of its rows is a probability vector:
    all entries lie in [[0, 1]] and the row sums to 1 (exactly, in real
    arithmetic). *)
Theorem SelfAttention_weights_row_stochastic sa b t k h x :
  SelfAttention_init k h sa ->
  shape3 b t k x ->
  shape3 (b * h) t t (SelfAttention_w sa t k x) /\
  forall m row,
    In m (SelfAttention_w sa t k x) -> In row m ->
    Forall (fun p => 0 <= p <= 1) row /\ rsum row = 1.
Proof.
  intros Hsa Hx.
  pose proof (SelfAttention_w_prime_shape sa b t k h x Hsa Hx) as [Hlen Hrows].
  unfold SelfAttention_w, F_softmax_last. split.
  - split; [now rewrite length_map|].
    apply Forall_forall. intros m Hm. apply in_map_iff in Hm as (m' & <- & Hm').
    rewrite Forall_forall in Hrows. destruct (Hrows m' Hm') as [Ht Hr].
    split; [now rewrite length_map|].
    apply Forall_forall. intros r Hr'. apply in_map_iff in Hr' as (r' & <- & Hr'').
    unfold softmax. rewrite length_map. rewrite Forall_forall in Hr. now apply Hr.
  - intros m row Hm Hrow.
    apply in_map_iff in Hm as (m' & <- & Hm').
    apply in_map_iff in Hrow as (r' & <- & Hr').
    split; [apply softmax_entries|]. apply softmax_sum.
    rewrite Forall_forall in Hrows. destruct (Hrows m' Hm') as [Ht Hr].
    rewrite Forall_forall in Hr. specialize (Hr r' Hr').
    intros ->. simpl in Hr. subst t.
    destruct m'; [inversion Hr'|discriminate].
Qed.

Lemma SelfAttention_weights_row_stochastic_witness :
  SelfAttention_init 1 2 sample_attention /\
  shape3 1 2 1 sample_input /\
  shape3 (1 * 2) 2 2 (SelfAttention_w sample_attention 2 1 sample_input).
Proof.
  split; [exact sample_attention_init|]. split; [exact sample_input_shape|].
  exact (proj1 (SelfAttention_weights_row_stochastic sample_attention 1 2 1 2
                  sample_input sample_attention_init sample_input_shape)).
Defined.

(** ** A single position *)

Lemma concat_chunks {A} n k (l : list A) :
  length l = (n * k)%nat -> concat (chunks n k l) = l.
Proof.
  revert l; induction n as [|n IH]; intros l Hl; simpl in *.
  - destruct l; [reflexivity|discriminate].
  - rewrite IH; [apply firstn_skipn|]. rewrite length_skipn. lia.
Qed.

Lemma softmax_singleton (s : R) : softmax [s] = [1].
Proof.
  unfold softmax. simpl. f_equal. pose proof (exp_pos s). field. lra.
Qed.

Lemma heads_of_single W h k p :
  heads_of W h k [p] = map (fun j => [nth j (chunks h k (Linear_apply W p)) []]) (seq 0 h).
Proof. reflexivity. Qed.

Lemma SelfAttention_w_example_single sa k p :
  SelfAttention_w_example sa 1 k [p] = map (fun _ => [[1]]) (seq 0 (sa_h sa)).
Proof.
  unfold SelfAttention_w_example, F_softmax_last, tensor_div, bmm, transpose_1_2.
  rewrite !heads_of_single.
  rewrite (map_map _ (transpose 0 k)), zip_with_map_same, !map_map.
  apply map_ext. intros j. simpl. now rewrite softmax_singleton.
Qed.

Lemma matmul_one_row k (v : vec) : length v = k -> matmul k [[1]] [v] = [v].
Proof.
  intros Hk. unfold matmul. simpl. f_equal.
  transitivity (map (fun d => nth d v 0) (seq 0 k)).
  - apply map_ext. intros d. unfold dot. simpl. lra.
  - rewrite <- Hk. apply map_nth_seq_id.
Qed.

Lemma SelfAttention_example_single sa k h p :
  SelfAttention_init k h sa ->
  SelfAttention_example sa 1 k [p]
  = [Linear_apply (unifyheads sa) (Linear_apply (Wv sa) p)].
Proof.
  intros (_ & Hh & _ & _ & HWv & _). unfold SelfAttention_example.
  rewrite SelfAttention_w_example_single, heads_of_single.
  unfold bmm. rewrite zip_with_map_same.
  pose proof (Linear_apply_length _ _ _ _ p HWv) as Hlen.
  rewrite (map_ext_in _ (fun j => [nth j (chunks (sa_h sa) k (Linear_apply (Wv sa) p)) []])).
  - unfold transpose. simpl. rewrite map_map. simpl.
    rewrite <- (chunks_length (sa_h sa) k (Linear_apply (Wv sa) p)) at 1.
    rewrite map_nth_seq_id, concat_chunks; [reflexivity|].
    rewrite Hlen, Hh. lia.
  - intros j Hj. apply in_seq in Hj. apply matmul_one_row.
    apply chunks_nth_length; [|lia]. rewrite Hlen, Hh. lia.
Qed.

(** C6.  On an input of shape [[b, 1, k]] every attention matrix is the
    1-by-1 matrix [[1]], and [SelfAttention.forward] returns the value
    projection of the single position passed through the unify-heads
    projection. *)
Theorem SelfAttention_single_position sa b k h x :
  SelfAttention_init k h sa ->
  shape3 b 1 k x ->
  SelfAttention_w sa 1 k x = repeat [[1]] (b * h) /\
  SelfAttention_forward sa b 1 k x
  = Linear_forward (unifyheads sa) (Linear_forward (Wv sa) x).
Proof.
  intros Hsa [Hb Hx]. rewrite Forall_forall in Hx.
  assert (Hsingle : forall xi, In xi x -> exists p, xi = [p]).
  { intros xi Hxi. destruct (Hx xi Hxi) as [Hlen _].
    destruct xi as [|p [|q xi]]; try discriminate. now exists p. }
  split.
  - rewrite SelfAttention_w_concat.
    destruct Hsa as (_ & Hh & _). subst b. clear Hx.
    induction x as [|xi x IH]; [reflexivity|]. simpl.
    destruct (Hsingle xi (or_introl eq_refl)) as [p ->].
    rewrite SelfAttention_w_example_single, IH, Hh, repeat_app
      by (intros; apply Hsingle; now right).
    f_equal. clear. generalize 0%nat.
    induction h as [|h IH]; intros n; simpl; [reflexivity|]. now rewrite IH.
  - rewrite (SelfAttention_forward_map sa b 1 k x Hb).
    unfold Linear_forward. rewrite map_map. apply map_ext_in. intros xi Hxi.
    destruct (Hsingle xi Hxi) as [p ->].
    now rewrite (SelfAttention_example_single sa k h p Hsa).
Qed.

Lemma sample_single_input_shape : shape3 1 1 1 sample_single_input.
Proof. unfold shape3, shape2. simpl. repeat split; repeat constructor. Qed.

Lemma SelfAttention_single_position_witness :
  SelfAttention_init 1 2 sample_attention /\
  shape3 1 1 1 sample_single_input /\
  SelfAttention_forward sample_attention 1 1 1 sample_single_input
  = Linear_forward (unifyheads sample_attention)
      (Linear_forward (Wv sample_attention) sample_single_input).
Proof.
  split; [exact sample_attention_init|]. split; [exact sample_single_input_shape|].
  exact (proj2 (SelfAttention_single_position sample_attention 1 1 2
                  sample_single_input sample_attention_init sample_single_input_shape)).
Defined.

(** ** Reordering the positions *)

Lemma rsum_Permutation (l l' : vec) : Permutation l l' -> rsum l = rsum l'.
Proof. induction 1; simpl; lra. Qed.

Lemma permute_map {A B} (f : A -> B) d sigma l :
  map f (permute d sigma l) = permute (f d) sigma (map f l).
Proof.
  unfold permute. rewrite map_map. apply map_ext. intros i.
  symmetry. apply map_nth.
Qed.

Section Reordering.
Variable t : nat.
Variable sigma : list nat.
Hypothesis Hsigma : Permutation sigma (seq 0 t).

Lemma sigma_lt i : In i sigma -> (i < t)%nat.
Proof.
  intros Hi. apply (Permutation_in _ Hsigma) in Hi. apply in_seq in Hi. lia.
Qed.

Lemma sigma_length : length sigma = t.
Proof. rewrite (Permutation_length Hsigma). apply length_seq. Qed.

Lemma permute_length {A} (d : A) l : length (permute d sigma l) = t.
Proof. unfold permute. rewrite length_map. apply sigma_length. Qed.

Lemma permute_default {A} (d d' : A) l :
  length l = t -> permute d sigma l = permute d' sigma l.
Proof.
  intros Hl. unfold permute. apply map_ext_in. intros i Hi.
  apply nth_indep. rewrite Hl. now apply sigma_lt.
Qed.

Lemma permute_map_len {A B} (f : A -> B) d d' l :
  length l = t -> map f (permute d sigma l) = permute d' sigma (map f l).
Proof.
  intros Hl. rewrite permute_map. apply permute_default. now rewrite length_map.
Qed.

Lemma permute_Permutation {A} (d : A) l :
  length l = t -> Permutation (permute d sigma l) l.
Proof.
  intros Hl. unfold permute.
  pose proof (Permutation_map (fun i => nth i l d) Hsigma) as HP.
  now rewrite <- Hl, map_nth_seq_id in HP.
Qed.

Lemma permute_seq_nth {A} (f : nat -> A) d :
  permute d sigma (map f (seq 0 t)) = map f sigma.
Proof.
  unfold permute. apply map_ext_in. intros i Hi. apply sigma_lt in Hi.
  rewrite (nth_map_default f (seq 0 t) i 0%nat d) by now rewrite length_seq.
  now rewrite seq_nth.
Qed.

Lemma map_nth_sigma {A} (f : nat -> A) :
  map (fun i => f (nth i sigma 0%nat)) (seq 0 t) = map f sigma.
Proof.
  rewrite <- (map_map (fun i => nth i sigma 0%nat) f).
  now rewrite <- sigma_length, map_nth_seq_id.
Qed.

Lemma nth_permute {A} (d : A) l i :
  (i < t)%nat -> nth i (permute d sigma l) d = nth (nth i sigma 0%nat) l d.
Proof.
  intros Hi. unfold permute.
  apply (nth_map_default (fun j => nth j l d) sigma i 0%nat d).
  now rewrite sigma_length.
Qed.

Lemma dot_permute (a b : vec) :
  length a = t -> length b = t ->
  dot (permute 0 sigma a) (permute 0 sigma b) = dot a b.
Proof.
  intros Ha Hb. unfold dot, permute.
  rewrite zip_with_map_same.
  rewrite (rsum_Permutation _ _ (Permutation_map _ Hsigma)).
  rewrite <- (zip_with_map_same Rmult (fun i => nth i a 0) (fun i => nth i b 0)).
  f_equal; f_equal; [rewrite <- Ha | rewrite <- Hb]; apply map_nth_seq_id.
Qed.

Lemma softmax_permute (r : vec) :
  length r = t -> softmax (permute 0 sigma r) = permute 0 sigma (softmax r).
Proof.
  intros Hr. unfold softmax.
  rewrite (rsum_Permutation _ _ (Permutation_map exp (permute_Permutation 0 r Hr))).
  now apply permute_map_len.
Qed.
End Reordering.

Lemma zip_with_map_l {A A' B C} (f : A -> B -> C) (g : A' -> A) l l' :
  zip_with f (map g l) l' = zip_with (fun a b => f (g a) b) l l'.
Proof. revert l'; induction l; intros [|b l']; simpl; auto. f_equal; auto. Qed.

Lemma scaled_dot_product_scores_shape k t (q kk : mat) :
  length q = t -> length kk = t -> shape2 t t (scaled_dot_product_scores k q kk).
Proof.
  intros Hq Hk. unfold scaled_dot_product_scores. split; [now rewrite length_map|].
  apply Forall_forall. intros r Hr. apply in_map_iff in Hr as (qi & <- & _).
  now rewrite length_map.
Qed.

Section ReorderingAttention.
Variable t : nat.
Variable sigma : list nat.
Hypothesis Hsigma : Permutation sigma (seq 0 t).

Lemma heads_of_permute W h k (xi : mat) :
  length xi = t ->
  heads_of W h k (permute [] sigma xi) = map (permute [] sigma) (heads_of W h k xi).
Proof.
  intros Hxi. unfold heads_of, transpose. rewrite map_map.
  apply map_ext. intros j. rewrite !map_map.
  now apply (permute_map_len t sigma Hsigma).
Qed.

Lemma scaled_dot_product_scores_permute k (q kk : mat) :
  length q = t -> length kk = t ->
  scaled_dot_product_scores k (permute [] sigma q) (permute [] sigma kk)
  = permute [] sigma (map (permute 0 sigma) (scaled_dot_product_scores k q kk)).
Proof.
  intros Hq Hk. unfold scaled_dot_product_scores.
  rewrite (permute_map_len t sigma Hsigma _ [] [] q Hq). f_equal.
  rewrite map_map. apply map_ext. intros qi.
  now apply (permute_map_len t sigma Hsigma).
Qed.

Lemma softmax_rows_permute (s : mat) :
  shape2 t t s ->
  map softmax (permute [] sigma (map (permute 0 sigma) s))
  = permute [] sigma (map (permute 0 sigma) (map softmax s)).
Proof.
  intros [Hlen Hrows].
  rewrite (permute_map_len t sigma Hsigma softmax [] [])
    by now rewrite length_map.
  f_equal. rewrite !map_map. apply map_ext_in. intros r Hr.
  apply (softmax_permute t sigma Hsigma).
  rewrite Forall_forall in Hrows. now apply Hrows.
Qed.

Lemma matmul_permute k (w v : mat) :
  shape2 t t w -> length v = t ->
  matmul k (permute [] sigma (map (permute 0 sigma) w)) (permute [] sigma v)
  = permute [] sigma (matmul k w v).
Proof.
  intros [Hlen Hrows] Hv. unfold matmul.
  rewrite (permute_map_len t sigma Hsigma _ [] [])
    by now rewrite length_map.
  f_equal. rewrite map_map. apply map_ext_in. intros r Hr.
  apply map_ext. intros d.
  assert (Hcol : column d (permute [] sigma v) = permute 0 sigma (column d v)).
  { unfold column. now apply (permute_map_len t sigma Hsigma). }
  rewrite Hcol. apply (dot_permute t sigma Hsigma).
  - rewrite Forall_forall in Hrows. now apply Hrows.
  - unfold column. now rewrite length_map.
Qed.

Lemma transpose_permute (o : tensor3) :
  transpose [] t (map (permute [] sigma) o) = permute [] sigma (transpose [] t o).
Proof.
  unfold transpose at 2. rewrite (permute_seq_nth t sigma Hsigma).
  rewrite <- (map_nth_sigma t sigma Hsigma). unfold transpose.
  apply map_ext_in. intros i Hi. apply in_seq in Hi.
  rewrite map_map. apply map_ext. intros m.
  apply (nth_permute t sigma Hsigma). lia.
Qed.
End ReorderingAttention.

Lemma SelfAttention_w_example_scaled sa t k h xi :
  SelfAttention_init k h sa -> length xi = t ->
  SelfAttention_w_example sa t k xi
  = map (map softmax)
      (zip_with (scaled_dot_product_scores k)
         (heads_of (Wq sa) (sa_h sa) k xi) (heads_of (Wk sa) (sa_h sa) k xi)).
Proof.
  intros (_ & Hh & _ & HWk & _ & _) Hxi. unfold SelfAttention_w_example.
  rewrite (scores_as_scaled_dot_products t k); [reflexivity|].
  rewrite Hh. apply (heads_of_shape (Wk sa) h k t xi HWk Hxi).
Qed.

Lemma SelfAttention_w_example_shape sa t k h xi :
  SelfAttention_init k h sa -> length xi = t ->
  Forall (shape2 t t) (SelfAttention_w_example sa t k xi).
Proof.
  intros Hsa Hxi. rewrite (SelfAttention_w_example_scaled sa t k h xi Hsa Hxi).
  destruct Hsa as (_ & Hh & HWq & HWk & _ & _). rewrite Hh.
  pose proof (heads_of_shape (Wq sa) h k t xi HWq Hxi) as HQ.
  pose proof (heads_of_shape (Wk sa) h k t xi HWk Hxi) as HK.
  rewrite map_zip_with. apply Forall_zip_with. intros q kk Hq Hkk.
  destruct (scaled_dot_product_scores_shape k t q kk) as [Hl Hr].
  - apply (shape3_in _ _ _ _ _ HQ Hq).
  - apply (shape3_in _ _ _ _ _ HK Hkk).
  - split; [now rewrite length_map|].
    apply Forall_forall. intros r Hr'. apply in_map_iff in Hr' as (r' & <- & Hr'').
    unfold softmax. rewrite length_map. rewrite Forall_forall in Hr. now apply Hr.
Qed.

Lemma SelfAttention_w_example_permute sa t k h sigma xi :
  SelfAttention_init k h sa ->
  Permutation sigma (seq 0 t) ->
  length xi = t ->
  SelfAttention_w_example sa t k (permute [] sigma xi)
  = map (fun m => permute [] sigma (map (permute 0 sigma) m))
      (SelfAttention_w_example sa t k xi).
Proof.
  intros Hsa Hsigma Hxi.
  rewrite (SelfAttention_w_example_scaled sa t k h _ Hsa
             (permute_length t sigma Hsigma [] xi)).
  rewrite (SelfAttention_w_example_scaled sa t k h xi Hsa Hxi).
  rewrite !(heads_of_permute t sigma Hsigma) by assumption.
  destruct Hsa as (_ & Hh & HWq & HWk & _ & _).
  pose proof (heads_of_shape (Wq sa) h k t xi HWq Hxi) as HQ.
  pose proof (heads_of_shape (Wk sa) h k t xi HWk Hxi) as HK.
  rewrite Hh. rewrite zip_with_map_l, zip_with_map_r, map_map, !map_zip_with.
  apply zip_with_ext_in. intros q kk Hq Hkk.
  pose proof (shape3_in _ _ _ _ _ HQ Hq) as [Hql _].
  pose proof (shape3_in _ _ _ _ _ HK Hkk) as [Hkl _].
  rewrite (scaled_dot_product_scores_permute t sigma Hsigma k q kk Hql Hkl).
  apply (softmax_rows_permute t sigma Hsigma).
  now apply scaled_dot_product_scores_shape.
Qed.

Lemma SelfAttention_example_permute sa t k h sigma xi :
  SelfAttention_init k h sa ->
  Permutation sigma (seq 0 t) ->
  length xi = t ->
  SelfAttention_example sa t k (permute [] sigma xi)
  = permute [] sigma (SelfAttention_example sa t k xi).
Proof.
  intros Hsa Hsigma Hxi. unfold SelfAttention_example.
  rewrite (SelfAttention_w_example_permute sa t k h sigma xi Hsa Hsigma Hxi).
  rewrite (heads_of_permute t sigma Hsigma) by assumption.
  pose proof (SelfAttention_w_example_shape sa t k h xi Hsa Hxi) as HW.
  destruct Hsa as (_ & Hh & _ & _ & HWv & _).
  pose proof (heads_of_shape (Wv sa) h k t xi HWv Hxi) as HV. rewrite Hh in *.
  assert (Hbmm :
    bmm k (map (fun m => permute [] sigma (map (permute 0 sigma) m))
             (SelfAttention_w_example sa t k xi))
          (map (permute [] sigma) (heads_of (Wv sa) h k xi))
    = map (permute [] sigma)
        (bmm k (SelfAttention_w_example sa t k xi) (heads_of (Wv sa) h k xi))).
  { unfold bmm. rewrite zip_with_map_l, zip_with_map_r, map_zip_with.
    apply zip_with_ext_in. intros w v Hw Hv.
    apply (matmul_permute t sigma Hsigma).
    - rewrite Forall_forall in HW. now apply HW.
    - apply (shape3_in _ _ _ _ _ HV Hv). }
  rewrite Hbmm, (transpose_permute t sigma Hsigma).
  rewrite (permute_map_len t sigma Hsigma (@concat R) [] [])
    by apply transpose_length.
  apply (permute_map_len t sigma Hsigma).
  now rewrite length_map, transpose_length.
Qed.

Lemma SelfAttention_commutes_with_permute sa b t k h sigma x :
  SelfAttention_init k h sa ->
  shape3 b t k x ->
  Permutation sigma (seq 0 t) ->
  let x' := map (permute [] sigma) x in
  shape3 b t k x' /\
  SelfAttention_w sa t k x'
  = map (fun m => permute [] sigma (map (permute 0 sigma) m))
      (SelfAttention_w sa t k x) /\
  SelfAttention_forward sa b t k x'
  = map (permute [] sigma) (SelfAttention_forward sa b t k x).
Proof.
  intros Hsa Hx Hsigma. cbv zeta.
  assert (Hlen : forall xi, In xi x -> length xi = t).
  { intros xi Hxi. apply (shape3_in _ _ _ _ _ Hx Hxi). }
  split; [|split].
  - destruct Hx as [Hb Hrows]. split; [now rewrite length_map|].
    apply Forall_forall. intros m Hm. apply in_map_iff in Hm as (xi & <- & Hxi).
    split; [apply (permute_length t sigma Hsigma)|].
    apply Forall_forall. intros r Hr. unfold permute in Hr.
    apply in_map_iff in Hr as (i & <- & Hi).
    rewrite Forall_forall in Hrows. destruct (Hrows xi Hxi) as [Hxl Hxr].
    rewrite Forall_forall in Hxr. apply Hxr, nth_In.
    rewrite Hxl. now apply (sigma_lt t sigma Hsigma).
  - rewrite !SelfAttention_w_concat, concat_map, !map_map. f_equal.
    apply map_ext_in. intros xi Hxi.
    apply (SelfAttention_w_example_permute sa t k h sigma xi Hsa Hsigma (Hlen xi Hxi)).
  - destruct Hx as [Hb _].
    rewrite (SelfAttention_forward_map sa b t k) by now rewrite length_map.
    rewrite (SelfAttention_forward_map sa b t k x Hb), !map_map.
    apply map_ext_in. intros xi Hxi.
    apply (SelfAttention_example_permute sa t k h sigma xi Hsa Hsigma (Hlen xi Hxi)).
Qed.


Lemma exp_ratio_neq (a b c : R) :
  0 < a -> 0 < b -> a < c -> a / (a + (b + 0)) <> c / (c + (b + 0)).
Proof.
  intros Ha Hb Hac Heq.
  field_simplify_eq in Heq; [split; lra|nra].
Qed.

Lemma sample_weights_not_invariant :
  SelfAttention_w sample_attention 2 1 (map (permute [] [1; 0]%nat) sample_input)
  <> SelfAttention_w sample_attention 2 1 sample_input.
Proof.
  intros H.
  apply (f_equal (fun w => nth 0 (nth 0 (nth 0 w []) []) 0)) in H.
  cbv [SelfAttention_w SelfAttention_w_prime SelfAttention_queries SelfAttention_keys
       fold_heads view_heads Linear_forward Linear_apply transpose_1_2 transpose
       F_softmax_last tensor_div bmm matmul column dot rsum zip_with softmax
       sample_attention sample_input Wq Wk sa_h weight bias chunks firstn skipn
       map seq nth concat app fold_right permute] in H.
  change (INR 1) with 1 in H. rewrite sqrt_1 in H.
  replace (((2 * 1 + 0) * (2 * 1 + 0) + 0) / 1) with 4 in H by lra.
  replace (((2 * 1 + 0) * (1 * 1 + 0) + 0) / 1) with 2 in H by lra.
  replace (((1 * 1 + 0) * (1 * 1 + 0) + 0) / 1) with 1 in H by lra.
  replace (((1 * 1 + 0) * (2 * 1 + 0) + 0) / 1) with 2 in H by lra.
  symmetry in H. revert H.
  apply exp_ratio_neq; try apply exp_pos. apply exp_increasing. lra.
Qed.

Lemma sample_sigma_permutation : Permutation sample_sigma (seq 0 2).
Proof. apply perm_swap. Qed.

(** C7.  Self-attention is equivariant under a reordering [sigma] of the
    [t] positions of an input of shape [[b, t, k]]: on the reordered input
    each attention matrix is the original one with its rows and its columns
    reordered by [sigma], and the output sequence is the original output
    reordered by [sigma].  It is not invariant: there are a layer, an input
    and a reordering for which the attention weights do change. *)
Theorem SelfAttention_permutation_equivariant :
  (forall sa b t k h sigma x,
      SelfAttention_init k h sa ->
      shape3 b t k x ->
      Permutation sigma (seq 0 t) ->
      let x' := map (permute [] sigma) x in
      shape3 b t k x' /\
      SelfAttention_w sa t k x'
      = map (fun m => permute [] sigma (map (permute 0 sigma) m))
          (SelfAttention_w sa t k x) /\
      SelfAttention_forward sa b t k x'
      = map (permute [] sigma) (SelfAttention_forward sa b t k x)) /\
  (exists sa b t k h sigma x,
      SelfAttention_init k h sa /\ shape3 b t k x /\ Permutation sigma (seq 0 t) /\
      SelfAttention_w sa t k (map (permute [] sigma) x) <> SelfAttention_w sa t k x).
Proof.
  split.
  - exact SelfAttention_commutes_with_permute.
  - exists sample_attention, 1%nat, 2%nat, 1%nat, 2%nat, sample_sigma, sample_input.
    split; [exact sample_attention_init|]. split; [exact sample_input_shape|].
    split; [exact sample_sigma_permutation|]. exact sample_weights_not_invariant.
Qed.

Lemma SelfAttention_permutation_equivariant_witness :
  SelfAttention_init 1 2 sample_attention /\
  shape3 1 2 1 sample_input /\
  Permutation sample_sigma (seq 0 2) /\
  SelfAttention_forward sample_attention 1 2 1 (map (permute [] sample_sigma) sample_input)
  = map (permute [] sample_sigma) (SelfAttention_forward sample_attention 1 2 1 sample_input).
Proof.
  split; [exact sample_attention_init|]. split; [exact sample_input_shape|].
  split; [exact sample_sigma_permutation|].
  exact (proj2 (proj2 (proj1 SelfAttention_permutation_equivariant
    sample_attention 1%nat 2%nat 1%nat 2%nat sample_sigma sample_input
    sample_attention_init sample_input_shape sample_sigma_permutation))).
Defined.

(** ** The transformer block *)

Lemma shape3_map_rows (f : list R -> list R) b t k k' (x : tensor3) :
  shape3 b t k' x -> (forall v, length (f v) = k) -> shape3 b t k (map (map f) x).
Proof.
  intros [Hb Hrows] Hf. split; [now rewrite length_map|].
  apply Forall_forall. intros m Hm. apply in_map_iff in Hm as (xi & <- & Hxi).
  rewrite Forall_forall in Hrows. destruct (Hrows xi Hxi) as [Ht _].
  split; [now rewrite length_map|].
  apply Forall_forall. intros r Hr. apply in_map_iff in Hr as (v & <- & _). apply Hf.
Qed.

Lemma tensor_add_shape b t k (x y : tensor3) :
  shape3 b t k x -> shape3 b t k y -> shape3 b t k (tensor_add x y).
Proof.
  intros Hx Hy. unfold tensor_add. split.
  - rewrite zip_with_length. destruct Hx as [-> _], Hy as [-> _]. lia.
  - apply Forall_zip_with. intros xi yi Hxi Hyi.
    pose proof (shape3_in _ _ _ _ _ Hx Hxi) as Hxs.
    pose proof (shape3_in _ _ _ _ _ Hy Hyi) as Hys. split.
    + rewrite zip_with_length. destruct Hxs as [-> _], Hys as [-> _]. lia.
    + apply Forall_zip_with. intros u v Hu Hv. unfold vadd.
      rewrite zip_with_length, (shape2_in _ _ _ _ Hxs Hu), (shape2_in _ _ _ _ Hys Hv).
      lia.
Qed.

Lemma LayerNorm_apply_length k ln v :
  LayerNorm_init k ln -> length v = k -> length (LayerNorm_apply ln v) = k.
Proof.
  intros (_ & _ & Hw & Hb) Hv. unfold LayerNorm_apply, vadd.
  rewrite !zip_with_length, length_map. lia.
Qed.

Lemma LayerNorm_forward_shape b t k ln (x : tensor3) :
  LayerNorm_init k ln -> shape3 b t k x -> shape3 b t k (LayerNorm_forward ln x).
Proof.
  intros Hln [Hb Hrows]. split; [unfold LayerNorm_forward; now rewrite length_map|].
  apply Forall_forall. intros m Hm. apply in_map_iff in Hm as (xi & <- & Hxi).
  rewrite Forall_forall in Hrows. destruct (Hrows xi Hxi) as [Ht Hr].
  split; [now rewrite length_map|].
  apply Forall_forall. intros r Hr'. apply in_map_iff in Hr' as (v & <- & Hv).
  apply (LayerNorm_apply_length k ln v Hln).
  rewrite Forall_forall in Hr. now apply Hr.
Qed.

Lemma SelfAttention_forward_shape sa b t k h (x : tensor3) :
  SelfAttention_init k h sa -> shape3 b t k x ->
  shape3 b t k (SelfAttention_forward sa b t k x).
Proof.
  intros Hsa [Hb Hrows]. rewrite (SelfAttention_forward_map sa b t k x Hb).
  destruct Hsa as (_ & _ & _ & _ & _ & Hu).
  split; [now rewrite length_map|].
  apply Forall_forall. intros m Hm. apply in_map_iff in Hm as (xi & <- & Hxi).
  unfold SelfAttention_example. split.
  - now rewrite !length_map, transpose_length.
  - apply Forall_forall. intros r Hr. apply in_map_iff in Hr as (v & <- & _).
    apply (Linear_apply_length _ _ _ _ v Hu).
Qed.

Lemma feed_forward_unfold l1 l2 (x : tensor3) :
  Sequential_forward [Layer_Linear l1; Layer_ReLU; Layer_Linear l2] x
  = Linear_forward l2 (map (map (map relu)) (Linear_forward l1 x)).
Proof. reflexivity. Qed.

Lemma feed_forward_shape blk b t k heads n_mlp (x : tensor3) :
  TransformerBlock_init k heads n_mlp blk -> shape3 b t k x ->
  shape3 b t k (Sequential_forward (ff blk) x).
Proof.
  intros (_ & _ & _ & l1 & l2 & -> & H1 & H2) Hx.
  rewrite feed_forward_unfold. unfold Linear_forward. rewrite !map_map.
  assert (E : forall m : list (list R),
             map (Linear_apply l2) (map (map relu) (map (Linear_apply l1) m))
             = map (fun v => Linear_apply l2 (map relu (Linear_apply l1 v))) m)
    by (intros m; now rewrite !map_map).
  rewrite (map_ext _ _ E).
  apply (shape3_map_rows _ b t k k x Hx).
  intros v. apply (Linear_apply_length _ _ _ _ _ H2).
Qed.

(** C2.  On an input [x] of shape [[b, t, k]], [TransformerBlock.forward]
    returns [norm2 (f + x1)] with [x1 = norm1 (attention x + x)] and
    [f = ff x1]: in both sublayers the residual sum is formed first and
    normalised afterwards.  Every intermediate and the result have the shape
    [[b, t, k]] of the input. *)
Theorem TransformerBlock_forward_add_then_normalize blk b t k heads n_mlp x :
  TransformerBlock_init k heads n_mlp blk ->
  shape3 b t k x ->
  let a := SelfAttention_forward (attention blk) b t k x in
  let x1 := LayerNorm_forward (norm1 blk) (tensor_add a x) in
  let f := Sequential_forward (ff blk) x1 in
  TransformerBlock_forward blk b t k x = LayerNorm_forward (norm2 blk) (tensor_add f x1) /\
  shape3 b t k a /\ shape3 b t k x1 /\ shape3 b t k f /\
  shape3 b t k (TransformerBlock_forward blk b t k x).
Proof.
  intros Hblk Hx. cbv zeta.
  pose proof Hblk as (Hsa & Hn1 & Hn2 & _).
  pose proof (SelfAttention_forward_shape _ b t k heads x Hsa Hx) as Ha.
  pose proof (LayerNorm_forward_shape b t k _ _ Hn1 (tensor_add_shape b t k _ _ Ha Hx))
    as Hx1.
  pose proof (feed_forward_shape blk b t k heads n_mlp _ Hblk Hx1) as Hf.
  repeat split; try apply Ha; try apply Hx1; try apply Hf;
    apply (LayerNorm_forward_shape b t k _ _ Hn2 (tensor_add_shape b t k _ _ Hf Hx1)).
Qed.

Lemma sample_block_init : TransformerBlock_init 1 2 4 sample_block.
Proof.
  split; [exact sample_attention_init|].
  split; [repeat split|]. split; [repeat split|].
  eexists _, _. split; [reflexivity|].
  unfold Linear_init, shape2. simpl. repeat split; repeat constructor.
Qed.

Lemma TransformerBlock_forward_add_then_normalize_witness :
  TransformerBlock_init 1 2 4 sample_block /\
  shape3 1 2 1 sample_input /\
  shape3 1 2 1 (TransformerBlock_forward sample_block 1 2 1 sample_input).
Proof.
  split; [exact sample_block_init|]. split; [exact sample_input_shape|].
  exact (proj2 (proj2 (proj2 (proj2
    (TransformerBlock_forward_add_then_normalize sample_block 1 2 1 2 4 sample_input
       sample_block_init sample_input_shape))))).
Defined.

(** ** Layer normalisation never divides by zero *)

Lemma rsum_nonneg (l : vec) : Forall (fun s => 0 <= s) l -> 0 <= rsum l.
Proof. induction 1; simpl; lra. Qed.

Lemma mean_nonneg (l : vec) : Forall (fun s => 0 <= s) l -> 0 <= mean l.
Proof.
  intros H. unfold mean. destruct l as [|a l].
  - simpl. unfold Rdiv. rewrite Rmult_0_l. lra.
  - apply Rmult_le_pos; [now apply rsum_nonneg|].
    apply Rlt_le, Rinv_0_lt_compat, lt_0_INR. simpl. lia.
Qed.

Lemma variance_nonneg (v : vec) : 0 <= variance v.
Proof.
  unfold variance. apply mean_nonneg, Forall_forall.
  intros s Hs. apply in_map_iff in Hs as (a & <- & _).
  apply (Rle_0_sqr (a - mean v)).
Qed.

Lemma LayerNorm_default_eps_pos : 0 < LayerNorm_default_eps.
Proof. unfold LayerNorm_default_eps. lra. Qed.

Lemma LayerNorm_denominator_pos k ln v :
  LayerNorm_init k ln -> 0 < LayerNorm_denominator ln v.
Proof.
  intros (_ & Heps & _). unfold LayerNorm_denominator. rewrite Heps.
  apply sqrt_lt_R0.
  pose proof (variance_nonneg v). pose proof LayerNorm_default_eps_pos. lra.
Qed.

Lemma rsum_repeat (c : R) n : rsum (repeat c n) = INR n * c.
Proof.
  induction n as [|n IH]; [simpl; lra|].
  rewrite S_INR. simpl. rewrite IH. lra.
Qed.

Lemma mean_repeat (c : R) n : (0 < n)%nat -> mean (repeat c n) = c.
Proof.
  intros Hn. unfold mean. rewrite rsum_repeat, repeat_length.
  field. apply not_0_INR. lia.
Qed.

Lemma variance_repeat (c : R) n : variance (repeat c n) = 0.
Proof.
  destruct n as [|n].
  - unfold variance, mean. simpl. unfold Rdiv. now rewrite Rmult_0_l.
  - unfold variance. rewrite (mean_repeat c (S n)) by lia.
    rewrite (map_ext_in _ (fun _ => 0))
      by (intros a Ha; apply repeat_spec in Ha; subst a; lra).
    assert (E : forall l : list R, map (fun _ => 0) l = repeat 0 (length l)).
    { induction l; simpl; congruence. }
    rewrite E, repeat_length, mean_repeat by lia. reflexivity.
Qed.

Lemma LayerNorm_apply_constant k ln c :
  LayerNorm_init k ln ->
  LayerNorm_apply ln (repeat c k) = ln_bias ln.
Proof.
  intros Hln. pose proof (LayerNorm_denominator_pos k ln (repeat c k) Hln) as Hd.
  destruct Hln as (_ & _ & Hw & Hb). unfold LayerNorm_apply.
  set (sd := LayerNorm_denominator ln (repeat c k)) in *.
  destruct k as [|k].
  - destruct (ln_weight ln), (ln_bias ln); try discriminate. reflexivity.
  - rewrite (mean_repeat c (S k)) by lia.
    rewrite (map_ext_in _ (fun _ => 0))
      by (intros a Ha; apply repeat_spec in Ha; subst a; unfold Rdiv; lra).
    revert Hw Hb. generalize (ln_weight ln) (ln_bias ln) (S k). clear.
    intros w bv n. revert w bv.
    induction n as [|n IH]; intros [|a w] [|b bv] Hw Hb; try discriminate;
      try reflexivity.
    unfold vadd in *. simpl. f_equal; [lra|]. apply IH; simpl in *; lia.
Qed.

(** C10.  Layer normalisation in a constructed block is total.  For every
    vector, the variance is non-negative, so the variance offset by the
    positive [eps] is positive and so is the divisor [sqrt (var + eps)]; for
    a constant vector the variance is zero, the divisor is [sqrt eps] and the
    result is the bias.  The other divisors met by [TransformerBlock.forward]
    on an input of shape [[b, t, k]] with [k > 0] are positive as well: the
    score scale [sqrt k], the softmax normaliser of every score row, and the
    number [k] of entries of every vector that is normalised. *)
Theorem TransformerBlock_forward_never_divides_by_zero blk b t k heads n_mlp x :
  TransformerBlock_init k heads n_mlp blk ->
  shape3 b t k x ->
  (0 < k)%nat ->
  let a := SelfAttention_forward (attention blk) b t k x in
  let x1 := LayerNorm_forward (norm1 blk) (tensor_add a x) in
  let f := Sequential_forward (ff blk) x1 in
  (forall ln v,
      ln = norm1 blk \/ ln = norm2 blk ->
      0 <= variance v /\ 0 < variance v + ln_eps ln /\
      0 < LayerNorm_denominator ln v) /\
  (forall ln c,
      ln = norm1 blk \/ ln = norm2 blk ->
      variance (repeat c k) = 0 /\
      LayerNorm_denominator ln (repeat c k) = sqrt LayerNorm_default_eps /\
      LayerNorm_apply ln (repeat c k) = ln_bias ln) /\
  0 < sqrt (INR k) /\
  (forall m r,
      In m (SelfAttention_w_prime (attention blk) t k x) -> In r m ->
      0 < rsum (map exp r)) /\
  (forall m v,
      In m (tensor_add a x) \/ In m (tensor_add f x1) -> In v m ->
      0 < INR (length v)).
Proof.
  intros Hblk Hx Hk. cbv zeta.
  pose proof Hblk as (Hsa & Hn1 & Hn2 & _).
  assert (Hln : forall ln, ln = norm1 blk \/ ln = norm2 blk -> LayerNorm_init k ln)
    by (intros ln [->| ->]; assumption).
  split; [|split; [|split; [|split]]].
  - intros ln v Hin. specialize (Hln ln Hin).
    pose proof (variance_nonneg v) as Hv.
    pose proof (LayerNorm_denominator_pos k ln v Hln) as Hd.
    destruct Hln as (_ & Heps & _). rewrite Heps.
    pose proof LayerNorm_default_eps_pos. repeat split; lra.
  - intros ln c Hin. specialize (Hln ln Hin).
    split; [apply variance_repeat|]. split; [|now apply LayerNorm_apply_constant].
    unfold LayerNorm_denominator. rewrite variance_repeat.
    destruct Hln as (_ & -> & _). f_equal. lra.
  - apply sqrt_lt_R0, lt_0_INR, Hk.
  - intros m r Hm Hr. apply rsum_exp_pos. intros ->.
    pose proof (SelfAttention_w_prime_shape _ b t k heads x Hsa Hx) as Hshape.
    pose proof (shape3_in _ _ _ _ _ Hshape Hm) as Hms.
    pose proof (shape2_in _ _ _ _ Hms Hr) as Hlen. simpl in Hlen. subst t.
    destruct Hms as [Hm0 _]. destruct m; [inversion Hr|discriminate].
  - pose proof (SelfAttention_forward_shape _ b t k heads x Hsa Hx) as Ha.
    pose proof (tensor_add_shape b t k _ _ Ha Hx) as Hax.
    pose proof (LayerNorm_forward_shape b t k _ _ Hn1 Hax) as Hx1.
    pose proof (feed_forward_shape blk b t k heads n_mlp _ Hblk Hx1) as Hf.
    pose proof (tensor_add_shape b t k _ _ Hf Hx1) as Hfx.
    intros m v [Hm|Hm] Hv.
    + rewrite (shape2_in _ _ _ _ (shape3_in _ _ _ _ _ Hax Hm) Hv). now apply lt_0_INR.
    + rewrite (shape2_in _ _ _ _ (shape3_in _ _ _ _ _ Hfx Hm) Hv). now apply lt_0_INR.
Qed.

Lemma TransformerBlock_forward_never_divides_by_zero_witness :
  TransformerBlock_init 1 2 4 sample_block /\
  shape3 1 2 1 sample_input /\
  (0 < 1)%nat /\
  variance (repeat 3 1) = 0 /\
  LayerNorm_denominator (norm1 sample_block) (repeat 3 1) = sqrt LayerNorm_default_eps /\
  LayerNorm_apply (norm1 sample_block) (repeat 3 1) = ln_bias (norm1 sample_block).
Proof.
  split; [exact sample_block_init|]. split; [exact sample_input_shape|].
  split; [lia|].
  exact (proj1 (proj2
    (TransformerBlock_forward_never_divides_by_zero sample_block 1 2 1 2 4 sample_input
       sample_block_init sample_input_shape (Nat.lt_0_succ 0)))
    (norm1 sample_block) 3 (or_introl eq_refl)).
Defined.

(** ** Constructor parameters *)

Lemma lookup_Some_In {V} name (l : list (string * V)) v :
  lookup name l = Some v -> In (name, v) l.
Proof.
  unfold lookup. destruct (find _ l) as [[n' v']|] eqn:E; [|discriminate].
  intros [= <-]. apply find_some in E as [Hin Heq]. simpl in Heq.
  apply String.eqb_eq in Heq. now subst n'.
Qed.

Lemma bind_kwargs_known sig kwargs env name v :
  bind_kwargs sig kwargs = Ok env -> lookup name kwargs = Some v ->
  lookup name sig <> None.
Proof.
  unfold bind_kwargs. destruct (forallb _ kwargs) eqn:E; [|discriminate].
  intros _ Hl. apply lookup_Some_In in Hl.
  rewrite forallb_forall in E. specialize (E _ Hl). simpl in E.
  destruct (lookup name sig); [discriminate|discriminate].
Qed.




(** ** The embedding lookups *)

Lemma mapM_Ok {A B} (f : A -> result B) (g : A -> B) l :
  (forall a, In a l -> f a = Ok (g a)) -> mapM f l = Ok (map g l).
Proof.
  induction l as [|a l IH]; intros H; simpl; [reflexivity|].
  rewrite (H a (or_introl eq_refl)). simpl.
  rewrite IH by (intros; apply H; now right). reflexivity.
Qed.

Lemma mapM_error_kind {A B} (f : A -> result B) e0 l :
  (forall a e, f a = Err e -> e = e0) -> forall e, mapM f l = Err e -> e = e0.
Proof.
  intros Hf. induction l as [|a l IH]; intros e; simpl; [discriminate|].
  destruct (f a) as [y|e'] eqn:E; simpl.
  - destruct (mapM f l) as [ys|e'']; simpl; [discriminate|].
    intros [= <-]. now apply IH.
  - intros [= <-]. now apply (Hf a).
Qed.

Lemma mapM_fails {A B} (f : A -> result B) e0 l :
  (forall a e, f a = Err e -> e = e0) ->
  Exists (fun a => f a = Err e0) l -> mapM f l = Err e0.
Proof.
  intros Hf. induction 1 as [a l Ha|a l _ IH]; simpl.
  - now rewrite Ha.
  - destruct (f a) as [y|e'] eqn:E; simpl.
    + now rewrite IH.
    + f_equal. now apply (Hf a).
Qed.

Lemma Embedding_lookup_in_range e i :
  (0 <= i < Z.of_nat (num_embeddings e))%Z ->
  Embedding_lookup e i = Ok (nth (Z.to_nat i) (emb_weight e) []).
Proof.
  intros Hi. unfold Embedding_lookup.
  destruct (Z.leb_spec 0 i); [|lia].
  destruct (Z.ltb_spec i (Z.of_nat (num_embeddings e))); [reflexivity|lia].
Qed.

Lemma Embedding_lookup_out_of_range e i :
  (Z.of_nat (num_embeddings e) <= i)%Z -> Embedding_lookup e i = Err IndexError.
Proof.
  intros Hi. unfold Embedding_lookup.
  destruct (Z.ltb_spec i (Z.of_nat (num_embeddings e))); [lia|].
  now rewrite Bool.andb_false_r.
Qed.

Lemma Embedding_lookup_error_kind e i err :
  Embedding_lookup e i = Err err -> err = IndexError.
Proof.
  unfold Embedding_lookup. destruct (andb _ _); [discriminate|]. now intros [= <-].
Qed.

Lemma Embedding_forward1_error_kind e idx err :
  Embedding_forward1 e idx = Err err -> err = IndexError.
Proof. apply mapM_error_kind. apply Embedding_lookup_error_kind. Qed.

Lemma Embedding_forward2_error_kind e idx err :
  Embedding_forward2 e idx = Err err -> err = IndexError.
Proof. apply mapM_error_kind. apply Embedding_forward1_error_kind. Qed.

Lemma Embedding_forward1_fails e idx :
  Exists (fun i => (Z.of_nat (num_embeddings e) <= i)%Z) idx ->
  Embedding_forward1 e idx = Err IndexError.
Proof.
  intros H. apply mapM_fails; [apply Embedding_lookup_error_kind|].
  apply Exists_impl with (2 := H). apply Embedding_lookup_out_of_range.
Qed.

Lemma Embedding_forward2_fails e idx :
  Exists (Exists (fun i => (Z.of_nat (num_embeddings e) <= i)%Z)) idx ->
  Embedding_forward2 e idx = Err IndexError.
Proof.
  intros H. apply mapM_fails; [apply Embedding_forward1_error_kind|].
  apply Exists_impl with (2 := H). apply Embedding_forward1_fails.
Qed.

Lemma arange_too_long e t :
  (num_embeddings e < t)%nat ->
  Embedding_forward1 e (arange t) = Err IndexError.
Proof.
  intros Ht. apply Embedding_forward1_fails, Exists_exists.
  exists (Z.of_nat (num_embeddings e)). split; [|lia].
  unfold arange. apply in_map, in_seq. lia.
Qed.

(** C5.  The classifier's [forward] raises the index error, and returns no
    logits, whenever some token id is [>= num_tokens] or the sequence length
    [t] exceeds [max_seq_len]; in particular the id [num_tokens] itself is
    rejected by the token embedding, not wrapped or clamped. *)
Theorem forward_rejects_out_of_range
  m k heads depth max_seq_len n_tokens num_classes b t x :
  TextClassificationTransformer_init k heads depth max_seq_len n_tokens num_classes m ->
  shape2 b t x ->
  Exists (Exists (fun id => (Z.of_nat n_tokens <= id)%Z)) x \/ (max_seq_len < t)%nat ->
  TextClassificationTransformer_forward m b t x = Err IndexError /\
  Embedding_lookup (token_emb m) (Z.of_nat n_tokens) = Err IndexError.
Proof.
  intros (_ & (_ & Htok & _) & (_ & Hpos & _) & _) _ Hbad.
  assert (Hn : num_embeddings (token_emb m) = n_tokens) by exact Htok.
  assert (Hp : num_embeddings (pos_emb m) = max_seq_len) by exact Hpos.
  split; [|apply Embedding_lookup_out_of_range; lia].
  unfold TextClassificationTransformer_forward.
  destruct Hbad as [Hid|Ht].
  - rewrite Embedding_forward2_fails; [reflexivity|]. now rewrite Hn.
  - destruct (Embedding_forward2 (token_emb m) x) as [tokens|err] eqn:E; simpl.
    + rewrite arange_too_long; [reflexivity|]. now rewrite Hp.
    + f_equal. apply (Embedding_forward2_error_kind _ _ _ E).
Qed.

Lemma sample_classifier_init :
  TextClassificationTransformer_init 1 2 1 2 2 2 sample_classifier.
Proof.
  split; [reflexivity|].
  split; [unfold Embedding_init, shape2; simpl; repeat split; repeat constructor|].
  split; [unfold Embedding_init, shape2; simpl; repeat split; repeat constructor|].
  split; [reflexivity|].
  split; [constructor; [exact sample_block_init|constructor]|].
  unfold Linear_init, shape2. simpl. repeat split; repeat constructor.
Qed.

Lemma forward_rejects_out_of_range_witness :
  TextClassificationTransformer_init 1 2 1 2 2 2 sample_classifier /\
  shape2 1 2 sample_bad_token_ids /\
  TextClassificationTransformer_forward sample_classifier 1 2 sample_bad_token_ids
  = Err IndexError.
Proof.
  assert (Hshape : shape2 1 2 sample_bad_token_ids)
    by (unfold shape2; simpl; repeat split; repeat constructor).
  split; [exact sample_classifier_init|]. split; [exact Hshape|].
  refine (proj1 (forward_rejects_out_of_range sample_classifier 1 2 1 2 2 2 1 2
                   sample_bad_token_ids sample_classifier_init Hshape _)).
  left. constructor. right. left. simpl. lia.
Defined.

(** ** The block and the classifier, one example at a time *)

Lemma zip_with_same {A C} (f : A -> A -> C) l :
  zip_with f l l = map (fun a => f a a) l.
Proof. induction l; simpl; congruence. Qed.

Lemma zip_with_repeat_r {A B C} (f : A -> B -> C) l c n :
  length l = n -> zip_with f l (repeat c n) = map (fun a => f a c) l.
Proof.
  revert n; induction l as [|a l IH]; intros [|n] Hn; simpl in *;
    try discriminate; auto.
  f_equal. apply IH. lia.
Qed.

Lemma tensor_add_map_l (F : list (list R) -> list (list R)) (x : tensor3) :
  tensor_add (map F x) x = map (fun xi => zip_with vadd (F xi) xi) x.
Proof. unfold tensor_add. now rewrite zip_with_map_l, zip_with_same. Qed.

Lemma Sequential_forward_map layers (x : tensor3) :
  Sequential_forward layers x = map (Sequential_example layers) x.
Proof.
  revert x. induction layers as [|ly layers IH]; intros x.
  - simpl. now rewrite map_id.
  - unfold Sequential_forward, Sequential_example in *. simpl. rewrite IH.
    destruct ly; simpl; unfold Linear_forward; now rewrite map_map.
Qed.

Lemma TransformerBlock_forward_map blk b t k (x : tensor3) :
  length x = b ->
  TransformerBlock_forward blk b t k x = map (TransformerBlock_example blk t k) x.
Proof.
  intros Hb. unfold TransformerBlock_forward. cbv zeta.
  rewrite (SelfAttention_forward_map _ b t k x Hb), tensor_add_map_l.
  unfold LayerNorm_forward. rewrite map_map, Sequential_forward_map.
  rewrite tensor_add_map_l, !map_map. reflexivity.
Qed.

Lemma TransformerBlocks_forward_map blocks b t k (x : tensor3) :
  length x = b ->
  TransformerBlocks_forward blocks b t k x
  = map (fun xi => fold_left (fun acc blk => TransformerBlock_example blk t k acc)
                     blocks xi) x.
Proof.
  revert x. induction blocks as [|blk blocks IH]; intros x Hb.
  - simpl. now rewrite map_id.
  - unfold TransformerBlocks_forward in *. simpl.
    rewrite (TransformerBlock_forward_map blk b t k x Hb), IH, map_map
      by now rewrite length_map.
    reflexivity.
Qed.

Lemma Embedding_forward1_valid e idx :
  Forall (fun i => (0 <= i < Z.of_nat (num_embeddings e))%Z) idx ->
  Embedding_forward1 e idx = Ok (map (fun i => nth (Z.to_nat i) (emb_weight e) []) idx).
Proof.
  intros H. apply mapM_Ok. intros i Hi. apply Embedding_lookup_in_range.
  rewrite Forall_forall in H. now apply H.
Qed.

Lemma Embedding_forward2_valid e idx :
  Forall (Forall (fun i => (0 <= i < Z.of_nat (num_embeddings e))%Z)) idx ->
  Embedding_forward2 e idx
  = Ok (map (map (fun i => nth (Z.to_nat i) (emb_weight e) [])) idx).
Proof.
  intros H. apply mapM_Ok. intros ids Hids. apply Embedding_forward1_valid.
  rewrite Forall_forall in H. now apply H.
Qed.

Lemma Embedding_forward1_arange e t :
  (t <= num_embeddings e)%nat ->
  Embedding_forward1 e (arange t)
  = Ok (map (fun j => nth j (emb_weight e) []) (seq 0 t)).
Proof.
  intros Ht. rewrite Embedding_forward1_valid.
  - unfold arange. rewrite map_map. f_equal. apply map_ext. intros j.
    now rewrite Nat2Z.id.
  - unfold arange. apply Forall_forall. intros i Hi.
    apply in_map_iff in Hi as (j & <- & Hj). apply in_seq in Hj. lia.
Qed.

Lemma classifier_pipeline_map m b t (x : list (list Z)) :
  length x = b ->
  map (Linear_apply (classification m))
    (mean_dim1 t (embedding_dim (token_emb m))
       (TransformerBlocks_forward (transformer_blocks m) b t (embedding_dim (token_emb m))
          (tensor_add
             (map (map (fun i => nth (Z.to_nat i) (emb_weight (token_emb m)) [])) x)
             (unsqueeze_expand b
                (map (fun j => nth j (emb_weight (pos_emb m)) []) (seq 0 t))))))
  = map (classifier_example m t) x.
Proof.
  intros Hb. unfold unsqueeze_expand, tensor_add.
  rewrite (zip_with_repeat_r _ _ _ b) by now rewrite length_map.
  rewrite TransformerBlocks_forward_map by now rewrite !length_map.
  unfold mean_dim1. rewrite !map_map. reflexivity.
Qed.

Lemma forward_valid m k heads depth max_seq_len n_tokens num_classes b t x :
  TextClassificationTransformer_init k heads depth max_seq_len n_tokens num_classes m ->
  valid_token_ids n_tokens max_seq_len b t x ->
  TextClassificationTransformer_forward m b t x = Ok (map (classifier_example m t) x).
Proof.
  intros (_ & (_ & Htok & _) & (_ & Hpos & _) & _) ((Hb & Hrows) & _ & Ht & Hids).
  unfold TextClassificationTransformer_forward.
  rewrite Embedding_forward2_valid by (unfold num_embeddings; now rewrite Htok).
  simpl. rewrite Embedding_forward1_arange by (unfold num_embeddings; lia).
  simpl. f_equal. now apply classifier_pipeline_map.
Qed.

Lemma mapM_Ok_inv {A B} (f : A -> result B) (g : A -> B) l ys :
  (forall a y, f a = Ok y -> y = g a) -> mapM f l = Ok ys -> ys = map g l.
Proof.
  intros Hf. revert ys. induction l as [|a l IH]; intros ys; simpl.
  - now intros [= <-].
  - destruct (f a) as [y|e] eqn:E; simpl; [|discriminate].
    destruct (mapM f l) as [ys'|e]; simpl; [|discriminate].
    intros [= <-]. f_equal; [now apply Hf | now apply IH].
Qed.

Lemma Embedding_lookup_Ok e i y :
  Embedding_lookup e i = Ok y -> y = nth (Z.to_nat i) (emb_weight e) [].
Proof.
  unfold Embedding_lookup. destruct (andb _ _); [|discriminate]. now intros [= <-].
Qed.

Lemma Embedding_forward1_Ok e idx y :
  Embedding_forward1 e idx = Ok y ->
  y = map (fun i => nth (Z.to_nat i) (emb_weight e) []) idx.
Proof. apply mapM_Ok_inv. apply Embedding_lookup_Ok. Qed.

Lemma forward_returns m b t x y :
  length x = b ->
  TextClassificationTransformer_forward m b t x = Ok y ->
  y = map (classifier_example m t) x.
Proof.
  intros Hb. unfold TextClassificationTransformer_forward.
  destruct (Embedding_forward2 (token_emb m) x) as [tokens|e] eqn:Etok;
    simpl; [|discriminate].
  destruct (Embedding_forward1 (pos_emb m) (arange t)) as [pe|e] eqn:Epos;
    simpl; [|discriminate].
  intros [= <-].
  apply (mapM_Ok_inv _ _ _ _ (Embedding_forward1_Ok (token_emb m))) in Etok.
  apply Embedding_forward1_Ok in Epos. subst tokens pe.
  unfold arange. rewrite map_map.
  rewrite (map_ext _ (fun j => nth j (emb_weight (pos_emb m)) []))
    by (intros j; now rewrite Nat2Z.id).
  now apply classifier_pipeline_map.
Qed.

(** ** The classifier against its specification *)

Lemma TransformerBlock_forward_shape blk b t k heads n_mlp (x : tensor3) :
  TransformerBlock_init k heads n_mlp blk -> shape3 b t k x ->
  shape3 b t k (TransformerBlock_forward blk b t k x).
Proof.
  intros Hblk Hx. pose proof Hblk as (Hsa & Hn1 & Hn2 & _).
  pose proof (SelfAttention_forward_shape _ b t k heads x Hsa Hx) as Ha.
  pose proof (LayerNorm_forward_shape b t k _ _ Hn1 (tensor_add_shape b t k _ _ Ha Hx))
    as Hx1.
  pose proof (feed_forward_shape blk b t k heads n_mlp _ Hblk Hx1) as Hf.
  apply (LayerNorm_forward_shape b t k _ _ Hn2 (tensor_add_shape b t k _ _ Hf Hx1)).
Qed.

Lemma TransformerBlocks_forward_shape blocks b t k heads n_mlp (x : tensor3) :
  Forall (TransformerBlock_init k heads n_mlp) blocks -> shape3 b t k x ->
  shape3 b t k (TransformerBlocks_forward blocks b t k x).
Proof.
  intros Hblocks. revert x. induction Hblocks as [|blk blocks Hblk _ IH]; intros x Hx.
  - exact Hx.
  - unfold TransformerBlocks_forward in *. simpl. apply IH.
    now apply (TransformerBlock_forward_shape blk b t k heads n_mlp).
Qed.

Lemma spec_blocks_eq blocks b t k (x : tensor3) :
  spec_blocks blocks b t k x = TransformerBlocks_forward blocks b t k x.
Proof.
  revert x. induction blocks as [|blk blocks IH]; intros x; [reflexivity|].
  simpl. now rewrite IH.
Qed.

Lemma spec_embed_shape m k heads depth max_seq_len n_tokens num_classes b t x :
  TextClassificationTransformer_init k heads depth max_seq_len n_tokens num_classes m ->
  valid_token_ids n_tokens max_seq_len b t x ->
  shape3 b t k (spec_embed m x).
Proof.
  intros (_ & (_ & Htl & Htok) & (_ & Hpl & Hpos) & _) ((Hb & Hrows) & _ & Ht & Hids).
  unfold spec_embed. split; [now rewrite length_map|].
  apply Forall_forall. intros xi Hxi. apply in_map_iff in Hxi as (ids & <- & Hin).
  rewrite Forall_forall in Hrows, Hids. specialize (Hrows ids Hin).
  specialize (Hids ids Hin). rewrite Forall_forall in Hids. split.
  - rewrite zip_with_length, !length_map, length_seq. lia.
  - apply Forall_zip_with. intros u v Hu Hv.
    apply in_map_iff in Hu as (id & <- & Hid).
    apply in_map_iff in Hv as (j & <- & Hj). apply in_seq in Hj.
    unfold vadd. rewrite zip_with_length.
    rewrite Forall_forall in Htok, Hpos.
    rewrite (Htok (nth (Z.to_nat id) (emb_weight (token_emb m)) []))
      by (apply nth_In; specialize (Hids id Hid); lia).
    rewrite (Hpos (nth j (emb_weight (pos_emb m)) [])) by (apply nth_In; lia).
    lia.
Qed.

Lemma tokens_plus_positions m k heads depth max_seq_len n_tokens num_classes b t x :
  TextClassificationTransformer_init k heads depth max_seq_len n_tokens num_classes m ->
  valid_token_ids n_tokens max_seq_len b t x ->
  exists tokens pe,
    Embedding_forward2 (token_emb m) x = Ok tokens /\
    Embedding_forward1 (pos_emb m) (arange t) = Ok pe /\
    tensor_add tokens (unsqueeze_expand b pe) = spec_embed m x.
Proof.
  intros (_ & (_ & Htok & _) & (_ & Hpos & _) & _) ((Hb & Hrows) & _ & Ht & Hids).
  eexists _, _.
  split; [apply Embedding_forward2_valid; unfold num_embeddings; now rewrite Htok|].
  split; [apply Embedding_forward1_arange; unfold num_embeddings; lia|].
  unfold unsqueeze_expand, tensor_add, spec_embed.
  rewrite (zip_with_repeat_r _ _ _ b) by now rewrite length_map.
  rewrite map_map. apply map_ext_in. intros ids Hin. rewrite Forall_forall in Hrows.
  now rewrite (Hrows ids Hin).
Qed.

Lemma column_sums k (xi : mat) :
  Forall (fun r => length r = k) xi ->
  fold_right vadd (repeat 0 k) xi = map (fun d => rsum (column d xi)) (seq 0 k).
Proof.
  induction 1 as [|r xi Hr _ IH]; simpl.
  - generalize 0%nat. induction k as [|k IHk]; intros n; simpl; [reflexivity|].
    now rewrite (IHk (S n)).
  - rewrite IH. unfold vadd.
    transitivity (zip_with Rplus (map (fun d => nth d r 0) (seq 0 k))
                    (map (fun d => rsum (column d xi)) (seq 0 k))).
    + f_equal. rewrite <- Hr. symmetry. apply map_nth_seq_id.
    + apply zip_with_map_same.
Qed.

Lemma mean_dim1_spec b t k (x : tensor3) :
  shape3 b t k x -> mean_dim1 t k x = map (spec_mean_pool k) x.
Proof.
  intros Hx. unfold mean_dim1, spec_mean_pool. apply map_ext_in. intros xi Hxi.
  destruct (shape3_in _ _ _ _ _ Hx Hxi) as [Ht Hr].
  now rewrite (column_sums k xi Hr), map_map, Ht.
Qed.

(** C3.  On a valid token-id input of shape [[b, t]], for any number of
    blocks, the classifier's [forward] returns logits, and they are: the
    elementwise sum of the token and position embeddings, passed through the
    blocks in order (unchanged when there is no block), averaged over the
    time axis, and mapped by the final linear projection.  The logits have
    shape [[b, num_classes]]. *)
Theorem forward_is_embed_blocks_pool_classify
  m k heads depth max_seq_len n_tokens num_classes b t x :
  TextClassificationTransformer_init k heads depth max_seq_len n_tokens num_classes m ->
  valid_token_ids n_tokens max_seq_len b t x ->
  TextClassificationTransformer_forward m b t x = Ok (spec_classifier m b t x) /\
  shape3 b t k (spec_embed m x) /\
  shape3 b t k (spec_blocks (transformer_blocks m) b t k (spec_embed m x)) /\
  shape2 b k (map (spec_mean_pool k)
                (spec_blocks (transformer_blocks m) b t k (spec_embed m x))) /\
  shape2 b num_classes (spec_classifier m b t x) /\
  (depth = 0%nat ->
   spec_classifier m b t x
   = map (fun xi => Linear_apply (classification m) (spec_mean_pool k xi))
       (spec_embed m x)).
Proof.
  intros Hinit Hvalid.
  pose proof (spec_embed_shape m _ _ _ _ _ _ b t x Hinit Hvalid) as Hemb.
  destruct (tokens_plus_positions m _ _ _ _ _ _ b t x Hinit Hvalid)
    as (tokens & pe & Htok & Hpe & Hsum).
  destruct Hinit as (_ & (Hk & _) & _ & Hdepth & Hblocks & Hcls).
  pose proof (TransformerBlocks_forward_shape _ b t k heads _ _ Hblocks Hemb) as Hout.
  assert (Hspec : spec_classifier m b t x
                  = map (Linear_apply (classification m))
                      (mean_dim1 t k
                         (TransformerBlocks_forward (transformer_blocks m) b t k
                            (spec_embed m x)))).
  { unfold spec_classifier. rewrite Hk, spec_blocks_eq.
    now rewrite (mean_dim1_spec b t k _ Hout), map_map. }
  split; [|split; [exact Hemb|split; [now rewrite spec_blocks_eq|split; [|split]]]].
  - unfold TextClassificationTransformer_forward.
    rewrite Htok. simpl. rewrite Hpe. simpl. now rewrite Hsum, Hk, Hspec.
  - rewrite spec_blocks_eq. destruct Hout as [Hb _].
    split; [now rewrite length_map|].
    apply Forall_forall. intros v Hv. apply in_map_iff in Hv as (xi & <- & Hxi).
    unfold spec_mean_pool. rewrite length_map, column_sums, length_map, length_seq.
    + reflexivity.
    + apply (shape3_in _ _ _ _ _ (TransformerBlocks_forward_shape _ b t k heads _ _
                                    Hblocks Hemb) Hxi).
  - rewrite Hspec. destruct Hout as [Hb _]. split.
    + unfold mean_dim1. now rewrite !length_map.
    + apply Forall_forall. intros v Hv. apply in_map_iff in Hv as (u & <- & _).
      apply (Linear_apply_length _ _ _ _ _ Hcls).
  - intros ->. unfold spec_classifier. rewrite Hk.
    destruct (transformer_blocks m); [reflexivity|discriminate].
Qed.

Lemma sample_token_ids_valid : valid_token_ids 2 2 2 2 sample_token_ids.
Proof.
  unfold valid_token_ids, shape2, sample_token_ids. simpl.
  repeat split; try lia; repeat constructor; lia.
Qed.

Lemma sample_other_token_ids_valid : valid_token_ids 2 2 3 2 sample_other_token_ids.
Proof.
  unfold valid_token_ids, shape2, sample_other_token_ids. simpl.
  repeat split; try lia; repeat constructor; lia.
Qed.

Lemma forward_is_embed_blocks_pool_classify_witness :
  TextClassificationTransformer_init 1 2 1 2 2 2 sample_classifier /\
  valid_token_ids 2 2 2 2 sample_token_ids /\
  TextClassificationTransformer_forward sample_classifier 2 2 sample_token_ids
  = Ok (spec_classifier sample_classifier 2 2 sample_token_ids).
Proof.
  split; [exact sample_classifier_init|]. split; [exact sample_token_ids_valid|].
  exact (proj1 (forward_is_embed_blocks_pool_classify sample_classifier 1 2 1 2 2 2 2 2
                  sample_token_ids sample_classifier_init sample_token_ids_valid)).
Defined.

(** ** No leakage across the batch *)

(** C9.  The output for example [i] depends on example [i] alone.  For
    self-attention: two inputs (of any batch sizes) that agree on example
    [i] give outputs that agree on example [i].  For the classifier: two
    valid token-id inputs that agree on example [i] both yield logits, and
    the logits agree on example [i]; and whenever two runs on inputs that
    agree on example [i] both return logits, the logits agree on example
    [i]. *)
Theorem no_cross_example_leakage :
  (forall sa b b' t k (x x' : tensor3) i,
      length x = b -> length x' = b' ->
      (i < b)%nat -> (i < b')%nat ->
      nth i x [] = nth i x' [] ->
      nth i (SelfAttention_forward sa b t k x) []
      = nth i (SelfAttention_forward sa b' t k x') []) /\
  (forall m k heads depth max_seq_len n_tokens num_classes b b' t x x' i,
      TextClassificationTransformer_init k heads depth max_seq_len n_tokens num_classes m ->
      valid_token_ids n_tokens max_seq_len b t x ->
      valid_token_ids n_tokens max_seq_len b' t x' ->
      (i < b)%nat -> (i < b')%nat ->
      nth i x [] = nth i x' [] ->
      exists y y',
        TextClassificationTransformer_forward m b t x = Ok y /\
        TextClassificationTransformer_forward m b' t x' = Ok y' /\
        length y = b /\ length y' = b' /\
        nth i y [] = nth i y' []) /\
  (forall m b b' t x x' i y y',
      shape2 b t x -> shape2 b' t x' ->
      (i < b)%nat -> (i < b')%nat ->
      nth i x [] = nth i x' [] ->
      TextClassificationTransformer_forward m b t x = Ok y ->
      TextClassificationTransformer_forward m b' t x' = Ok y' ->
      nth i y [] = nth i y' []).
Proof.
  split; [|split].
  - intros sa b b' t k x x' i Hb Hb' Hi Hi' Heq.
    rewrite (SelfAttention_forward_map sa b t k x Hb).
    rewrite (SelfAttention_forward_map sa b' t k x' Hb').
    rewrite (nth_map_default _ x i [] []) by lia.
    rewrite (nth_map_default _ x' i [] []) by lia.
    now rewrite Heq.
  - intros m k heads depth max_seq_len n_tokens num_classes b b' t x x' i
      Hinit Hx Hx' Hi Hi' Heq.
    exists (map (classifier_example m t) x), (map (classifier_example m t) x').
    pose proof Hx as ((Hb & _) & _). pose proof Hx' as ((Hb' & _) & _).
    split; [now apply (forward_valid m k heads depth max_seq_len n_tokens num_classes)|].
    split; [now apply (forward_valid m k heads depth max_seq_len n_tokens num_classes)|].
    split; [now rewrite length_map|]. split; [now rewrite length_map|].
    rewrite (nth_map_default _ x i [] []) by lia.
    rewrite (nth_map_default _ x' i [] []) by lia.
    now rewrite Heq.
  - intros m b b' t x x' i y y' [Hb _] [Hb' _] Hi Hi' Heq Hy Hy'.
    rewrite (forward_returns m b t x y Hb Hy).
    rewrite (forward_returns m b' t x' y' Hb' Hy').
    rewrite (nth_map_default _ x i [] []) by lia.
    rewrite (nth_map_default _ x' i [] []) by lia.
    now rewrite Heq.
Qed.

Lemma no_cross_example_leakage_witness :
  TextClassificationTransformer_init 1 2 1 2 2 2 sample_classifier /\
  valid_token_ids 2 2 2 2 sample_token_ids /\
  valid_token_ids 2 2 3 2 sample_other_token_ids /\
  nth 0 sample_token_ids [] = nth 0 sample_other_token_ids [] /\
  exists y y',
    TextClassificationTransformer_forward sample_classifier 2 2 sample_token_ids = Ok y /\
    TextClassificationTransformer_forward sample_classifier 3 2 sample_other_token_ids
    = Ok y' /\
    length y = 2%nat /\ length y' = 3%nat /\
    nth 0 y [] = nth 0 y' [].
Proof.
  split; [exact sample_classifier_init|]. split; [exact sample_token_ids_valid|].
  split; [exact sample_other_token_ids_valid|]. split; [reflexivity|].
  apply (proj1 (proj2 no_cross_example_leakage) sample_classifier
           1%nat 2%nat 1%nat 2%nat 2%nat 2%nat 2%nat 3%nat 2%nat
           sample_token_ids sample_other_token_ids 0%nat
           sample_classifier_init sample_token_ids_valid sample_other_token_ids_valid);
    [lia | lia | reflexivity].
Defined.

(** * Further properties of the code *)

(** ** Folding and un-folding the heads *)

Lemma transpose_involutive {A} (d : A) n m (M : list (list A)) :
  shape2 n m M -> transpose d n (transpose d m M) = M.
Proof.
  intros [Hn Hm]. unfold transpose.
  transitivity (map (fun i => nth i M []) (seq 0 n));
    [|rewrite <- Hn; apply map_nth_seq_id].
  apply map_ext_in. intros i Hi. apply in_seq in Hi.
  rewrite map_map.
  transitivity (map (fun j => nth j (nth i M []) d) (seq 0 m)).
  - apply map_ext. intros j.
    apply (nth_map_default (fun row => nth j row d) M i [] d). lia.
  - rewrite Forall_forall in Hm.
    rewrite <- (Hm (nth i M [])) by (apply nth_In; lia).
    apply map_nth_seq_id.
Qed.

Lemma chunks_pieces {A} n k (l : list A) c :
  length l = (n * k)%nat -> In c (chunks n k l) ->
  length c = k /\ forall a, In a c -> In a l.
Proof.
  revert l. induction n as [|n IH]; intros l Hl Hc; [inversion Hc|].
  simpl in Hc, Hl. destruct Hc as [<-|Hc].
  - split; [rewrite length_firstn; lia|].
    intros a Ha. rewrite <- (firstn_skipn k l). apply in_or_app. now left.
  - destruct (IH (skipn k l)) as [Hk Hin]; [rewrite length_skipn; lia|exact Hc|].
    split; [exact Hk|]. intros a Ha.
    rewrite <- (firstn_skipn k l). apply in_or_app. right. now apply Hin.
Qed.

Lemma fold_heads_map h k (y : tensor3) :
  fold_heads h (view_heads h k y)
  = concat (map (fun xi => transpose [] h (map (chunks h k) xi)) y).
Proof.
  unfold fold_heads, view_heads, transpose_1_2. now rewrite map_map.
Qed.

(** X1.  The reshaping at the two ends of [SelfAttention.forward] is a
    round trip.  Splitting the last axis of a [[b, t, h*k]] tensor into heads
    and folding them into the batch axis, then un-folding and merging, gives
    the tensor back; and un-folding a [[b*h, t, k]] tensor, then splitting
    and folding again, gives that tensor back.  The un-folding is the one
    [forward] applies to [torch.bmm(w, values)]. *)
Theorem fold_unfold_heads_round_trip b t h k :
  (forall y, shape3 b t (h * k) y ->
             unfold_heads b h t (fold_heads h (view_heads h k y)) = y) /\
  (forall z, shape3 (b * h) t k z ->
             fold_heads h (view_heads h k (unfold_heads b h t z)) = z) /\
  (forall sa x, sa_h sa = h ->
             SelfAttention_forward sa b t k x
             = Linear_forward (unifyheads sa)
                 (unfold_heads b h t
                    (bmm k (SelfAttention_w sa t k x) (SelfAttention_values sa k x)))).
Proof.
  split; [|split].
  - intros y [Hb Hrows]. rewrite fold_heads_map. unfold unfold_heads.
    rewrite <- Hb.
    rewrite <- (length_map (fun xi => transpose [] h (map (chunks h k) xi)) y) at 1.
    rewrite chunks_concat
      by (apply Forall_forall; intros g Hg; apply in_map_iff in Hg as (xi & <- & _);
          apply transpose_length).
    unfold transpose_1_2. rewrite !map_map.
    rewrite <- (map_id y) at 2. apply map_ext_in. intros xi Hxi.
    rewrite Forall_forall in Hrows. destruct (Hrows xi Hxi) as [Ht Hr].
    rewrite (transpose_involutive [] t h).
    + rewrite map_map. rewrite <- (map_id xi) at 2. apply map_ext_in.
      intros r Hin. apply concat_chunks. rewrite Forall_forall in Hr. now apply Hr.
    + split; [now rewrite length_map|].
      apply Forall_forall. intros c Hc. apply in_map_iff in Hc as (r & <- & _).
      apply chunks_length.
  - intros z [Hlen Hrows]. rewrite fold_heads_map. unfold unfold_heads, transpose_1_2.
    rewrite !map_map.
    rewrite <- (concat_chunks b h z Hlen) at 2. f_equal.
    rewrite <- (map_id (chunks b h z)) at 2. apply map_ext_in. intros g Hg.
    destruct (chunks_pieces b h z g Hlen Hg) as [Hgl Hgin].
    assert (Hgs : shape2 h t g).
    { split; [exact Hgl|]. apply Forall_forall. intros m Hm.
      rewrite Forall_forall in Hrows. apply (Hrows m (Hgin m Hm)). }
    rewrite map_map.
    rewrite (map_ext_in _ (fun r => r) (transpose [] t g)).
    + rewrite map_id. now apply transpose_involutive.
    + intros r Hr. unfold transpose in Hr. apply in_map_iff in Hr as (j & <- & Hj).
      apply in_seq in Hj. rewrite <- Hgl at 1.
      rewrite <- (length_map (fun row : list (list R) => nth j row []) g) at 1.
      apply chunks_concat. apply Forall_forall. intros v Hv.
      apply in_map_iff in Hv as (m & <- & Hm).
      rewrite Forall_forall in Hrows. destruct (Hrows m (Hgin m Hm)) as [Hmt Hmr].
      rewrite Forall_forall in Hmr. apply Hmr, nth_In. lia.
  - intros sa x <-. reflexivity.
Qed.

Lemma sample_projected_shape : shape3 1 2 (2 * 1) sample_projected.
Proof. unfold shape3, shape2. simpl. repeat split; repeat constructor. Qed.

Lemma fold_unfold_heads_round_trip_witness :
  shape3 1 2 (2 * 1) sample_projected /\
  unfold_heads 1 2 2 (fold_heads 2 (view_heads 2 1 sample_projected)) = sample_projected.
Proof.
  split; [exact sample_projected_shape|].
  exact (proj1 (fold_unfold_heads_round_trip 1 2 2 1) sample_projected
           sample_projected_shape).
Defined.

(** ** Unmasked attention and weighted averages *)

Lemma softmax_entries_pos (v : vec) : Forall (fun p => 0 < p) (softmax v).
Proof.
  unfold softmax. apply Forall_forall. intros p Hp.
  apply in_map_iff in Hp as (s & <- & Hs).
  assert (Hne : v <> []) by (intros ->; inversion Hs).
  apply Rdiv_lt_0_compat; [apply exp_pos | now apply rsum_exp_pos].
Qed.

Lemma SelfAttention_w_shape sa b t k h x :
  SelfAttention_init k h sa -> shape3 b t k x ->
  shape3 (b * h) t t (SelfAttention_w sa t k x).
Proof.
  intros Hsa Hx.
  pose proof (SelfAttention_w_prime_shape sa b t k h x Hsa Hx) as Hp.
  destruct Hp as [Hlen Hrows]. unfold SelfAttention_w, F_softmax_last.
  split; [now rewrite length_map|].
  apply Forall_forall. intros m Hm. apply in_map_iff in Hm as (m' & <- & Hm').
  rewrite Forall_forall in Hrows. destruct (Hrows m' Hm') as [Ht Hr].
  split; [now rewrite length_map|].
  apply Forall_forall. intros r Hr'. apply in_map_iff in Hr' as (r' & <- & Hr'').
  unfold softmax. rewrite length_map. rewrite Forall_forall in Hr. now apply Hr.
Qed.

Lemma nth_shape3 b t k (x : tensor3) n i :
  shape3 b t k x -> (n < b)%nat -> (i < t)%nat ->
  In (nth n x []) x /\ In (nth i (nth n x []) []) (nth n x []) /\
  length (nth i (nth n x []) []) = k.
Proof.
  intros Hx Hn Hi. pose proof Hx as [Hb _].
  assert (H1 : In (nth n x []) x) by (apply nth_In; lia).
  pose proof (shape3_in _ _ _ _ _ Hx H1) as Hm. pose proof Hm as [Ht _].
  assert (H2 : In (nth i (nth n x []) []) (nth n x [])) by (apply nth_In; lia).
  repeat split; try assumption. apply (shape2_in _ _ _ _ Hm H2).
Qed.



Lemma dot_bounds (w c : vec) lo hi :
  length w = length c ->
  Forall (fun p => 0 <= p) w ->
  Forall (fun s => lo <= s <= hi) c ->
  lo * rsum w <= dot w c <= hi * rsum w.
Proof.
  revert c. induction w as [|p w IH]; intros [|s c] Hlen Hw Hc;
    try discriminate; unfold dot in *; simpl.
  - lra.
  - inversion Hw as [|? ? Hp Hw']; subst. inversion Hc as [|? ? Hs Hc']; subst.
    specialize (IH c ltac:(simpl in Hlen; lia) Hw' Hc'). nra.
Qed.

Lemma weighted_average_bounds (w c : vec) lo hi :
  length w = length c ->
  Forall (fun p => 0 <= p) w -> rsum w = 1 ->
  Forall (fun s => lo <= s <= hi) c ->
  lo <= dot w c <= hi.
Proof.
  intros Hlen Hw Hsum Hc.
  pose proof (dot_bounds w c lo hi Hlen Hw Hc) as H. rewrite Hsum in H. lra.
Qed.

Lemma softmax_row_facts (r : vec) :
  r <> [] ->
  Forall (fun p => 0 <= p) (softmax r) /\ rsum (softmax r) = 1 /\
  length (softmax r) = length r.
Proof.
  intros Hne. split; [|split].
  - apply Forall_impl with (2 := softmax_entries r). intros p Hp. lra.
  - now apply softmax_sum.
  - unfold softmax. now rewrite length_map.
Qed.

Lemma matmul_softmax_bounds t k (s v : mat) lo hi :
  shape2 t t s -> shape2 t k v ->
  Forall (Forall (fun a => lo <= a <= hi)) v ->
  Forall (Forall (fun a => lo <= a <= hi)) (matmul k (map softmax s) v).
Proof.
  intros [Hst Hsr] [Hvt Hvr] Hv. unfold matmul. rewrite map_map.
  apply Forall_forall. intros row Hrow. apply in_map_iff in Hrow as (r & <- & Hr).
  apply Forall_forall. intros a Ha. apply in_map_iff in Ha as (d & <- & Hd).
  apply in_seq in Hd. rewrite Forall_forall in Hsr. pose proof (Hsr r Hr) as Hrl.
  assert (Hne : r <> []).
  { intros ->. simpl in Hrl. subst t. destruct s; [inversion Hr|discriminate]. }
  destruct (softmax_row_facts r Hne) as (Hnn & Hsum & Hl).
  apply weighted_average_bounds; try assumption.
  - unfold column. rewrite Hl, length_map. lia.
  - unfold column. apply Forall_forall. intros c Hc.
    apply in_map_iff in Hc as (vr & <- & Hvr').
    rewrite Forall_forall in Hv, Hvr. specialize (Hv vr Hvr').
    rewrite Forall_forall in Hv. apply Hv, nth_In. rewrite (Hvr vr Hvr'). lia.
Qed.

(** X3.  Each head output is a weighted average of that head's value rows:
    if every entry of the value tensor lies in [[lo, hi]], so does every
    entry of [torch.bmm(w, values)]. *)
Theorem SelfAttention_head_outputs_within_values sa b t k h x lo hi :
  SelfAttention_init k h sa ->
  shape3 b t k x ->
  Forall (Forall (Forall (fun a => lo <= a <= hi))) (SelfAttention_values sa k x) ->
  shape3 (b * h) t k (bmm k (SelfAttention_w sa t k x) (SelfAttention_values sa k x)) /\
  Forall (Forall (Forall (fun a => lo <= a <= hi)))
    (bmm k (SelfAttention_w sa t k x) (SelfAttention_values sa k x)).
Proof.
  intros Hsa Hx Hv.
  pose proof (SelfAttention_w_prime_shape sa b t k h x Hsa Hx) as Hp.
  pose proof (SelfAttention_w_shape sa b t k h x Hsa Hx) as Hw.
  destruct Hsa as (_ & Hh & _ & _ & HWv & _).
  pose proof (SelfAttention_projection_shape (Wv sa) sa b t k h x Hh HWv Hx) as Hvs.
  fold (SelfAttention_values sa k x) in Hvs. split.
  - split.
    + unfold bmm. rewrite zip_with_length. destruct Hw as [-> _], Hvs as [-> _]. lia.
    + apply Forall_zip_with. intros wm vm Hwm _. unfold matmul.
      split; [rewrite length_map; apply (shape3_in _ _ _ _ _ Hw Hwm)|].
      apply Forall_forall. intros r Hr. apply in_map_iff in Hr as (r' & <- & _).
      now rewrite length_map, length_seq.
  - unfold SelfAttention_w, F_softmax_last, bmm. rewrite zip_with_map_l.
    apply Forall_zip_with. intros s v Hs Hvm.
    apply (matmul_softmax_bounds t k).
    + apply (shape3_in _ _ _ _ _ Hp Hs).
    + apply (shape3_in _ _ _ _ _ Hvs Hvm).
    + rewrite Forall_forall in Hv. now apply Hv.
Qed.

Lemma SelfAttention_head_outputs_within_values_witness :
  SelfAttention_init 1 2 sample_attention /\
  shape3 1 2 1 sample_input /\
  Forall (Forall (Forall (fun a => 1 <= a <= 2)))
    (bmm 1 (SelfAttention_w sample_attention 2 1 sample_input)
           (SelfAttention_values sample_attention 1 sample_input)).
Proof.
  split; [exact sample_attention_init|]. split; [exact sample_input_shape|].
  apply (SelfAttention_head_outputs_within_values sample_attention 1 2 1 2
           sample_input 1 2 sample_attention_init sample_input_shape).
  cbv [SelfAttention_values fold_heads view_heads Linear_forward Linear_apply
       transpose_1_2 transpose dot rsum zip_with sample_attention sample_input
       Wv sa_h weight bias chunks firstn skipn map seq nth concat app fold_right].
  repeat constructor; lra.
Defined.

(** ** The first cell: attention without projections *)

Lemma dot_comm (a b : vec) : dot a b = dot b a.
Proof.
  unfold dot. revert b. induction a as [|s a IH]; intros [|u b]; simpl; auto.
  rewrite IH. lra.
Qed.

Lemma basic_w_prime_map b t l (x : tensor3) :
  shape3 b t l x ->
  basic_w_prime t l x
  = map (fun xi => map (fun qi => map (fun kj => dot qi kj) xi) xi) x.
Proof.
  intros Hx. unfold basic_w_prime, bmm, transpose_1_2.
  rewrite zip_with_map_r, zip_with_same. apply map_ext_in. intros xi Hxi.
  apply matmul_transpose. apply (shape3_in _ _ _ _ _ Hx Hxi).
Qed.

Lemma basic_y_map b t l (x : tensor3) :
  shape3 b t l x ->
  basic_y t l x
  = map (fun xi =>
           matmul l (map softmax (map (fun qi => map (fun kj => dot qi kj) xi) xi)) xi)
        x.
Proof.
  intros Hx. unfold basic_y, basic_w, F_softmax_last, bmm.
  rewrite (basic_w_prime_map b t l x Hx), map_map, zip_with_map_l, zip_with_same.
  reflexivity.
Qed.

(** X4.  The first code cell, on [x] of shape [[b, t, l]]: the raw weights
    are symmetric ([w'_ij = w'_ji], both being the inner product of
    positions [i] and [j]); [y] has the shape of [x]; and every output
    vector is a weighted average of the input vectors of its own example,
    so its entries stay within any bounds that hold for that example. *)
Theorem basic_self_attention_averages b t l x :
  shape3 b t l x ->
  (forall n i j, (n < b)%nat -> (i < t)%nat -> (j < t)%nat ->
      nth j (nth i (nth n (basic_w_prime t l x) []) []) 0
      = dot (nth i (nth n x []) []) (nth j (nth n x []) []) /\
      nth j (nth i (nth n (basic_w_prime t l x) []) []) 0
      = nth i (nth j (nth n (basic_w_prime t l x) []) []) 0) /\
  shape3 b t l (basic_y t l x) /\
  (forall n lo hi, (n < b)%nat ->
      Forall (Forall (fun a => lo <= a <= hi)) (nth n x []) ->
      Forall (Forall (fun a => lo <= a <= hi)) (nth n (basic_y t l x) [])).
Proof.
  intros Hx. pose proof Hx as [Hb Hrows].
  assert (Hentry : forall n i j, (n < b)%nat -> (i < t)%nat -> (j < t)%nat ->
            nth j (nth i (nth n (basic_w_prime t l x) []) []) 0
            = dot (nth i (nth n x []) []) (nth j (nth n x []) [])).
  { intros n i j Hn Hi Hj. rewrite (basic_w_prime_map b t l x Hx).
    destruct (nth_shape3 b t l x n i Hx Hn Hi) as (Hin & _ & _).
    destruct (shape3_in _ _ _ _ _ Hx Hin) as [Ht _].
    rewrite (nth_map_default _ x n [] []) by lia.
    rewrite (nth_map_default _ (nth n x []) i [] []) by lia.
    now rewrite (nth_map_default _ (nth n x []) j [] 0) by lia. }
  split; [|split].
  - intros n i j Hn Hi Hj. split; [now apply Hentry|].
    rewrite !Hentry by assumption. apply dot_comm.
  - rewrite (basic_y_map b t l x Hx). split; [now rewrite length_map|].
    apply Forall_forall. intros m Hm. apply in_map_iff in Hm as (xi & <- & Hxi).
    destruct (shape3_in _ _ _ _ _ Hx Hxi) as [Ht _]. unfold matmul. split.
    + now rewrite !length_map.
    + apply Forall_forall. intros r Hr. apply in_map_iff in Hr as (r' & <- & _).
      now rewrite length_map, length_seq.
  - intros n lo hi Hn Hbound. rewrite (basic_y_map b t l x Hx).
    rewrite (nth_map_default _ x n [] []) by lia.
    assert (Hin : In (nth n x []) x) by (apply nth_In; lia).
    pose proof (shape3_in _ _ _ _ _ Hx Hin) as Hs. pose proof Hs as [Ht _].
    apply (matmul_softmax_bounds t l); try assumption.
    split; [now rewrite length_map|].
    apply Forall_forall. intros r Hr. apply in_map_iff in Hr as (qi & <- & _).
    now rewrite length_map.
Qed.

Lemma basic_self_attention_averages_witness :
  shape3 1 2 1 sample_input /\ shape3 1 2 1 (basic_y 2 1 sample_input).
Proof.
  split; [exact sample_input_shape|].
  exact (proj1 (proj2 (basic_self_attention_averages 1 2 1 sample_input
                         sample_input_shape))).
Defined.

(** ** Sequences whose positions are all equal *)

Lemma dot_repeat (w : vec) a t :
  length w = t -> Forall (fun p => 0 <= p) w -> rsum w = 1 ->
  dot w (repeat a t) = a.
Proof.
  intros Hlen Hw Hsum.
  pose proof (weighted_average_bounds w (repeat a t) a a) as H.
  rewrite repeat_length in H. specialize (H Hlen Hw Hsum).
  assert (Hc : Forall (fun s => a <= s <= a) (repeat a t)).
  { apply Forall_forall. intros s Hs. apply repeat_spec in Hs. subst s. lra. }
  specialize (H Hc). lra.
Qed.

Lemma map_const_repeat {A B} (c : B) (l : list A) :
  map (fun _ => c) l = repeat c (length l).
Proof. induction l; simpl; congruence. Qed.

Lemma matmul_constant_rows t k (s : mat) (c : vec) :
  (1 <= t)%nat -> shape2 t t s -> length c = k ->
  matmul k (map softmax s) (repeat c t) = repeat c t.
Proof.
  intros Ht [Hst Hsr] Hc. unfold matmul. rewrite map_map.
  transitivity (map (fun _ : list R => c) s);
    [|now rewrite map_const_repeat, Hst].
  apply map_ext_in. intros r Hr. rewrite Forall_forall in Hsr.
  pose proof (Hsr r Hr) as Hrl.
  assert (Hne : r <> []) by (intros ->; simpl in Hrl; lia).
  destruct (softmax_row_facts r Hne) as (Hnn & Hsum & Hl).
  transitivity (map (fun d => nth d c 0) (seq 0 k));
    [|rewrite <- Hc; apply map_nth_seq_id].
  apply map_ext. intros d. unfold column. rewrite map_repeat.
  apply dot_repeat; try assumption. now rewrite Hl.
Qed.

Lemma zip_with_keeps_right {A B} (f : A -> B -> B) l l' :
  length l = length l' ->
  (forall a b, In a l -> In b l' -> f a b = b) ->
  zip_with f l l' = l'.
Proof.
  revert l'. induction l as [|a l IH]; intros [|b l'] Hlen H; simpl in *;
    try discriminate; auto.
  f_equal; [apply H; now left|]. apply IH; [lia|].
  intros; apply H; now right.
Qed.

Lemma zip_with_In {A B C} (f : A -> B -> C) l l' c :
  In c (zip_with f l l') -> exists a b, In a l /\ In b l' /\ c = f a b.
Proof.
  revert l'. induction l as [|a l IH]; intros [|b l'] Hc; simpl in Hc; try tauto.
  destruct Hc as [<-|Hc].
  - exists a, b. repeat split; now left.
  - destruct (IH l' Hc) as (a' & b' & Ha & Hb & ->).
    exists a', b'. repeat split; now right.
Qed.

Lemma SelfAttention_example_constant sa t k h p :
  SelfAttention_init k h sa -> (1 <= t)%nat ->
  SelfAttention_example sa t k (repeat p t)
  = map (Linear_apply (unifyheads sa)) (map (Linear_apply (Wv sa)) (repeat p t)).
Proof.
  intros Hsa Ht.
  pose proof (SelfAttention_w_example_scaled sa t k h (repeat p t) Hsa
                (repeat_length p t)) as HW.
  pose proof Hsa as (_ & Hh & HWq & HWk & HWv & _).
  pose proof (heads_of_shape (Wq sa) h k t _ HWq (repeat_length p t)) as HQ.
  pose proof (heads_of_shape (Wk sa) h k t _ HWk (repeat_length p t)) as HK.
  pose proof (heads_of_shape (Wv sa) h k t _ HWv (repeat_length p t)) as HV.
  unfold SelfAttention_example. rewrite HW, Hh. unfold bmm.
  rewrite zip_with_map_l, zip_with_keeps_right.
  - unfold heads_of. rewrite (transpose_involutive [] t h).
    + rewrite !map_map. apply map_ext. intros q. f_equal.
      apply concat_chunks. rewrite (Linear_apply_length _ _ _ _ q HWv). lia.
    + split; [now rewrite length_map, repeat_length|].
      apply Forall_forall. intros c Hc. apply in_map_iff in Hc as (q & <- & _).
      apply chunks_length.
  - rewrite zip_with_length. destruct HQ as [-> _], HK as [-> _], HV as [-> _]. lia.
  - intros s v Hs Hv.
    assert (Hss : shape2 t t s).
    { apply zip_with_In in Hs as (q & kk & Hq & Hkk & ->).
      apply scaled_dot_product_scores_shape.
      - apply (shape3_in _ _ _ _ _ HQ Hq).
      - apply (shape3_in _ _ _ _ _ HK Hkk). }
    unfold heads_of, transpose in Hv. apply in_map_iff in Hv as (j & <- & Hj).
    apply in_seq in Hj. rewrite map_map, map_repeat.
    apply matmul_constant_rows; try assumption.
    apply chunks_nth_length; [|lia].
    rewrite (Linear_apply_length _ _ _ _ p HWv). lia.
Qed.

(** X5.  When all positions of every example carry the same vector, the
    attention weights do not matter: [SelfAttention.forward] returns the
    value projection passed through the unify-heads projection, as it does
    for a single position. *)
Theorem SelfAttention_constant_sequences sa b t k h x :
  SelfAttention_init k h sa ->
  shape3 b t k x ->
  (1 <= t)%nat ->
  (forall xi, In xi x -> exists p, xi = repeat p t) ->
  SelfAttention_forward sa b t k x
  = Linear_forward (unifyheads sa) (Linear_forward (Wv sa) x).
Proof.
  intros Hsa [Hb _] Ht Hconst.
  rewrite (SelfAttention_forward_map sa b t k x Hb).
  unfold Linear_forward. rewrite map_map. apply map_ext_in. intros xi Hxi.
  destruct (Hconst xi Hxi) as [p ->].
  now apply (SelfAttention_example_constant sa t k h p).
Qed.

Lemma SelfAttention_constant_sequences_witness :
  SelfAttention_init 1 2 sample_attention /\
  shape3 2 2 1 sample_constant_input /\
  SelfAttention_forward sample_attention 2 2 1 sample_constant_input
  = Linear_forward (unifyheads sample_attention)
      (Linear_forward (Wv sample_attention) sample_constant_input).
Proof.
  assert (Hshape : shape3 2 2 1 sample_constant_input)
    by (unfold shape3, shape2; simpl; repeat split; repeat constructor).
  split; [exact sample_attention_init|]. split; [exact Hshape|].
  apply (SelfAttention_constant_sequences sample_attention 2 2 1 2
           sample_constant_input sample_attention_init Hshape); [lia|].
  intros xi [<-|[<-|[]]]; [now exists [3] | now exists [5]].
Defined.

(** ** Batches *)

Lemma mapM_app {A B} (f : A -> result B) l l' :
  mapM f (l ++ l')
  = (ys <- mapM f l ;; ys' <- mapM f l' ;; Ok (ys ++ ys')).
Proof.
  induction l as [|a l IH]; simpl.
  - destruct (mapM f l'); reflexivity.
  - destruct (f a) as [y|e]; simpl; [|reflexivity].
    rewrite IH. destruct (mapM f l) as [ys|e]; simpl; [|reflexivity].
    destruct (mapM f l') as [ys'|e]; reflexivity.
Qed.

Lemma forward_by_example m b t x :
  length x = b ->
  TextClassificationTransformer_forward m b t x
  = (tokens <- Embedding_forward2 (token_emb m) x ;;
     pe <- Embedding_forward1 (pos_emb m) (arange t) ;;
     Ok (map (classifier_example m t) x)).
Proof.
  intros Hb.
  destruct (TextClassificationTransformer_forward m b t x) as [y|e] eqn:E.
  - rewrite (forward_returns m b t x y Hb E).
    unfold TextClassificationTransformer_forward in E.
    destruct (Embedding_forward2 (token_emb m) x); simpl in *; [|discriminate].
    destruct (Embedding_forward1 (pos_emb m) (arange t)); simpl in *;
      [reflexivity|discriminate].
  - unfold TextClassificationTransformer_forward in E.
    destruct (Embedding_forward2 (token_emb m) x); simpl in *; [|congruence].
    destruct (Embedding_forward1 (pos_emb m) (arange t)); simpl in *;
      [discriminate|congruence].
Qed.

(** X6.  Batching does not change results.  Running a batch that is the
    concatenation of two batches gives the concatenation of the two
    results, for [SelfAttention.forward], for [TransformerBlock.forward] and
    for the classifier's [forward]; the classifier fails on the concatenation
    exactly when it fails on one of the parts. *)
Theorem forward_of_concatenated_batches b b' t :
  (forall sa k (x x' : tensor3),
      length x = b -> length x' = b' ->
      SelfAttention_forward sa (b + b') t k (x ++ x')
      = SelfAttention_forward sa b t k x ++ SelfAttention_forward sa b' t k x') /\
  (forall blk k (x x' : tensor3),
      length x = b -> length x' = b' ->
      TransformerBlock_forward blk (b + b') t k (x ++ x')
      = TransformerBlock_forward blk b t k x ++ TransformerBlock_forward blk b' t k x') /\
  (forall m (x x' : list (list Z)),
      length x = b -> length x' = b' ->
      TextClassificationTransformer_forward m (b + b') t (x ++ x')
      = (y <- TextClassificationTransformer_forward m b t x ;;
         y' <- TextClassificationTransformer_forward m b' t x' ;;
         Ok (y ++ y'))).
Proof.
  split; [|split].
  - intros sa k x x' Hb Hb'.
    rewrite !SelfAttention_forward_map by (try rewrite length_app; lia).
    apply map_app.
  - intros blk k x x' Hb Hb'.
    rewrite !TransformerBlock_forward_map by (try rewrite length_app; lia).
    apply map_app.
  - intros m x x' Hb Hb'.
    rewrite !forward_by_example by (try rewrite length_app; lia).
    unfold Embedding_forward2. rewrite mapM_app, map_app.
    destruct (mapM (Embedding_forward1 (token_emb m)) x) as [tok|e]; simpl;
      [|reflexivity].
    destruct (mapM (Embedding_forward1 (token_emb m)) x') as [tok'|e'] eqn:E';
      simpl.
    + destruct (Embedding_forward1 (pos_emb m) (arange t)); reflexivity.
    + rewrite (Embedding_forward2_error_kind _ _ _ E').
      destruct (Embedding_forward1 (pos_emb m) (arange t)) as [pe|e] eqn:E;
        simpl; [reflexivity|].
      now rewrite (Embedding_forward1_error_kind _ _ _ E).
Qed.

Lemma forward_of_concatenated_batches_witness :
  TextClassificationTransformer_forward sample_classifier (2 + 3) 2
    (sample_token_ids ++ sample_other_token_ids)
  = (y <- TextClassificationTransformer_forward sample_classifier 2 2 sample_token_ids ;;
     y' <- TextClassificationTransformer_forward sample_classifier 3 2
             sample_other_token_ids ;;
     Ok (y ++ y')).
Proof.
  apply (proj2 (proj2 (forward_of_concatenated_batches 2 3 2))); reflexivity.
Defined.

(** ** When the classifier fails *)

Lemma mapM_Err_inv {A B} (f : A -> result B) l e :
  mapM f l = Err e -> Exists (fun a => exists e', f a = Err e') l.
Proof.
  induction l as [|a l IH]; simpl; [discriminate|].
  destruct (f a) as [y|e'] eqn:E; simpl.
  - destruct (mapM f l) as [ys|e'']; simpl; [discriminate|].
    intros He. right. now apply IH.
  - intros _. left. now exists e'.
Qed.

Lemma Embedding_lookup_Err e i err :
  Embedding_lookup e i = Err err ->
  (i < 0 \/ Z.of_nat (num_embeddings e) <= i)%Z.
Proof.
  unfold Embedding_lookup.
  destruct (Z.leb_spec 0 i); [|intros _; lia].
  destruct (Z.ltb_spec i (Z.of_nat (num_embeddings e))); simpl;
    [discriminate|intros _; lia].
Qed.

Lemma Embedding_lookup_negative e i : (i < 0)%Z -> Embedding_lookup e i = Err IndexError.
Proof.
  intros Hi. unfold Embedding_lookup. destruct (Z.leb_spec 0 i); [lia|reflexivity].
Qed.

(** X7.  The classifier's [forward] on a token-id tensor of shape [[b, t]]
    fails exactly when some id lies outside [[0, num_tokens)] (negative ids
    included) or [t] exceeds [max_seq_len]; the index error is the only
    error it can raise; in every other case it returns logits of shape
    [[b, num_classes]]. *)
Theorem forward_fails_exactly_out_of_range
  m k heads depth max_seq_len n_tokens num_classes b t x :
  TextClassificationTransformer_init k heads depth max_seq_len n_tokens num_classes m ->
  shape2 b t x ->
  let bad :=
    Exists (Exists (fun id => (id < 0 \/ Z.of_nat n_tokens <= id)%Z)) x \/
    (max_seq_len < t)%nat in
  (TextClassificationTransformer_forward m b t x = Err IndexError <-> bad) /\
  (forall e, TextClassificationTransformer_forward m b t x = Err e -> e = IndexError) /\
  (~ bad ->
   exists y, TextClassificationTransformer_forward m b t x = Ok y /\
             shape2 b num_classes y).
Proof.
  intros Hinit [Hb Hrows] bad.
  pose proof Hinit as (_ & (_ & Htok & _) & (_ & Hpos & _) & _ & _ & Hcls).
  assert (Hn : num_embeddings (token_emb m) = n_tokens) by exact Htok.
  assert (Hp : num_embeddings (pos_emb m) = max_seq_len) by exact Hpos.
  assert (Hkind : forall e, TextClassificationTransformer_forward m b t x = Err e ->
                            e = IndexError).
  { intros e. rewrite (forward_by_example m b t x Hb).
    destruct (Embedding_forward2 (token_emb m) x) as [tok|e'] eqn:E; simpl.
    - destruct (Embedding_forward1 (pos_emb m) (arange t)) as [pe|e''] eqn:E';
        simpl; [discriminate|].
      intros [= <-]. apply (Embedding_forward1_error_kind _ _ _ E').
    - intros [= <-]. apply (Embedding_forward2_error_kind _ _ _ E). }
  assert (Hfail : TextClassificationTransformer_forward m b t x = Err IndexError <-> bad).
  { split.
    - rewrite (forward_by_example m b t x Hb).
      destruct (Embedding_forward2 (token_emb m) x) as [tok|e'] eqn:E; simpl.
      + destruct (Embedding_forward1 (pos_emb m) (arange t)) as [pe|e''] eqn:E';
          simpl; [discriminate|].
        intros _. right. apply mapM_Err_inv in E'. apply Exists_exists in E'.
        destruct E' as (i & Hi & err & Herr). unfold arange in Hi.
        apply in_map_iff in Hi as (j & <- & Hj). apply in_seq in Hj.
        apply Embedding_lookup_Err in Herr. lia.
      + intros _. left. apply mapM_Err_inv in E.
        apply Exists_impl with (2 := E). intros ids (err & Herr).
        apply mapM_Err_inv in Herr. apply Exists_impl with (2 := Herr).
        intros id (err' & Hid). apply Embedding_lookup_Err in Hid. lia.
    - intros [Hid|Ht].
      + assert (E : Embedding_forward2 (token_emb m) x = Err IndexError).
        { apply mapM_fails; [apply Embedding_forward1_error_kind|].
          apply Exists_impl with (2 := Hid). intros ids Hids.
          apply mapM_fails; [apply Embedding_lookup_error_kind|].
          apply Exists_impl with (2 := Hids). intros id [Hneg|Hbig].
          - now apply Embedding_lookup_negative.
          - apply Embedding_lookup_out_of_range. lia. }
        unfold TextClassificationTransformer_forward. now rewrite E.
      + unfold TextClassificationTransformer_forward.
        destruct (Embedding_forward2 (token_emb m) x) as [tokens|err] eqn:E; simpl.
        * rewrite arange_too_long; [reflexivity|lia].
        * f_equal. apply (Embedding_forward2_error_kind _ _ _ E). }
  split; [exact Hfail|]. split; [exact Hkind|].
  intros Hgood.
  destruct (TextClassificationTransformer_forward m b t x) as [y|e] eqn:E.
  - exists y. split; [reflexivity|].
    rewrite (forward_returns m b t x y Hb E). split; [now rewrite length_map|].
    apply Forall_forall. intros v Hv. apply in_map_iff in Hv as (ids & <- & _).
    apply (Linear_apply_length _ _ _ _ _ Hcls).
  - exfalso. apply Hgood, Hfail. now rewrite (Hkind e eq_refl).
Qed.

Lemma forward_fails_exactly_out_of_range_witness :
  TextClassificationTransformer_init 1 2 1 2 2 2 sample_classifier /\
  shape2 1 2 sample_negative_token_ids /\
  TextClassificationTransformer_forward sample_classifier 1 2 sample_negative_token_ids
  = Err IndexError.
Proof.
  assert (Hshape : shape2 1 2 sample_negative_token_ids)
    by (unfold shape2; simpl; repeat split; repeat constructor).
  split; [exact sample_classifier_init|]. split; [exact Hshape|].
  apply (proj1 (forward_fails_exactly_out_of_range sample_classifier 1 2 1 2 2 2 1 2
                  sample_negative_token_ids sample_classifier_init Hshape)).
  left. constructor. right. left. simpl. lia.
Defined.

(** ** The block stack is blind to the order of the positions *)

Lemma nth_zip_with {A B C} (f : A -> B -> C) l l' i da db dc :
  (i < length l)%nat -> (i < length l')%nat ->
  nth i (zip_with f l l') dc = f (nth i l da) (nth i l' db).
Proof.
  revert l' i. induction l as [|a l IH]; intros [|b l'] [|i] Hl Hl';
    simpl in *; try lia; auto.
  apply IH; lia.
Qed.

Lemma zip_with_permute {A B C} (f : A -> B -> C) t sigma da db dc l l' :
  Permutation sigma (seq 0 t) -> length l = t -> length l' = t ->
  zip_with f (permute da sigma l) (permute db sigma l')
  = permute dc sigma (zip_with f l l').
Proof.
  intros Hsigma Hl Hl'. unfold permute. rewrite zip_with_map_same.
  apply map_ext_in. intros i Hi. apply (sigma_lt t sigma Hsigma) in Hi.
  symmetry. apply nth_zip_with; lia.
Qed.

Lemma Layer_example_length ly (xi : mat) : length (Layer_example ly xi) = length xi.
Proof. destruct ly; simpl; apply length_map. Qed.

Lemma Sequential_example_length layers (xi : mat) :
  length (Sequential_example layers xi) = length xi.
Proof.
  revert xi. induction layers as [|ly layers IH]; intros xi; [reflexivity|].
  unfold Sequential_example in *. simpl. now rewrite IH, Layer_example_length.
Qed.

Lemma Sequential_example_permute t sigma layers (xi : mat) :
  Permutation sigma (seq 0 t) -> length xi = t ->
  Sequential_example layers (permute [] sigma xi)
  = permute [] sigma (Sequential_example layers xi).
Proof.
  intros Hsigma. revert xi. induction layers as [|ly layers IH]; intros xi Hxi;
    [reflexivity|].
  unfold Sequential_example in *. simpl.
  assert (E : Layer_example ly (permute [] sigma xi)
              = permute [] sigma (Layer_example ly xi)).
  { destruct ly; simpl; now apply (permute_map_len t sigma Hsigma). }
  rewrite E. apply IH. now rewrite Layer_example_length.
Qed.

Lemma SelfAttention_example_length sa t k (xi : mat) :
  length (SelfAttention_example sa t k xi) = t.
Proof. unfold SelfAttention_example. now rewrite !length_map, transpose_length. Qed.

Lemma TransformerBlock_example_length blk t k (xi : mat) :
  length xi = t -> length (TransformerBlock_example blk t k xi) = t.
Proof.
  intros Hxi. unfold TransformerBlock_example.
  rewrite length_map, zip_with_length, Sequential_example_length, length_map,
    zip_with_length, SelfAttention_example_length. lia.
Qed.

Lemma TransformerBlock_example_permute blk t k heads n_mlp sigma (xi : mat) :
  TransformerBlock_init k heads n_mlp blk ->
  Permutation sigma (seq 0 t) -> length xi = t ->
  TransformerBlock_example blk t k (permute [] sigma xi)
  = permute [] sigma (TransformerBlock_example blk t k xi).
Proof.
  intros (Hsa & _) Hsigma Hxi. unfold TransformerBlock_example.
  rewrite (SelfAttention_example_permute _ t k heads sigma xi Hsa Hsigma Hxi).
  rewrite (zip_with_permute vadd t sigma [] [] [] _ _ Hsigma
             (SelfAttention_example_length _ t k xi) Hxi).
  assert (Hz : length (zip_with vadd (SelfAttention_example (attention blk) t k xi) xi)
               = t)
    by (rewrite zip_with_length, SelfAttention_example_length; lia).
  rewrite (permute_map_len t sigma Hsigma (LayerNorm_apply (norm1 blk)) [] [] _ Hz).
  set (x1 := map (LayerNorm_apply (norm1 blk))
               (zip_with vadd (SelfAttention_example (attention blk) t k xi) xi)).
  assert (Hx1 : length x1 = t) by (unfold x1; now rewrite length_map).
  rewrite (Sequential_example_permute t sigma _ x1 Hsigma Hx1).
  rewrite (zip_with_permute vadd t sigma [] [] [] _ _ Hsigma) by
    (try rewrite Sequential_example_length; assumption).
  apply (permute_map_len t sigma Hsigma).
  rewrite zip_with_length, Sequential_example_length. lia.
Qed.

Lemma blocks_example_length blocks t k (xi : mat) :
  length xi = t ->
  length (fold_left (fun acc blk => TransformerBlock_example blk t k acc) blocks xi) = t.
Proof.
  revert xi. induction blocks as [|blk blocks IH]; intros xi Hxi; [exact Hxi|].
  simpl. apply IH. now apply TransformerBlock_example_length.
Qed.

Lemma blocks_example_permute blocks t k heads n_mlp sigma (xi : mat) :
  Forall (TransformerBlock_init k heads n_mlp) blocks ->
  Permutation sigma (seq 0 t) -> length xi = t ->
  fold_left (fun acc blk => TransformerBlock_example blk t k acc) blocks
    (permute [] sigma xi)
  = permute [] sigma
      (fold_left (fun acc blk => TransformerBlock_example blk t k acc) blocks xi).
Proof.
  intros Hblocks Hsigma. revert xi.
  induction Hblocks as [|blk blocks Hblk _ IH]; intros xi Hxi; [reflexivity|].
  simpl.
  rewrite (TransformerBlock_example_permute blk t k heads n_mlp sigma xi Hblk Hsigma Hxi).
  apply IH. now apply TransformerBlock_example_length.
Qed.

Lemma column_sum_permute t sigma (y : mat) d :
  Permutation sigma (seq 0 t) -> length y = t ->
  rsum (column d (permute [] sigma y)) = rsum (column d y).
Proof.
  intros Hsigma Hy. unfold column.
  apply rsum_Permutation, Permutation_map.
  now apply (permute_Permutation t sigma Hsigma).
Qed.

(** X8.  A stack of constructed blocks commutes with every reordering of
    the positions, and mean pooling forgets the order: the pooled vector of
    the reordered input equals the pooled vector of the original input.
    What the classifier knows about word order therefore comes from the
    position embeddings alone. *)
Theorem blocks_then_pooling_ignore_order blocks b t k heads n_mlp sigma x :
  Forall (TransformerBlock_init k heads n_mlp) blocks ->
  shape3 b t k x ->
  Permutation sigma (seq 0 t) ->
  TransformerBlocks_forward blocks b t k (map (permute [] sigma) x)
  = map (permute [] sigma) (TransformerBlocks_forward blocks b t k x) /\
  mean_dim1 t k (TransformerBlocks_forward blocks b t k (map (permute [] sigma) x))
  = mean_dim1 t k (TransformerBlocks_forward blocks b t k x).
Proof.
  intros Hblocks Hx Hsigma. pose proof Hx as [Hb _].
  assert (Hlen : forall xi, In xi x -> length xi = t)
    by (intros xi Hxi; apply (shape3_in _ _ _ _ _ Hx Hxi)).
  assert (E : TransformerBlocks_forward blocks b t k (map (permute [] sigma) x)
              = map (permute [] sigma) (TransformerBlocks_forward blocks b t k x)).
  { rewrite !TransformerBlocks_forward_map by (try rewrite length_map; assumption).
    rewrite !map_map. apply map_ext_in. intros xi Hxi.
    apply (blocks_example_permute blocks t k heads n_mlp sigma xi Hblocks Hsigma
             (Hlen xi Hxi)). }
  split; [exact E|]. rewrite E.
  rewrite (TransformerBlocks_forward_map blocks b t k x Hb).
  unfold mean_dim1. rewrite !map_map. apply map_ext_in. intros xi Hxi.
  apply map_ext. intros d. f_equal.
  apply (column_sum_permute t sigma _ d Hsigma).
  apply blocks_example_length, (Hlen xi Hxi).
Qed.

Lemma blocks_then_pooling_ignore_order_witness :
  Forall (TransformerBlock_init 1 2 4) [sample_block] /\
  shape3 1 2 1 sample_input /\
  Permutation sample_sigma (seq 0 2) /\
  mean_dim1 2 1 (TransformerBlocks_forward [sample_block] 1 2 1
                   (map (permute [] sample_sigma) sample_input))
  = mean_dim1 2 1 (TransformerBlocks_forward [sample_block] 1 2 1 sample_input).
Proof.
  assert (Hblocks : Forall (TransformerBlock_init 1 2 4) [sample_block])
    by (constructor; [exact sample_block_init|constructor]).
  split; [exact Hblocks|]. split; [exact sample_input_shape|].
  split; [exact sample_sigma_permutation|].
  exact (proj2 (blocks_then_pooling_ignore_order [sample_block] 1 2 1 2 4 sample_sigma
                  sample_input Hblocks sample_input_shape sample_sigma_permutation)).
Defined.

Lemma classifier_example_permute m k heads depth max_seq_len n_tokens num_classes
  t sigma ids :
  TextClassificationTransformer_init k heads depth max_seq_len n_tokens num_classes m ->
  Permutation sigma (seq 0 t) -> length ids = t ->
  (forall j, (j < t)%nat ->
             nth j (emb_weight (pos_emb m)) [] = nth 0 (emb_weight (pos_emb m)) []) ->
  classifier_example m t (permute 0%Z sigma ids) = classifier_example m t ids.
Proof.
  intros (_ & (Hk & _) & _ & _ & Hblocks & _) Hsigma Hids Hflat.
  unfold classifier_example. cbv zeta. rewrite Hk. f_equal.
  apply map_ext. intros d. f_equal.
  set (tokv := fun id => nth (Z.to_nat id) (emb_weight (token_emb m)) []).
  set (P := map (fun j => nth j (emb_weight (pos_emb m)) []) (seq 0 t)).
  assert (HP : permute [] sigma P = P).
  { unfold P. rewrite (permute_seq_nth t sigma Hsigma).
    rewrite (map_ext_in _ (fun _ => nth 0 (emb_weight (pos_emb m)) []) sigma)
      by (intros j Hj; apply Hflat, (sigma_lt t sigma Hsigma j Hj)).
    rewrite (map_ext_in _ (fun _ => nth 0 (emb_weight (pos_emb m)) []) (seq 0 t))
      by (intros j Hj; apply in_seq in Hj; apply Hflat; lia).
    now rewrite !map_const_repeat, (sigma_length t sigma Hsigma), length_seq. }
  assert (E : zip_with vadd (map tokv (permute 0%Z sigma ids)) P
              = permute [] sigma (zip_with vadd (map tokv ids) P)).
  { rewrite (permute_map_len t sigma Hsigma tokv 0%Z [] ids Hids).
    rewrite <- HP at 1.
    apply (zip_with_permute vadd t sigma [] [] [] _ _ Hsigma).
    - now rewrite length_map.
    - unfold P. now rewrite length_map, length_seq. }
  rewrite E.
  assert (Hlen : length (zip_with vadd (map tokv ids) P) = t).
  { rewrite zip_with_length, length_map. unfold P.
    rewrite length_map, length_seq. lia. }
  rewrite (blocks_example_permute _ t _ heads _ sigma _ Hblocks Hsigma Hlen).
  apply (column_sum_permute t sigma _ d Hsigma).
  now apply blocks_example_length.
Qed.

(** X9.  The classifier sees word order only through the position
    embeddings: if the rows of the position table used by a valid input are
    all equal, reordering the tokens inside every example leaves the logits
    unchanged. *)
Theorem classifier_order_only_through_positions
  m k heads depth max_seq_len n_tokens num_classes b t sigma x :
  TextClassificationTransformer_init k heads depth max_seq_len n_tokens num_classes m ->
  valid_token_ids n_tokens max_seq_len b t x ->
  Permutation sigma (seq 0 t) ->
  (forall j, (j < t)%nat ->
             nth j (emb_weight (pos_emb m)) [] = nth 0 (emb_weight (pos_emb m)) []) ->
  valid_token_ids n_tokens max_seq_len b t (map (permute 0%Z sigma) x) /\
  TextClassificationTransformer_forward m b t (map (permute 0%Z sigma) x)
  = TextClassificationTransformer_forward m b t x /\
  exists y, TextClassificationTransformer_forward m b t x = Ok y.
Proof.
  intros Hinit Hvalid Hsigma Hflat.
  pose proof Hvalid as ((Hb & Hrows) & Hb1 & Ht & Hids).
  assert (Hvalid' : valid_token_ids n_tokens max_seq_len b t (map (permute 0%Z sigma) x)).
  { split; [split; [now rewrite length_map|]|split; [exact Hb1|split; [exact Ht|]]].
    - apply Forall_forall. intros r Hr. apply in_map_iff in Hr as (ids & <- & _).
      apply (permute_length t sigma Hsigma).
    - apply Forall_forall. intros r Hr. apply in_map_iff in Hr as (ids & <- & Hin).
      apply Forall_forall. intros id Hid. unfold permute in Hid.
      apply in_map_iff in Hid as (i & <- & Hi).
      rewrite Forall_forall in Hids, Hrows. specialize (Hids ids Hin).
      rewrite Forall_forall in Hids. apply Hids, nth_In.
      rewrite (Hrows ids Hin). apply (sigma_lt t sigma Hsigma i Hi). }
  split; [exact Hvalid'|].
  rewrite (forward_valid m _ _ _ _ _ _ b t _ Hinit Hvalid').
  rewrite (forward_valid m _ _ _ _ _ _ b t _ Hinit Hvalid).
  split; [|eexists; reflexivity].
  f_equal. rewrite map_map. apply map_ext_in. intros ids Hin.
  rewrite Forall_forall in Hrows.
  apply (classifier_example_permute m _ _ _ _ _ _ t sigma ids Hinit Hsigma
           (Hrows ids Hin) Hflat).
Qed.

Lemma sample_flat_classifier_init :
  TextClassificationTransformer_init 1 2 1 2 2 2 sample_flat_classifier.
Proof.
  split; [reflexivity|].
  split; [unfold Embedding_init, shape2; simpl; repeat split; repeat constructor|].
  split; [unfold Embedding_init, shape2; simpl; repeat split; repeat constructor|].
  split; [reflexivity|].
  split; [constructor; [exact sample_block_init|constructor]|].
  unfold Linear_init, shape2. simpl. repeat split; repeat constructor.
Qed.

Lemma classifier_order_only_through_positions_witness :
  TextClassificationTransformer_init 1 2 1 2 2 2 sample_flat_classifier /\
  valid_token_ids 2 2 2 2 sample_token_ids /\
  Permutation sample_sigma (seq 0 2) /\
  TextClassificationTransformer_forward sample_flat_classifier 2 2
    (map (permute 0%Z sample_sigma) sample_token_ids)
  = TextClassificationTransformer_forward sample_flat_classifier 2 2 sample_token_ids.
Proof.
  split; [exact sample_flat_classifier_init|]. split; [exact sample_token_ids_valid|].
  split; [exact sample_sigma_permutation|].
  apply (classifier_order_only_through_positions sample_flat_classifier 1 2 1 2 2 2 2 2
           sample_sigma sample_token_ids sample_flat_classifier_init
           sample_token_ids_valid sample_sigma_permutation).
  intros [|[|j]] Hj; [reflexivity|reflexivity|lia].
Defined.

(** ** What layer normalisation leaves of a vector *)

Lemma rsum_map_centred (mu sd : R) (v : vec) :
  rsum (map (fun s => (s - mu) / sd) v) = (rsum v - INR (length v) * mu) / sd.
Proof.
  induction v as [|a v IH].
  - simpl. unfold Rdiv. lra.
  - change (length (a :: v)) with (S (length v)). rewrite S_INR. simpl.
    rewrite IH. unfold Rdiv. lra.
Qed.

Lemma normalized_statistics (eps : R) (v : vec) :
  0 < eps -> v <> [] ->
  let z := map (fun s => (s - mean v) / sqrt (variance v + eps)) v in
  mean z = 0 /\ variance z = variance v / (variance v + eps).
Proof.
  intros Heps Hne z.
  assert (Hn : 0 < INR (length v)).
  { apply lt_0_INR. destruct v; [congruence|simpl; lia]. }
  pose proof (variance_nonneg v) as Hvar.
  assert (Hsd : 0 < sqrt (variance v + eps)) by (apply sqrt_lt_R0; lra).
  assert (Hsq : sqrt (variance v + eps) * sqrt (variance v + eps) = variance v + eps)
    by (apply sqrt_sqrt; lra).
  assert (Hmean : mean z = 0).
  { unfold mean, z. rewrite length_map, rsum_map_centred. unfold mean.
    field. split; lra. }
  split; [exact Hmean|].
  unfold variance at 1. rewrite Hmean. unfold z at 1. rewrite map_map.
  unfold mean at 1. rewrite length_map.
  rewrite (map_ext _ (fun s => (s - mean v) * (s - mean v)
                              * / (variance v + eps))).
  - rewrite (rsum_map_scale (/ (variance v + eps))
               (fun s => (s - mean v) * (s - mean v)) v).
    set (S := rsum (map (fun s => (s - mean v) * (s - mean v)) v)).
    assert (Hv : variance v = S / INR (length v))
      by (unfold variance, mean, S; now rewrite length_map).
    replace (S * / (variance v + eps) / INR (length v))
      with (S / INR (length v) * / (variance v + eps)) by (field; split; lra).
    now rewrite <- Hv.
  - intros s. revert Hsd Hsq. generalize (sqrt (variance v + eps)).
    intros sd Hsd Hsq. rewrite <- Hsq. field. lra.
Qed.

Lemma LayerNorm_apply_default_affine k ln (v : vec) :
  length v = k -> ln_weight ln = repeat 1 k -> ln_bias ln = repeat 0 k ->
  LayerNorm_apply ln v
  = map (fun s => (s - mean v) / LayerNorm_denominator ln v) v.
Proof.
  intros Hv Hw Hb. unfold LayerNorm_apply, vadd. rewrite Hw, Hb.
  rewrite (zip_with_repeat_r Rmult _ 1 k) by now rewrite length_map.
  rewrite (zip_with_repeat_r Rplus _ 0 k) by now rewrite !length_map.
  rewrite !map_map. apply map_ext. intros s. ring.
Qed.



(** ** Parameter counts *)

Lemma Linear_numel_init i o b l :
  Linear_init i o b l -> Linear_numel l = (o * i + if b then o else 0)%nat.
Proof.
  intros [[Ho Hi] Hb]. unfold Linear_numel.
  rewrite (length_concat_const i _ Hi), Ho.
  destruct (bias l) as [bv|]; [destruct Hb as [-> ->]|subst b]; reflexivity.
Qed.

Lemma SelfAttention_numel_init k h sa :
  SelfAttention_init k h sa -> SelfAttention_numel sa = (4 * (h * k * k) + k)%nat.
Proof.
  intros (_ & _ & Hq & Hk & Hv & Hu). unfold SelfAttention_numel.
  rewrite (Linear_numel_init _ _ _ _ Hq), (Linear_numel_init _ _ _ _ Hk),
    (Linear_numel_init _ _ _ _ Hv), (Linear_numel_init _ _ _ _ Hu). nia.
Qed.

Lemma TransformerBlock_numel_init k h n_mlp blk :
  TransformerBlock_init k h n_mlp blk ->
  TransformerBlock_numel blk
  = (4 * (h * k * k) + k + 4 * k + (2 * (n_mlp * k * k) + n_mlp * k + k))%nat.
Proof.
  intros (Hsa & (_ & _ & Hw1 & Hb1) & (_ & _ & Hw2 & Hb2) & l1 & l2 & Hff & H1 & H2).
  unfold TransformerBlock_numel, LayerNorm_numel.
  rewrite (SelfAttention_numel_init k h _ Hsa), Hw1, Hb1, Hw2, Hb2, Hff. simpl.
  rewrite (Linear_numel_init _ _ _ _ H1), (Linear_numel_init _ _ _ _ H2). nia.
Qed.

(** X11.  The constructors fix the number of learned parameters:
    [4*h*k*k + k] for [SelfAttention(k, h)]; that plus [4*k] for the two
    layer norms plus [2*n_mlp*k*k + n_mlp*k + k] for the feed-forward layer
    for [TransformerBlock(k, h, n_mlp)]; and for the classifier
    [num_tokens*k] (token table), [max_seq_len*k] (position table), [depth]
    times a block with [n_mlp = 4], and [k*num_classes + num_classes]
    (classification layer). *)
Theorem parameter_counts :
  (forall k h sa,
      SelfAttention_init k h sa ->
      SelfAttention_numel sa = (4 * (h * k * k) + k)%nat) /\
  (forall k h n_mlp blk,
      TransformerBlock_init k h n_mlp blk ->
      TransformerBlock_numel blk
      = (4 * (h * k * k) + k + 4 * k + (2 * (n_mlp * k * k) + n_mlp * k + k))%nat) /\
  (forall k heads depth max_seq_len n_tokens num_classes m,
      TextClassificationTransformer_init k heads depth max_seq_len n_tokens
        num_classes m ->
      Embedding_numel (token_emb m) = (n_tokens * k)%nat /\
      Embedding_numel (pos_emb m) = (max_seq_len * k)%nat /\
      list_sum (map TransformerBlock_numel (transformer_blocks m))
      = (depth * (4 * (heads * k * k) + k + 4 * k + (8 * (k * k) + 4 * k + k)))%nat /\
      Linear_numel (classification m) = (num_classes * k + num_classes)%nat /\
      TextClassificationTransformer_numel m
      = (n_tokens * k + max_seq_len * k
         + depth * (4 * (heads * k * k) + k + 4 * k + (8 * (k * k) + 4 * k + k))
         + (num_classes * k + num_classes))%nat).
Proof.
  split; [exact SelfAttention_numel_init|]. split; [exact TransformerBlock_numel_init|].
  intros k heads depth max_seq_len n_tokens num_classes m
    (_ & (_ & Htl & Htr) & (_ & Hpl & Hpr) & Hdepth & Hblocks & Hcls).
  assert (Htok : Embedding_numel (token_emb m) = (n_tokens * k)%nat)
    by (unfold Embedding_numel; now rewrite (length_concat_const k _ Htr), Htl).
  assert (Hpos : Embedding_numel (pos_emb m) = (max_seq_len * k)%nat)
    by (unfold Embedding_numel; now rewrite (length_concat_const k _ Hpr), Hpl).
  assert (Hblk : list_sum (map TransformerBlock_numel (transformer_blocks m))
                 = (depth * (4 * (heads * k * k) + k + 4 * k
                             + (8 * (k * k) + 4 * k + k)))%nat).
  { rewrite <- Hdepth. clear Hdepth.
    induction Hblocks as [|blk blocks Hb _ IH]; [reflexivity|].
    simpl map. simpl list_sum. rewrite IH.
    rewrite (TransformerBlock_numel_init k heads _ blk Hb).
    unfold TransformerBlock_default_n_mlp. simpl length. nia. }
  assert (Hc : Linear_numel (classification m) = (num_classes * k + num_classes)%nat)
    by apply (Linear_numel_init _ _ _ _ Hcls).
  repeat split; try assumption.
  unfold TextClassificationTransformer_numel. now rewrite Htok, Hpos, Hblk, Hc.
Qed.

Lemma parameter_counts_witness :
  TextClassificationTransformer_init 1 2 1 2 2 2 sample_classifier /\
  TextClassificationTransformer_numel sample_classifier
  = (2 * 1 + 2 * 1
     + 1 * (4 * (2 * 1 * 1) + 1 + 4 * 1 + (8 * (1 * 1) + 4 * 1 + 1))
     + (2 * 1 + 2))%nat.
Proof.
  split; [exact sample_classifier_init|].
  exact (proj2 (proj2 (proj2 (proj2
    (proj2 (proj2 parameter_counts) 1%nat 2%nat 1%nat 2%nat 2%nat 2%nat
       sample_classifier sample_classifier_init))))).
Defined.

(** ** Dictionaries *)

Section DictLemmas.
Context {K V : Type}.
Variable eqb : K -> K -> bool.
Hypothesis eqb_eq : forall a b, eqb a b = true <-> a = b.

Lemma dict_get_None (k : K) (d : list (K * V)) :
  dict_get eqb k d = None <-> ~ In k (map fst d).
Proof.
  induction d as [|[k' v] d IH]; simpl; [tauto|].
  destruct (eqb k k') eqn:E.
  - apply eqb_eq in E. subst k'. split; [discriminate|tauto].
  - assert (k' <> k) by (intros ->; rewrite (proj2 (eqb_eq k k) eq_refl) in E;
                         discriminate).
    tauto.
Qed.

Lemma dict_get_In (k : K) (v : V) (d : list (K * V)) :
  NoDup (map fst d) -> (dict_get eqb k d = Some v <-> In (k, v) d).
Proof.
  induction d as [|[k' v'] d IH]; simpl; intros Hnd.
  - split; [discriminate|tauto].
  - inversion Hnd as [|? ? Hnotin Hnd']; subst. destruct (eqb k k') eqn:E.
    + apply eqb_eq in E. subst k'. split.
      * intros [= ->]. now left.
      * intros [[= ->]|Hin]; [reflexivity|].
        exfalso. apply Hnotin. apply (in_map fst) in Hin. exact Hin.
    + rewrite (IH Hnd'). split; [tauto|].
      intros [[= -> ->]|Hin]; [|exact Hin].
      rewrite (proj2 (eqb_eq k k) eq_refl) in E. discriminate.
Qed.

Lemma dict_set_fresh (k : K) (v : V) (d : list (K * V)) :
  ~ In k (map fst d) -> dict_set eqb k v d = d ++ [(k, v)].
Proof.
  induction d as [|[k' v'] d IH]; simpl; intros Hk; [reflexivity|].
  destruct (eqb k k') eqn:E.
  - apply eqb_eq in E. subst k'. tauto.
  - rewrite IH by tauto. reflexivity.
Qed.

Lemma dict_of_items_acc (items acc : list (K * V)) :
  NoDup (map fst (acc ++ items)) ->
  fold_left (fun d kv => dict_set eqb (fst kv) (snd kv) d) items acc = acc ++ items.
Proof.
  revert acc. induction items as [|[k v] items IH]; intros acc Hnd; simpl.
  - now rewrite app_nil_r.
  - rewrite dict_set_fresh.
    + rewrite IH; rewrite <- app_assoc; [reflexivity|exact Hnd].
    + rewrite map_app in Hnd. simpl in Hnd.
      apply NoDup_remove_2 in Hnd. intros Hin. apply Hnd, in_or_app. now left.
Qed.

Lemma dict_of_items_NoDup (items : list (K * V)) :
  NoDup (map fst items) -> dict_of_items eqb items = items.
Proof. intros Hnd. unfold dict_of_items. now rewrite dict_of_items_acc. Qed.
End DictLemmas.

(** ** IMDBDataModule.setup *)

Lemma shifted_word_index_keys (wi : list (string * Z)) :
  map fst (map (fun kv => (fst kv, (snd kv + 3)%Z)) wi) = map fst wi.
Proof. rewrite map_map. reflexivity. Qed.

Lemma setup_word2idx bs xtr ytr xte yte wi max_seq_len :
  NoDup (map fst wi) ->
  IMDBDataModule_setup bs xtr ytr xte yte wi max_seq_len
  = (w2i <- dict_kwargs (map (fun kv => (fst kv, (snd kv + 3)%Z)) wi) special_tokens ;;
     Ok (mkIMDBDataModule bs
           (pad_sequences max_seq_len xtr) ytr (pad_sequences max_seq_len xte) yte
           w2i (dict_of_items Z.eqb (map (fun kv => (snd kv, fst kv)) w2i)))).
Proof.
  intros Hnd. unfold IMDBDataModule_setup.
  rewrite (dict_of_items_NoDup String.eqb String.eqb_eq)
    by now rewrite shifted_word_index_keys.
  reflexivity.
Qed.

Lemma setup_without_reserved_word bs xtr ytr xte yte wi max_seq_len :
  NoDup (map fst wi) ->
  (forall name, In name (map fst special_tokens) -> ~ In name (map fst wi)) ->
  exists dm, IMDBDataModule_setup bs xtr ytr xte yte wi max_seq_len = Ok dm /\
             word2idx dm = map (fun kv => (fst kv, (snd kv + 3)%Z)) wi ++ special_tokens.
Proof.
  intros Hnd Hfree. rewrite (setup_word2idx bs xtr ytr xte yte wi max_seq_len Hnd).
  unfold dict_kwargs.
  set (A := map (fun kv => (fst kv, (snd kv + 3)%Z)) wi).
  destruct (existsb _ special_tokens) eqn:E; cbn [bind].
  - exfalso. apply existsb_exists in E as ([name v] & Hin & Hget). simpl in Hget.
    apply (Hfree name); [apply (in_map fst) in Hin; exact Hin|].
    rewrite <- (shifted_word_index_keys wi). fold A.
    destruct (dict_get String.eqb name A) eqn:G; [|discriminate].
    destruct (in_dec string_dec name (map fst A)) as [Hi|Hn]; [exact Hi|].
    apply (dict_get_None String.eqb String.eqb_eq) in Hn. congruence.
  - eexists. split; reflexivity.
Qed.



Lemma NoDup_map_shift (l : list Z) : NoDup l -> NoDup (map (fun v => (v + 3)%Z) l).
Proof.
  induction 1 as [|a l Ha _ IH]; simpl; constructor; [|exact IH].
  intros Hin. apply in_map_iff in Hin as (a' & Heq & Hin).
  assert (a' = a) by lia. subst a'. contradiction.
Qed.

Lemma word2idx_keys_values (wi : list (string * Z)) :
  NoDup (map fst wi) -> NoDup (map snd wi) ->
  Forall (fun kv => (1 <= snd kv)%Z) wi ->
  (forall name, In name (map fst special_tokens) -> ~ In name (map fst wi)) ->
  let w2i := map (fun kv => (fst kv, (snd kv + 3)%Z)) wi ++ special_tokens in
  NoDup (map fst w2i) /\ NoDup (map snd w2i).
Proof.
  intros Hk Hv Hpos Hfree w2i. unfold w2i. rewrite !map_app, !map_map. simpl map at 2 4.
  split.
  - apply NoDup_app.
    + exact Hk.
    + repeat constructor; simpl; intros H;
        repeat (destruct H as [H|H]; [discriminate|]); exact H.
    + intros name Hin Hsp. now apply (Hfree name).
  - apply NoDup_app.
    + replace (map (fun x : string * Z => snd (fst x, (snd x + 3)%Z)) wi)
        with (map (fun v => (v + 3)%Z) (map snd wi))
        by (rewrite map_map; reflexivity).
      now apply NoDup_map_shift.
    + repeat constructor; simpl; intros H;
        repeat (destruct H as [H|H]; [discriminate|]); exact H.
    + intros i Hin Hsp. apply in_map_iff in Hin as (kv & <- & Hkv).
      rewrite Forall_forall in Hpos. specialize (Hpos kv Hkv).
      simpl in Hsp. lia.
Qed.

(** X13.  When the word index ranks its words from 1 upwards without
    repetition and contains none of the reserved names, [setup] builds two
    dictionaries that are inverse to each other: [word2idx] maps a word to
    [i] exactly when [idx2word] maps [i] to that word.  Every word of the
    index gets its rank plus 3, and the ids 0 to 3 belong to the reserved
    names. *)
Theorem setup_word2idx_idx2word_inverse bs xtr ytr xte yte wi max_seq_len :
  NoDup (map fst wi) -> NoDup (map snd wi) ->
  Forall (fun kv => (1 <= snd kv)%Z) wi ->
  (forall name, In name (map fst special_tokens) -> ~ In name (map fst wi)) ->
  exists dm,
    IMDBDataModule_setup bs xtr ytr xte yte wi max_seq_len = Ok dm /\
    (forall w i, dict_get String.eqb w (word2idx dm) = Some i <->
                 dict_get Z.eqb i (idx2word dm) = Some w) /\
    (forall w v, In (w, v) wi ->
                 dict_get String.eqb w (word2idx dm) = Some (v + 3)%Z /\
                 dict_get Z.eqb (v + 3)%Z (idx2word dm) = Some w) /\
    (forall name i, In (name, i) special_tokens ->
                    dict_get Z.eqb i (idx2word dm) = Some name).
Proof.
  intros Hk Hv Hpos Hfree.
  destruct (setup_without_reserved_word bs xtr ytr xte yte wi max_seq_len Hk Hfree)
    as (dm & Hdm & Hw2i).
  exists dm. split; [exact Hdm|].
  destruct (word2idx_keys_values wi Hk Hv Hpos Hfree) as [Hkeys Hvals].
  rewrite <- Hw2i in Hkeys, Hvals.
  assert (Hi2w : idx2word dm = map (fun kv => (snd kv, fst kv)) (word2idx dm)).
  { rewrite (setup_word2idx bs xtr ytr xte yte wi max_seq_len Hk) in Hdm.
    unfold dict_kwargs in Hdm.
    destruct (existsb _ special_tokens); cbn [bind] in Hdm; [discriminate|].
    injection Hdm as <-. cbn [idx2word word2idx].
    apply (dict_of_items_NoDup Z.eqb Z.eqb_eq).
    rewrite map_map. cbn [fst].
    rewrite <- Hw2i in *. exact Hvals. }
  assert (Hinv : forall w i, dict_get String.eqb w (word2idx dm) = Some i <->
                             dict_get Z.eqb i (idx2word dm) = Some w).
  { intros w i.
    rewrite (dict_get_In String.eqb String.eqb_eq w i _ Hkeys).
    rewrite Hi2w, (dict_get_In Z.eqb Z.eqb_eq i w).
    - split.
      + intros Hin. apply in_map_iff. now exists (w, i).
      + intros Hin. apply in_map_iff in Hin as ([w' i'] & [= <- <-] & Hin). exact Hin.
    - now rewrite map_map. }
  split; [exact Hinv|]. split.
  - intros w v Hin.
    assert (H : dict_get String.eqb w (word2idx dm) = Some (v + 3)%Z).
    { apply (dict_get_In String.eqb String.eqb_eq w _ _ Hkeys).
      rewrite Hw2i. apply in_or_app. left.
      apply in_map_iff. now exists (w, v). }
    split; [exact H|]. now apply Hinv.
  - intros name i Hin. apply Hinv.
    apply (dict_get_In String.eqb String.eqb_eq name _ _ Hkeys).
    rewrite Hw2i. apply in_or_app. now right.
Qed.

Lemma sample_word_index_keys : NoDup (map fst sample_word_index).
Proof.
  simpl. repeat constructor; simpl; intros H;
    repeat (destruct H as [H|H]; [discriminate|]); exact H.
Qed.

Lemma sample_word_index_free name :
  In name (map fst special_tokens) -> ~ In name (map fst sample_word_index).
Proof.
  intros Hsp Hwi. simpl in Hsp, Hwi.
  repeat (destruct Hsp as [<-|Hsp];
          [repeat (destruct Hwi as [Hwi|Hwi]; [discriminate|]); exact Hwi|]).
  exact Hsp.
Qed.

Lemma setup_word2idx_idx2word_inverse_witness :
  exists dm,
    IMDBDataModule_setup 2 sample_reviews sample_labels [] [] sample_word_index 3 = Ok dm /\
    dict_get String.eqb "film"%string (word2idx dm) = Some 5%Z /\
    dict_get Z.eqb 5%Z (idx2word dm) = Some "film"%string.
Proof.
  assert (Hv : NoDup (map snd sample_word_index)).
  { simpl. repeat constructor; simpl; intros H;
      repeat (destruct H as [H|H]; [discriminate|]); exact H. }
  assert (Hpos : Forall (fun kv => (1 <= snd kv)%Z) sample_word_index)
    by (repeat constructor; simpl; lia).
  destruct (setup_word2idx_idx2word_inverse 2 sample_reviews sample_labels [] []
              sample_word_index 3 sample_word_index_keys Hv Hpos sample_word_index_free)
    as (dm & Hdm & _ & Hwords & _).
  exists dm. split; [exact Hdm|].
  apply (Hwords "film"%string 2%Z). right. now left.
Defined.

(** ** IMDBDataModule.example *)

Lemma setup_fields bs xtr ytr xte yte wi max_seq_len dm :
  IMDBDataModule_setup bs xtr ytr xte yte wi max_seq_len = Ok dm ->
  batch_size dm = bs /\
  x_train dm = pad_sequences max_seq_len xtr /\ y_train dm = ytr /\
  x_test dm = pad_sequences max_seq_len xte /\ y_test dm = yte.
Proof.
  unfold IMDBDataModule_setup.
  destruct (dict_kwargs _ special_tokens) as [w2i|e]; cbn [bind]; [|discriminate].
  intros [= <-]. repeat split.
Qed.

Lemma pad_sequence_short maxlen (s : list Z) :
  (length s <= maxlen)%nat ->
  pad_sequence maxlen s = repeat 0%Z (maxlen - length s) ++ s.
Proof.
  intros Hs. unfold pad_sequence.
  replace (length s - maxlen)%nat with 0%nat by lia. reflexivity.
Qed.

Lemma pad_sequence_length maxlen (s : list Z) : length (pad_sequence maxlen s) = maxlen.
Proof.
  unfold pad_sequence. rewrite length_app, repeat_length, length_skipn. lia.
Qed.

Lemma review_words_padding i2w n (s : list Z) :
  review_words i2w (repeat 0%Z n ++ s) = review_words i2w s.
Proof. induction n as [|n IH]; simpl; auto. Qed.

Lemma review_words_error i2w (x : list Z) e :
  review_words i2w x = inl e ->
  exists k, e = KeyError k /\ In k x /\ (1 < k)%Z /\ dict_get Z.eqb k i2w = None.
Proof.
  induction x as [|tok x IH]; simpl; [discriminate|].
  destruct (Z.ltb_spec 1 tok).
  - destruct (dict_get Z.eqb tok i2w) as [w|] eqn:G.
    + destruct (review_words i2w x) as [e'|ws]; [|discriminate].
      intros [= <-]. destruct (IH eq_refl) as (k & -> & Hin & Hk & Hg).
      exists k. tauto.
    + intros [= <-]. exists tok. tauto.
  - intros He. destruct (IH He) as (k & -> & Hin & Hk & Hg). exists k. tauto.
Qed.

Lemma review_words_defined i2w (x : list Z) :
  (forall k, In k x -> (1 < k)%Z -> dict_get Z.eqb k i2w <> None) ->
  exists ws, review_words i2w x = inr ws.
Proof.
  intros H. destruct (review_words i2w x) as [e|ws] eqn:E; [|now exists ws].
  destruct (review_words_error i2w x e E) as (k & _ & Hin & Hk & Hg).
  exfalso. now apply (H k).
Qed.

(** X14.  [example] describes the review as it was before padding: for a
    review no longer than [max_seq_len], the padding zeros (and every
    [<START>] marker) are skipped, the remaining ids are looked up in
    [idx2word] and joined by spaces, and the label decides between
    [POSITIVE] (non-zero) and [NEGATIVE].  The only way it fails on a
    non-empty training set is a [KeyError] for an id above 1 of that review
    that [idx2word] lacks; when every such id is present it returns the
    text. *)
Theorem example_describes_unpadded_review bs xtr ytr xte yte wi max_seq_len dm idx :
  IMDBDataModule_setup bs xtr ytr xte yte wi max_seq_len = Ok dm ->
  (idx < length xtr)%nat ->
  (length (nth idx xtr []) <= max_seq_len)%nat ->
  let raw := nth idx xtr [] in
  IMDBDataModule_example dm idx
  = match review_words (idx2word dm) raw with
    | inl e => inl e
    | inr ws =>
        inr (String.concat " "%string ws ++ newline ++ "Sentiment: " ++
             (if (nth idx ytr 0 =? 0)%Z then "NEGATIVE" else "POSITIVE"))%string
    end /\
  (forall e, IMDBDataModule_example dm idx = inl e ->
             exists k, e = KeyError k /\ In k raw /\ (1 < k)%Z /\
                       dict_get Z.eqb k (idx2word dm) = None) /\
  ((forall k, In k raw -> (1 < k)%Z -> dict_get Z.eqb k (idx2word dm) <> None) ->
   exists text, IMDBDataModule_example dm idx = inr text).
Proof.
  intros Hdm Hidx Hlen raw.
  destruct (setup_fields _ _ _ _ _ _ _ _ Hdm) as (_ & Hx & Hy & _).
  assert (E : IMDBDataModule_example dm idx
              = match review_words (idx2word dm) raw with
                | inl e => inl e
                | inr ws =>
                    inr (String.concat " "%string ws ++ newline ++ "Sentiment: " ++
                         (if (nth idx ytr 0 =? 0)%Z then "NEGATIVE" else "POSITIVE"))%string
                end).
  { unfold IMDBDataModule_example. rewrite Hx, Hy.
    unfold pad_sequences at 1. rewrite length_map.
    destruct (Nat.eqb_spec (length xtr) 0); [lia|].
    unfold pad_sequences.
    rewrite (nth_map_default (pad_sequence max_seq_len) xtr idx [] []) by exact Hidx.
    rewrite (pad_sequence_short max_seq_len _ Hlen), review_words_padding.
    reflexivity. }
  split; [exact E|]. split.
  - intros e. rewrite E.
    destruct (review_words (idx2word dm) raw) as [e'|ws] eqn:R; [|discriminate].
    intros [= <-]. now apply review_words_error.
  - intros Hall. rewrite E.
    destruct (review_words_defined (idx2word dm) raw Hall) as [ws ->].
    eexists. reflexivity.
Qed.

Lemma sample_setup :
  IMDBDataModule_setup 2 sample_reviews sample_labels [] [] sample_word_index 3
  = Ok sample_dm.
Proof. reflexivity. Qed.

Lemma example_describes_unpadded_review_witness :
  IMDBDataModule_setup 2 sample_reviews sample_labels [] [] sample_word_index 3
  = Ok sample_dm /\
  IMDBDataModule_example sample_dm 1
  = inr ("film" ++ newline ++ "Sentiment: NEGATIVE")%string.
Proof.
  split; [exact sample_setup|].
  rewrite (proj1 (example_describes_unpadded_review 2 sample_reviews sample_labels [] []
                    sample_word_index 3 sample_dm 1 sample_setup
                    ltac:(simpl; lia) ltac:(simpl; lia))).
  reflexivity.
Defined.

(** ** From the data module to the classifier *)

Lemma batches_of_spec {A} fuel n (l : list A) :
  (1 <= n)%nat -> (length l <= fuel)%nat ->
  concat (batches_of fuel n l) = l /\
  Forall (fun batch => (1 <= length batch <= n)%nat /\ forall a, In a batch -> In a l)
         (batches_of fuel n l).
Proof.
  intros Hn. revert l. induction fuel as [|fuel IH]; intros l Hl.
  - destruct l; [split; [reflexivity|constructor]|simpl in Hl; lia].
  - destruct l as [|a l]; [split; [reflexivity|constructor]|].
    cbn [batches_of]. set (l0 := a :: l) in *.
    destruct (IH (skipn n l0)) as [Hc Hf].
    { rewrite length_skipn. unfold l0 in *. cbn [length] in *. lia. }
    split.
    + cbn [concat]. rewrite Hc. apply firstn_skipn.
    + constructor.
      * split.
        -- rewrite length_firstn. unfold l0. cbn [length]. lia.
        -- intros x Hx. rewrite <- (firstn_skipn n l0). apply in_or_app. now left.
      * apply Forall_impl with (2 := Hf). intros batch [Hlen Hin].
        split; [exact Hlen|]. intros x Hx.
        rewrite <- (firstn_skipn n l0). apply in_or_app. right. now apply Hin.
Qed.

Lemma map_fst_combine {A B} (l : list A) (l' : list B) :
  length l = length l' -> map fst (combine l l') = l.
Proof.
  revert l'. induction l as [|a l IH]; intros [|b l'] H; simpl in *;
    try discriminate; auto.
  f_equal. apply IH. lia.
Qed.

Lemma map_snd_combine {A B} (l : list A) (l' : list B) :
  length l = length l' -> map snd (combine l l') = l'.
Proof.
  revert l'. induction l as [|a l IH]; intros [|b l'] H; simpl in *;
    try discriminate; auto.
  f_equal. apply IH. lia.
Qed.

Lemma DataLoader_spec xs ys n :
  (1 <= n)%nat -> length xs = length ys ->
  concat (map fst (DataLoader xs ys n)) = xs /\
  concat (map snd (DataLoader xs ys n)) = ys /\
  forall xb yb, In (xb, yb) (DataLoader xs ys n) ->
    (1 <= length xb <= n)%nat /\ length yb = length xb /\
    (forall r, In r xb -> In r xs).
Proof.
  intros Hn Hlen. unfold DataLoader.
  destruct (batches_of_spec (length (combine xs ys)) n (combine xs ys) Hn (le_n _))
    as [Hc Hf].
  set (bs := batches_of (length (combine xs ys)) n (combine xs ys)) in *.
  rewrite !map_map. cbn [fst snd].
  split; [|split].
  - rewrite <- concat_map, Hc. now apply map_fst_combine.
  - rewrite <- concat_map, Hc. now apply map_snd_combine.
  - intros xb yb Hin. apply in_map_iff in Hin as (batch & [= <- <-] & Hb).
    rewrite Forall_forall in Hf. destruct (Hf batch Hb) as [Hbl Hbin].
    rewrite !length_map. split; [exact Hbl|]. split; [reflexivity|].
    intros r Hr. apply in_map_iff in Hr as ([r' y] & <- & Hry).
    apply Hbin in Hry. now apply in_combine_l in Hry.
Qed.

Lemma pad_sequence_range n_tokens maxlen (s : list Z) :
  (1 <= n_tokens)%nat ->
  Forall (fun id => (0 <= id < Z.of_nat n_tokens)%Z) s ->
  Forall (fun id => (0 <= id < Z.of_nat n_tokens)%Z) (pad_sequence maxlen s).
Proof.
  intros Hn Hs. unfold pad_sequence. apply Forall_app. split.
  - apply Forall_forall. intros id Hid. apply repeat_spec in Hid. subst id. lia.
  - rewrite <- (firstn_skipn (length s - maxlen) s) in Hs.
    now apply Forall_app in Hs as [_ Hs].
Qed.

Lemma padded_batches_accepted m k heads depth max_seq_len n_tokens num_classes
  bs raw ys :
  TextClassificationTransformer_init k heads depth max_seq_len n_tokens num_classes m ->
  (1 <= bs)%nat -> (1 <= max_seq_len)%nat -> (1 <= n_tokens)%nat ->
  length raw = length ys ->
  Forall (Forall (fun id => (0 <= id < Z.of_nat n_tokens)%Z)) raw ->
  batches_accepted m bs max_seq_len num_classes
    (DataLoader (pad_sequences max_seq_len raw) ys bs)
    (pad_sequences max_seq_len raw) ys.
Proof.
  intros Hinit Hbs Ht Hn Hlen Hids.
  assert (Hlen' : length (pad_sequences max_seq_len raw) = length ys)
    by (unfold pad_sequences; now rewrite length_map).
  destruct (DataLoader_spec (pad_sequences max_seq_len raw) ys bs Hbs Hlen')
    as (Hx & Hy & Hbatch).
  split; [exact Hx|]. split; [exact Hy|].
  intros xb yb Hin. destruct (Hbatch xb yb Hin) as (Hb & Hyb & Hrows).
  split; [exact Hb|]. split; [exact Hyb|].
  assert (Hvalid : valid_token_ids n_tokens max_seq_len (length xb) max_seq_len xb).
  { split; [split; [reflexivity|]|split; [lia|split; [lia|]]].
    - apply Forall_forall. intros r Hr. apply Hrows in Hr.
      unfold pad_sequences in Hr. apply in_map_iff in Hr as (s0 & <- & _).
      apply pad_sequence_length.
    - apply Forall_forall. intros r Hr. apply Hrows in Hr.
      unfold pad_sequences in Hr. apply in_map_iff in Hr as (s0 & <- & Hs).
      apply pad_sequence_range; [exact Hn|].
      rewrite Forall_forall in Hids. now apply Hids. }
  exists (map (classifier_example m max_seq_len) xb).
  split; [apply (forward_valid m _ _ _ _ _ _ _ _ _ Hinit Hvalid)|].
  destruct Hinit as (_ & _ & _ & _ & _ & Hcls).
  split; [now rewrite length_map|].
  apply Forall_forall. intros v Hv. apply in_map_iff in Hv as (ids & <- & _).
  apply (Linear_apply_length _ _ _ _ _ Hcls).
Qed.

(** X15.  The data module feeds the classifier what it accepts.  When the
    loaded reviews use ids in [[0, num_words)] and the classifier is built
    with [num_tokens = num_words] and the same [max_seq_len] as [setup], the
    batches of the training and of the test loader partition the padded
    reviews and their labels in order, every batch has between 1 and
    [batch_size] examples with one label each, and [forward] returns logits
    of shape [[len(batch), num_classes]] for every batch, so no index error
    can occur.  The validation loader yields the test batches. *)
Theorem every_batch_is_accepted
  bs xtr ytr xte yte wi dm m k heads depth max_seq_len n_tokens num_classes :
  IMDBDataModule_setup bs xtr ytr xte yte wi max_seq_len = Ok dm ->
  TextClassificationTransformer_init k heads depth max_seq_len n_tokens num_classes m ->
  (1 <= bs)%nat -> (1 <= max_seq_len)%nat -> (1 <= n_tokens)%nat ->
  length xtr = length ytr -> length xte = length yte ->
  Forall (Forall (fun id => (0 <= id < Z.of_nat n_tokens)%Z)) xtr ->
  Forall (Forall (fun id => (0 <= id < Z.of_nat n_tokens)%Z)) xte ->
  shape2 (length xtr) max_seq_len (x_train dm) /\
  shape2 (length xte) max_seq_len (x_test dm) /\
  batches_accepted m bs max_seq_len num_classes
    (train_dataloader dm) (x_train dm) (y_train dm) /\
  batches_accepted m bs max_seq_len num_classes
    (test_dataloader dm) (x_test dm) (y_test dm) /\
  val_dataloader dm = test_dataloader dm.
Proof.
  intros Hdm Hinit Hbs Ht Hn Hltr Hlte Htr Hte.
  destruct (setup_fields _ _ _ _ _ _ _ _ Hdm) as (Hb & Hx & Hy & Hx' & Hy').
  assert (Hshape : forall raw, shape2 (length raw) max_seq_len
                                 (pad_sequences max_seq_len raw)).
  { intros raw. unfold pad_sequences. split; [now rewrite length_map|].
    apply Forall_forall. intros r Hr. apply in_map_iff in Hr as (s0 & <- & _).
    apply pad_sequence_length. }
  unfold train_dataloader, test_dataloader, val_dataloader.
  rewrite Hb, Hx, Hy, Hx', Hy'.
  split; [apply Hshape|]. split; [apply Hshape|].
  split; [|split; [|reflexivity]];
    now apply (padded_batches_accepted m k heads depth max_seq_len n_tokens).
Qed.

Lemma sample_imdb_classifier_init :
  TextClassificationTransformer_init 1 2 1 3 6 2 sample_imdb_classifier.
Proof.
  split; [reflexivity|].
  split; [unfold Embedding_init, shape2; simpl; repeat split; repeat constructor|].
  split; [unfold Embedding_init, shape2; simpl; repeat split; repeat constructor|].
  split; [reflexivity|].
  split; [constructor; [exact sample_block_init|constructor]|].
  unfold Linear_init, shape2. simpl. repeat split; repeat constructor.
Qed.

Lemma every_batch_is_accepted_witness :
  IMDBDataModule_setup 2 sample_reviews sample_labels [] [] sample_word_index 3
  = Ok sample_dm /\
  TextClassificationTransformer_init 1 2 1 3 6 2 sample_imdb_classifier /\
  batches_accepted sample_imdb_classifier 2 3 2
    (train_dataloader sample_dm) (x_train sample_dm) (y_train sample_dm).
Proof.
  split; [exact sample_setup|]. split; [exact sample_imdb_classifier_init|].
  refine (proj1 (proj2 (proj2
    (every_batch_is_accepted 2 sample_reviews sample_labels [] [] sample_word_index
       sample_dm sample_imdb_classifier 1 2 1 3 6 2
       sample_setup sample_imdb_classifier_init _ _ _ _ _ _ _)))).
  - lia.
  - lia.
  - lia.
  - reflexivity.
  - reflexivity.
  - repeat constructor; simpl; lia.
  - constructor.
Defined.

(** ** The loss of a batch *)

Lemma exp_lt_rsum_exp (l : vec) i :
  (2 <= length l)%nat -> (i < length l)%nat ->
  exp (nth i l 0) < rsum (map exp l).
Proof.
  destruct l as [|a l]; [simpl; lia|]. intros Hlen Hi.
  assert (Hne : l <> []) by (intros ->; simpl in Hlen; lia).
  pose proof (rsum_exp_pos l Hne) as Hpos. pose proof (exp_pos a) as Ha.
  destruct i as [|i]; simpl.
  - lra.
  - assert (Hin : In (nth i l 0) l) by (apply nth_In; simpl in Hi; lia).
    pose proof (exp_le_rsum_exp l _ Hin). lra.
Qed.

Lemma softmax_entry_between (l : vec) i :
  (2 <= length l)%nat -> (i < length l)%nat ->
  0 < nth i (softmax l) 0 < 1.
Proof.
  intros Hlen Hi. unfold softmax.
  rewrite (nth_map_default (fun s => exp s / rsum (map exp l)) l i 0 0 Hi).
  pose proof (exp_lt_rsum_exp l i Hlen Hi) as Hlt.
  pose proof (exp_pos (nth i l 0)) as Hp.
  split.
  - apply Rdiv_lt_0_compat; lra.
  - apply (Rmult_lt_reg_r (rsum (map exp l))); [lra|].
    unfold Rdiv. rewrite Rmult_assoc, Rinv_l by lra. lra.
Qed.

Lemma nll_of_positive (l : vec) target :
  (2 <= length l)%nat -> (0 <= target < Z.of_nat (length l))%Z ->
  exists loss, nll_of l target = Ok loss /\ 0 < loss.
Proof.
  intros Hlen Ht. unfold nll_of.
  destruct (Z.leb_spec 0 target); [|lia].
  destruct (Z.ltb_spec target (Z.of_nat (length l))); [|lia]. simpl.
  eexists. split; [reflexivity|].
  destruct (softmax_entry_between l (Z.to_nat target) Hlen ltac:(lia)) as [Hp H1].
  pose proof (ln_increasing _ _ Hp H1) as Hln. rewrite ln_1 in Hln. lra.
Qed.

Lemma mean_positive (l : vec) : l <> [] -> Forall (fun s => 0 < s) l -> 0 < mean l.
Proof.
  intros Hne Hl. unfold mean. apply Rdiv_lt_0_compat.
  - destruct l as [|a l]; [congruence|]. inversion Hl; subst. simpl.
    assert (0 <= rsum l).
    { apply rsum_nonneg. apply Forall_impl with (2 := H2). intros; lra. }
    lra.
  - apply lt_0_INR. destruct l; [congruence|simpl; lia].
Qed.

Lemma CrossEntropyLoss_positive num_classes (logits : mat) (y : list Z) :
  (2 <= num_classes)%nat -> logits <> [] ->
  length y = length logits ->
  Forall (fun l => length l = num_classes) logits ->
  Forall (fun t => (0 <= t < Z.of_nat num_classes)%Z) y ->
  exists loss, CrossEntropyLoss logits y = Ok loss /\ 0 < loss.
Proof.
  intros Hc Hne Hlen Hl Hy. unfold CrossEntropyLoss.
  assert (H : exists losses,
             mapM (fun lt => nll_of (fst lt) (snd lt)) (combine logits y) = Ok losses /\
             length losses = length logits /\ Forall (fun s => 0 < s) losses).
  { clear Hne. revert y Hlen Hy. induction Hl as [|l logits Hll _ IH];
      intros [|t y] Hlen Hy; simpl in Hlen; try discriminate.
    - exists []. repeat split. constructor.
    - inversion Hy as [|? ? Ht Hy']; subst.
      destruct (nll_of_positive l t) as (loss & Hloss & Hpos); [lia|lia|].
      destruct (IH y ltac:(lia) Hy') as (losses & Hm & Hlen' & Hall).
      exists (loss :: losses). simpl. rewrite Hloss. simpl. rewrite Hm. simpl.
      repeat split; [lia|now constructor]. }
  destruct H as (losses & -> & Hlen' & Hall). simpl.
  eexists. split; [reflexivity|]. apply mean_positive; [|exact Hall].
  intros ->. destruct logits; [congruence|discriminate].
Qed.


